(** * lcapy schematic layout: the constraint graph of [lcapy/schematic.py]

    A shallow embedding of the classes [Cnodes], [Gedge], [Gnode] and [Graph]
    of [src/lcapy/schematic.py] and of the placement methods of [Cpt] in
    [src/lcapy/schemcpts.py], followed by the properties of the layout engine.

    Conventions of the embedding.
    - Node names are Python strings; the keys of a [Graph] are either such a
      string (['start'], ['end'], a name unknown to [cnodes]) or the tuple of
      names of a common node.  Integer keys, which [__getitem__] turns into
      strings, do not occur.
    - Sizes and distances are Python floats in the source ([Cpt.size] is a
      [float], the offsets are numpy floats); they are taken here as exact
      rationals ([Q]), compared with [Qeq], and [/] is the true division.
      [Graph.add], where an infinity or NaN makes a difference, is given on
      floats as well ([Floats.add]); on numbers the two agree ([embed_add]).
    - [Cnodes] is a dict used as a map ([gmap]); [tuple(set(...))] is the list
      of elements of a [gset], an order that depends on the members only.
    - A [Graph] is a dict whose iteration order is observable
      ([self.values()], [set(self.keys())]).  The interpreter iterates in hash
      order, which the source does not fix; the embedding keeps an association
      list in insertion order and iterates the set [unknown] in that order.
      The lists [fedges] and [redges] are Python lists: their order is the
      order of insertion in the source as well.  Where two runs are compared,
      the statement is made for every order of the members in the tuples, of
      the nodes in the dict and of the iteration over [unknown]
      ([same_edges], [analyse_order]).
    - [Gnode] objects are shared and mutated in place; a node is identified by
      its [name], which is the key it is stored under, an edge holds the names
      of its two nodes, and every read goes through the dict.
    - The recursion of [traverse] is bounded by the interpreter's recursion
      limit; the functions take the number of nested calls still allowed.
    - The attributes [Gedge.stretched] and [Gnode.path] are written but never
      read, and are left out.  *)

From Stdlib Require Import QArith Lia Lqa.
From stdpp Require Import gmap strings list fin_maps sets.

Open Scope string_scope.

(** ** Exceptions and results *)

Inductive gkey :=
  | Name (s : string)
  | Tuple (t : list string).

#[global] Instance gkey_eq_dec : EqDecision gkey.
Proof. solve_decision. Defined.

(** The exceptions the layout code can end with.  [WrongNode] and [Unattached]
    are the two messages built from [self.name] and [repr(self)]; of the
    latter the embedding keeps the node names it lists. *)
Inductive exn :=
  | RecursionDepth
  | WrongNode (graph_name : string) (listed : list gkey)
  | Unattached (graph_name : string) (listed : list gkey)
  | WillNotFit
  | KeyError (k : gkey)
  | AttributeError
  | TypeError.

(** [Diverge] stands for a [while] loop that never leaves a cycle of
    [prev]/[next] pointers. *)
Inductive result (A : Type) :=
  | Ok (a : A)
  | Raise (e : exn)
  | Diverge.
Arguments Ok {A} a.
Arguments Raise {A} e.
Arguments Diverge {A}.

(** Sequencing: an exception or a divergence ends the computation. *)
Definition rbind {A B} (m : result A) (f : A -> result B) : result B :=
  match m with
  | Ok a => f a
  | Raise e => Raise e
  | Diverge => Diverge
  end.

Notation "x <- m ;; k" := (rbind m (fun x => k))
  (at level 100, m at next level, right associativity).

Definition or_raise {A} (e : exn) (o : option A) : result A :=
  match o with
  | Some a => Ok a
  | None => Raise e
  end.

(** ** class Cnodes(dict) *)

Module Cnodes.

(** [__init__]: every node starts in its own one-element tuple. *)
Definition init (nodes : list string) : gmap string (list string) :=
  foldl (fun c node => <[node := [node]]> c) ∅ nodes.

Definition getitem (c : gmap string (list string)) (n : string)
  : result (list string) :=
  or_raise (KeyError (Name n)) (c !! n).

(** [for n in ns: self[n] = newset] *)
Definition assign_all (newset : list string) (ns : list string)
    (c : gmap string (list string)) : gmap string (list string) :=
  foldl (fun c n => <[n := newset]> c) c ns.

(** [link(self, n1, n2)] *)
Definition link (c : gmap string (list string)) (n1 n2 : string)
  : result (gmap string (list string)) :=
  set1 <- getitem c n1 ;;
  set2 <- getitem c n2 ;;
  let newset := elements (list_to_set (set1 ++ set2) : gset string) in
  ns1 <- getitem c n1 ;;
  let c1 := assign_all newset ns1 c in
  ns2 <- getitem c1 n2 ;;
  Ok (assign_all newset ns2 c1).

(** A sequence of [link] calls, first to last. *)
Fixpoint links (c : gmap string (list string)) (l : list (string * string))
  : result (gmap string (list string)) :=
  match l with
  | [] => Ok c
  | (n1, n2) :: l' => c' <- link c n1 n2 ;; links c' l'
  end.

(** The members of the common node of [n], as a set. *)
Definition group (c : gmap string (list string)) (n : string)
  : option (gset string) :=
  list_to_set <$> c !! n.

End Cnodes.

(** ** class Gedge, class Gnode *)

Record Gedge := mkGedge {
  from_node : gkey;
  to_node : gkey;
  size : Q;
  stretch : bool
}.

Record Gnode := mkGnode {
  name : gkey;
  prev : option Gedge;
  next : option Gedge;
  dist : Q;
  known_dist : option Q;
  fedges : list Gedge;
  redges : list Gedge
}.

(** [Gnode.__init__] *)
Definition Gnode_init (n : gkey) : Gnode :=
  mkGnode n None None 0 None [] [].

Definition add_fedge (edge : Gedge) (nd : Gnode) : Gnode :=
  mkGnode (name nd) (prev nd) (next nd) (dist nd) (known_dist nd)
          (fedges nd ++ [edge]) (redges nd).

Definition add_redge (edge : Gedge) (nd : Gnode) : Gnode :=
  mkGnode (name nd) (prev nd) (next nd) (dist nd) (known_dist nd)
          (fedges nd) (redges nd ++ [edge]).

Definition set_dist (d : Q) (nd : Gnode) : Gnode :=
  mkGnode (name nd) (prev nd) (next nd) d (known_dist nd) (fedges nd) (redges nd).

Definition set_prev (e : option Gedge) (nd : Gnode) : Gnode :=
  mkGnode (name nd) e (next nd) (dist nd) (known_dist nd) (fedges nd) (redges nd).

Definition set_next (e : option Gedge) (nd : Gnode) : Gnode :=
  mkGnode (name nd) (prev nd) e (dist nd) (known_dist nd) (fedges nd) (redges nd).

Definition set_known_dist (d : option Q) (nd : Gnode) : Gnode :=
  mkGnode (name nd) (prev nd) (next nd) (dist nd) d (fedges nd) (redges nd).

(** ** The node store of a Graph: the dict itself *)

(** Raw dict lookup, [dict.__getitem__]. *)
Fixpoint lookup_key (k : gkey) (items : list (gkey * Gnode)) : option Gnode :=
  match items with
  | [] => None
  | (k', nd) :: rest => if decide (k = k') then Some nd else lookup_key k rest
  end.

(** Following a reference to a node object.  References held by edges always
    point to a node of the graph; the default is never reached there. *)
Definition deref (items : list (gkey * Gnode)) (k : gkey) : Gnode :=
  match lookup_key k items with
  | Some nd => nd
  | None => Gnode_init k
  end.

(** In-place mutation of the node object stored under [k]. *)
Fixpoint modify (k : gkey) (f : Gnode -> Gnode) (items : list (gkey * Gnode))
  : list (gkey * Gnode) :=
  match items with
  | [] => []
  | (k', nd) :: rest =>
      if decide (k = k') then (k', f nd) :: rest else (k', nd) :: modify k f rest
  end.

Definition keys (items : list (gkey * Gnode)) : list gkey := map fst items.

Definition contains (items : list (gkey * Gnode)) (k : gkey) : bool :=
  bool_decide (is_Some (lookup_key k items)).

(** [unknown.discard(n)] *)
Definition discard (n : gkey) (unknown : list gkey) : list gkey :=
  filter (fun k => k <> n) unknown.

(** ** class Graph(dict) *)

Record Graph := mkGraph {
  cnodes : gmap string (list string);
  gname : string;
  items : list (gkey * Gnode)
}.

(** [Graph.__init__(name, nodes)] *)
Definition Graph_init (nm : string) (nodes : list string) : Graph :=
  mkGraph (Cnodes.init nodes) nm [].

Definition with_items (g : Graph) (its : list (gkey * Gnode)) : Graph :=
  mkGraph (cnodes g) (gname g) its.

(** The key translation of [__getitem__]: a node name known to [cnodes]
    stands for its tuple. *)
Definition canon (c : gmap string (list string)) (k : gkey) : gkey :=
  match k with
  | Name s => match c !! s with
              | Some t => Tuple t
              | None => k
              end
  | Tuple _ => k
  end.

(** [__getitem__(key)], returning the key under which the node is stored. *)
Definition getitem (g : Graph) (k : gkey) : result gkey :=
  let k' := canon (cnodes g) k in
  if contains (items g) k' then Ok k' else Raise (KeyError k').

(** [Graph.link] *)
Definition link (g : Graph) (n1 n2 : string) : result Graph :=
  c <- Cnodes.link (cnodes g) n1 n2 ;;
  Ok (mkGraph c (gname g) (items g)).

(** [add_node(n)]: the dict after [if n not in self: self[n] = Gnode(n)].
    The node the method returns is [self[n]]; in [add] the key is a tuple or
    a name unknown to [cnodes], which [__getitem__] looks up as it is, so the
    node returned there is the one stored under [n]. *)
Definition add_node (n : gkey) (its : list (gkey * Gnode)) : list (gkey * Gnode) :=
  if contains its n then its else its ++ [(n, Gnode_init n)].

(** [add_edges(node1, node2, size, stretch)] *)
Definition add_edges (node1 node2 : gkey) (sz : Q) (st : bool)
    (its : list (gkey * Gnode)) : list (gkey * Gnode) :=
  let its1 := modify node1 (add_fedge (mkGedge node1 node2 sz st)) its in
  modify node2 (add_redge (mkGedge node2 node1 sz st)) its1.

(** [add(n1, n2, size, stretch)] *)
Definition add (g : Graph) (n1 n2 : string) (sz : Q) (st : bool) : Graph :=
  if Qeq_bool sz 0 then g
  else
    let '(n1, n2, sz) :=
      if Qlt_le_dec sz 0 then (n2, n1, (- sz)%Q) else (n1, n2, sz) in
    let k1 := canon (cnodes g) (Name n1) in
    let k2 := canon (cnodes g) (Name n2) in
    let its1 := add_node k1 (items g) in
    let its2 := add_node k2 its1 in
    with_items g (add_edges k1 k2 sz st its2).

Definition start : gkey := Name "start".
Definition end_ : gkey := Name "end".

(** The loop of [add_start_nodes] over the nodes present before the call;
    [s] and [e] are the nodes that [add_node] returned for ['start'] and
    ['end']. *)
Fixpoint add_start_loop (s e : gkey) (nodes : list gkey)
    (its : list (gkey * Gnode)) : list (gkey * Gnode) :=
  match nodes with
  | [] => its
  | k :: rest =>
      let its1 :=
        if bool_decide (redges (deref its k) = []) then add_edges s k 0 false its
        else its in
      let its2 :=
        if bool_decide (fedges (deref its1 k) = []) then add_edges k e 0 false its1
        else its1 in
      add_start_loop s e rest its2
  end.

(** [add_start_nodes()].  [add_node(n)] ends with [return self[n]], which
    goes through the key translation of [__getitem__]: for ['start'] and
    ['end'] the node returned is the one stored under that string only when
    no name of [cnodes] is that string. *)
Definition add_start_nodes (g : Graph) : result Graph :=
  if contains (items g) start then Ok g
  else
    let nodes := keys (items g) in
    let g1 := with_items g (add_node start (items g)) in
    s <- getitem g1 start ;;
    let g2 := with_items g (add_node end_ (items g1)) in
    e <- getitem g2 end_ ;;
    Ok (with_items g (add_start_loop s e nodes (items g2))).

(** The graph as [add_start_nodes()] leaves it. *)
Definition augmented (g : Graph) : Graph :=
  match add_start_nodes g with
  | Ok g' => g'
  | _ => g
  end.

(** ** Longest paths *)

(** The first loop of both path methods: [dist = -1], [prev = next = None]. *)
Definition reset_node (nd : Gnode) : Gnode :=
  mkGnode (name nd) None None (-1) (known_dist nd) (fedges nd) (redges nd).

Definition reset (its : list (gkey * Gnode)) : list (gkey * Gnode) :=
  map (fun p => (fst p, reset_node (snd p))) its.

(** The three assignments made when [dist > next_node.dist]. *)
Definition relax (node : gkey) (edge : Gedge) (d : Q) (its : list (gkey * Gnode))
  : list (gkey * Gnode) :=
  let its1 := modify (to_node edge) (set_dist d) its in
  let its2 := modify (to_node edge) (set_prev (Some edge)) its1 in
  modify node (set_next (Some edge)) its2.

(** The [for edge in edges] loop, which the two [traverse] functions of the
    source spell out in the same words; [rec] is the recursive call
    [traverse(next_node)].  [node.dist] is read again at every edge. *)
Fixpoint relax_loop (rec : gkey -> list (gkey * Gnode) -> result (list (gkey * Gnode)))
    (node : gkey) (edges : list Gedge) (its : list (gkey * Gnode))
  : result (list (gkey * Gnode)) :=
  match edges with
  | [] => Ok its
  | edge :: rest =>
      let next_node := to_node edge in
      let d := (dist (deref its node) + size edge)%Q in
      if Qlt_le_dec (dist (deref its next_node)) d then
        its' <- rec next_node (relax node edge d its) ;;
        relax_loop rec node rest its'
      else relax_loop rec node rest its
  end.

(** [traverse] of [longest_forward_path].  [depth] is the number of nested
    calls the interpreter still allows; one more raises the interpreter's
    [RuntimeError] (maximum recursion depth exceeded). *)
Fixpoint traverse (depth : nat) (node : gkey) (its : list (gkey * Gnode))
  : result (list (gkey * Gnode)) :=
  match depth with
  | O => Raise RecursionDepth
  | S depth' => relax_loop (traverse depth') node (fedges (deref its node)) its
  end.

(** [longest_forward_path(start)]: the [RuntimeError] of the traversal is
    caught and raised again with the graph's name. *)
Definition longest_forward_path (limit : nat) (g : Graph) (root : gkey)
  : result Graph :=
  let its := modify root (set_dist 0) (reset (items g)) in
  match traverse limit root its with
  | Ok its' => Ok (with_items g its')
  | Raise RecursionDepth => Raise (WrongNode (gname g) (keys (items g)))
  | Raise e => Raise e
  | Diverge => Diverge
  end.

(** [traverse] of [longest_path_to_known]. *)
Fixpoint traverse_known (forward : bool) (depth : nat) (node : gkey)
    (its : list (gkey * Gnode)) : result (list (gkey * Gnode)) :=
  match depth with
  | O => Raise RecursionDepth
  | S depth' =>
      match known_dist (deref its node) with
      | Some _ => Ok its
      | None =>
          relax_loop (traverse_known forward depth') node
            (if forward then fedges (deref its node) else redges (deref its node))
            its
      end
  end.

(** [longest_path_to_known(start, forward)]: nothing is caught here. *)
Definition longest_path_to_known (limit : nat) (g : Graph) (root : gkey)
    (forward : bool) : result Graph :=
  let its := modify root (set_dist 0) (reset (items g)) in
  its' <- traverse_known forward limit root its ;;
  Ok (with_items g its').

(** ** Graph.analyse *)

(** The walk from ['end'] back to ['start'] along [prev]. *)
Fixpoint walk_back (fuel : nat) (node : gkey) (its : list (gkey * Gnode))
    (unknown : list gkey) : result (list (gkey * Gnode) * list gkey) :=
  if decide (node = start) then Ok (its, unknown)
  else
    match fuel with
    | O => Diverge
    | S fuel' =>
        let unknown1 := discard node unknown in
        let its1 := modify node (fun nd => set_known_dist (Some (dist nd)) nd) its in
        match prev (deref its1 node) with
        | None => Raise AttributeError
        | Some e => walk_back fuel' (from_node e) its1 unknown1
        end
    end.

Definition fixed_fedge (unknown : list gkey) (edge : Gedge) : bool :=
  negb (stretch edge) && bool_decide (to_node edge ∉ unknown)
  && bool_decide (to_node edge <> end_).

Definition fixed_redge (unknown : list gkey) (edge : Gedge) : bool :=
  negb (stretch edge) && bool_decide (from_node edge ∉ unknown)
  && bool_decide (from_node edge <> start).

(** [assign_fixed(node, unknown)]: the mutated store and the returned flag. *)
Definition assign_fixed (node : gkey) (unknown : list gkey)
    (its : list (gkey * Gnode)) : list (gkey * Gnode) * bool :=
  match List.find (fixed_fedge unknown) (fedges (deref its node)) with
  | Some edge =>
      (modify node
         (set_known_dist (Some (dist (deref its (to_node edge)) - size edge)%Q)) its,
       true)
  | None =>
      match List.find (fixed_redge unknown) (redges (deref its node)) with
      | Some edge =>
          (modify node
             (set_known_dist (Some (dist (deref its (from_node edge)) + size edge)%Q))
             its,
           true)
      | None => (its, false)
      end
  end.

(** The [for n in unknown] loop of the fixed stage, up to its [break]; the flag
    is the value of [changes] when the loop is left. *)
Fixpoint fixed_pass (g : Graph) (todo unknown : list gkey)
    (its : list (gkey * Gnode))
  : result (list (gkey * Gnode) * list gkey * bool) :=
  match todo with
  | [] => Ok (its, unknown, false)
  | n :: rest =>
      node <- getitem (with_items g its) n ;;
      let '(its', changes) := assign_fixed node unknown its in
      if changes then Ok (its', discard n unknown, true)
      else fixed_pass g rest unknown its'
  end.

(** [while changes and unknown != set()]. *)
Fixpoint fixed_loop (fuel : nat) (g : Graph) (unknown : list gkey)
    (its : list (gkey * Gnode)) : result (list (gkey * Gnode) * list gkey) :=
  match unknown with
  | [] => Ok (its, unknown)
  | _ :: _ =>
      match fuel with
      | O => Diverge
      | S fuel' =>
          r <- fixed_pass g unknown unknown its ;;
          let '(its', unknown', changes) := r in
          if changes then fixed_loop fuel' g unknown' its' else Ok (its', unknown')
      end
  end.

(** The two [while x.next is not None] loops of the stretch stage. *)
Fixpoint follow_next (fuel : nat) (node : gkey) (its : list (gkey * Gnode))
    (stretches : nat) (d : Q) : result (gkey * nat * Q) :=
  match next (deref its node) with
  | None => Ok (node, stretches, d)
  | Some e =>
      match fuel with
      | O => Diverge
      | S fuel' =>
          follow_next fuel' (to_node e) its
            (if stretch e then S stretches else stretches) (d + size e)%Q
      end
  end.

(** Arithmetic on [known_dist], which may still be [None]. *)
Definition known (its : list (gkey * Gnode)) (k : gkey) : result Q :=
  or_raise TypeError (known_dist (deref its k)).

Definition Qnat (n : nat) : Q := inject_Z (Z.of_nat n).

(** One search of the stretch stage: [longest_path_to_known(node, forward)]
    and the walk along [next] that counts the stretchable edges and adds up
    the sizes; the node where the walk ends comes first. *)
Definition search (limit : nat) (g : Graph) (node : gkey) (forward : bool)
  : result (Graph * (gkey * nat * Q)) :=
  g1 <- longest_path_to_known limit g node forward ;;
  r <- follow_next (S (length (items g1))) node (items g1) 0 0 ;;
  Ok (g1, r).

(** The body of the [for n in unknown] loop of the stretch stage. *)
Definition stretch_node (limit : nat) (g : Graph) (n : gkey) : result Graph :=
  node <- getitem g n ;;
  f <- search limit g node true ;;
  let '(g1, (to_nd, fstretches, fdist)) := f in
  r <- search limit g1 node false ;;
  let '(g2, (from_nd, rstretches, rdist)) := r in
  let assign d := Ok (with_items g2 (modify node (set_known_dist (Some d)) (items g2))) in
  if decide (from_nd = start) then
    tk <- known (items g2) to_nd ;; assign (tk - fdist)%Q
  else if decide (to_nd = end_) then
    fk <- known (items g2) from_nd ;; assign (fk + rdist)%Q
  else
    tk <- known (items g2) to_nd ;;
    fk <- known (items g2) from_nd ;;
    let separation := (tk - fk)%Q in
    let extent := (fdist + rdist)%Q in
    if Qlt_le_dec separation extent then Raise WillNotFit
    else if Nat.eqb rstretches 0 then assign (fk + rdist)%Q
    else if Nat.eqb fstretches 0 then assign (tk - fdist)%Q
    else
      let stretch := ((separation - extent) / Qnat (fstretches + rstretches))%Q in
      assign (fk + rdist + stretch * Qnat rstretches)%Q.

Fixpoint stretch_loop (limit : nat) (g : Graph) (unknown : list gkey)
  : result Graph :=
  match unknown with
  | [] => Ok g
  | n :: rest => g' <- stretch_node limit g n ;; stretch_loop limit g' rest
  end.

(** The final [try] block: any [KeyError] becomes the unattached message. *)
Definition extract (g : Graph) : result (gmap string (option Q)) :=
  if bool_decide (map_Forall (fun _ node => is_Some (lookup_key (Tuple node) (items g)))
                             (cnodes g))
  then Ok ((fun node => known_dist (deref (items g) (Tuple node))) <$> cnodes g)
  else Raise (Unattached (gname g) (keys (items g))).

(** The three stages, each returning the mutated graph and [unknown]. *)
Definition critical_path (limit : nat) (g : Graph) (unknown : list gkey)
  : result (Graph * list gkey) :=
  s <- getitem g start ;;
  g1 <- longest_forward_path limit g s ;;
  e <- getitem g1 end_ ;;
  r <- walk_back (S (length (items g1))) e (items g1) unknown ;;
  Ok (with_items g1 r.1, r.2).

Definition fixed_propagation (g : Graph) (unknown : list gkey)
  : result (Graph * list gkey) :=
  r <- fixed_loop (length unknown) g unknown (items g) ;;
  Ok (with_items g r.1, r.2).

(** [analyse(stage)]: the graph as the call leaves it, and the returned value
    ([None] when the call stops at [stage]). *)
Definition analyse (limit : nat) (stage : option nat) (g : Graph)
  : result (Graph * option (gmap string (option Q) * option Q)) :=
  g0 <- add_start_nodes g ;;
  let unknown := discard end_ (discard start (keys (items g0))) in
  if bool_decide (unknown = []) then
    Ok (g0, Some ((fun _ => Some 0%Q) <$> cnodes g0, Some 0%Q))
  else
    r1 <- critical_path limit g0 unknown ;;
    if bool_decide (stage = Some 1%nat) then Ok (r1.1, None)
    else
      r2 <- fixed_propagation r1.1 r1.2 ;;
      if bool_decide (stage = Some 2%nat) then Ok (r2.1, None)
      else
        g3 <- stretch_loop limit r2.1 r2.2 ;;
        pos <- extract g3 ;;
        e <- getitem g3 end_ ;;
        Ok (g3, Some (pos, known_dist (deref (items g3) e))).

(** ** class Cpt: linking and placing ([lcapy/schemcpts.py]) *)

(** What [xlink], [ylink] and [place] read of a component: the names of its
    [dvnodes], its transformed coordinates along the two axes, its [size] and
    its [stretch] property. *)
Record Cpt := mkCpt {
  dvnodes : list string;
  xvals : list Q;
  yvals : list Q;
  cpt_size : Q;
  cpt_stretch : bool
}.

(** [np.argsort(vals)]: the indices of [vals] in ascending order of value. *)
Fixpoint insert_index (vals : list Q) (i : nat) (sorted : list nat) : list nat :=
  match sorted with
  | [] => [i]
  | j :: rest =>
      if Qlt_le_dec (nth i vals 0%Q) (nth j vals 0%Q) then i :: j :: rest
      else j :: insert_index vals i rest
  end.

Definition argsort (vals : list Q) : list nat :=
  foldl (fun sorted i => insert_index vals i sorted) [] (seq 0 (length vals)).

(** The positional arguments of a Python call. *)
Inductive pyarg :=
  | ArgCpt (c : Cpt)
  | ArgStr (s : string)
  | ArgNum (q : Q)
  | ArgBool (b : bool).

(** Calling the bound method [graphs.add]: the arguments are bound to the
    parameters [n1, n2, size, stretch]; another number of them is a
    [TypeError] before the body runs. *)
Definition call_add (g : Graph) (args : list pyarg) : result Graph :=
  match args with
  | [ArgStr n1; ArgStr n2; ArgNum sz; ArgBool st] => Ok (add g n1 n2 sz st)
  | _ => Raise TypeError
  end.

(** The arguments that follow [self] in the calls [graphs.add(self, n1.name,
    n2.name, value, self.stretch)] of [place], in loop order. *)
Fixpoint place_pairs (c : Cpt) (vals : list Q) (idx : list nat)
  : list (string * string * Q * bool) :=
  match idx with
  | m1 :: ((m2 :: _) as rest) =>
      (nth m1 (dvnodes c) "", nth m2 (dvnodes c) "",
       ((nth m2 vals 0 - nth m1 vals 0) * cpt_size c)%Q, cpt_stretch c)
      :: place_pairs c vals rest
  | _ => []
  end.

Definition place_calls (c : Cpt) (vals : list Q)
  : list (string * string * Q * bool) :=
  place_pairs c vals (rev (argsort vals)).

(** [place(self, graphs, vals)] *)
Definition place (c : Cpt) (graphs : Graph) (vals : list Q) : result Graph :=
  foldl (fun r call =>
           g <- r ;;
           let '(n1, n2, value, st) := call in
           call_add g [ArgCpt c; ArgStr n1; ArgStr n2; ArgNum value; ArgBool st])
        (Ok graphs) (place_calls c vals).

Definition xplace (c : Cpt) (graphs : Graph) : result Graph :=
  place c graphs (xvals c).

(** The edges [place] asks for, handed to [Graph.add] with the four arguments
    it declares. *)
Definition add_calls (g : Graph) (calls : list (string * string * Q * bool))
  : Graph :=
  foldl (fun g call => let '(n1, n2, value, st) := call in add g n1 n2 value st)
        g calls.

(** [xlink(self, graphs)]: the pairs of nodes with equal abscissa are linked. *)
Definition link_pairs (names : list string) (vals : list Q)
  : list (string * string) :=
  flat_map
    (fun m1 =>
       flat_map
         (fun m2 =>
            if Qeq_bool (nth m2 vals 0%Q) (nth m1 vals 0%Q)
            then [(nth m1 names "", nth m2 names "")] else [])
         (seq (S m1) (length names - S m1)))
    (seq 0 (length names)).

Definition xlink (c : Cpt) (graphs : Graph) : result Graph :=
  foldl (fun r p => g <- r ;; link g p.1 p.2) (Ok graphs)
        (link_pairs (dvnodes c) (xvals c)).

(** The horizontal half of [Schematic._positions_calculate]: all components
    are linked, then placed, then the graph is analysed. *)
Definition xgraph_build (nodes : list string) (elements : list Cpt)
  : result Graph :=
  g1 <- foldl (fun r elt => g <- r ;; xlink elt g)
              (Ok (Graph_init "horizontal" nodes)) elements ;;
  foldl (fun r elt => g <- r ;; xplace elt g) (Ok g1) elements.

Definition xpositions (limit : nat) (nodes : list string) (elements : list Cpt)
  : result (Graph * option (gmap string (option Q) * option Q)) :=
  g <- xgraph_build nodes elements ;;
  analyse limit None g.

(** ** Stored edge lengths *)

(** Every edge held by a node, forward or reverse, has a length [>= 0]. *)
Definition node_nonneg (p : gkey * Gnode) : Prop :=
  Forall (fun e => (0 <= size e)%Q) (fedges p.2) /\
  Forall (fun e => (0 <= size e)%Q) (redges p.2).

Definition edges_nonneg (its : list (gkey * Gnode)) : Prop :=
  Forall node_nonneg its.

(** ** Example graphs *)

(** Two one-port components drawn to the right, [a -- b] of size 1 and
    [b -- c] of size 2; [coords] is [((0, 0), (1, 0))] for both. *)
Definition R1 : Cpt := mkCpt ["a"; "b"] [0; 1]%Q [0; 0]%Q 1 true.
Definition R2 : Cpt := mkCpt ["b"; "c"] [0; 1]%Q [0; 0]%Q 2 true.

(** [a -> b] of length 5, [c -> b] and [d -> c] of length 1, none
    stretchable. *)
Definition rigid_chain : Graph :=
  add (add (add (Graph_init "horizontal" ["a"; "b"; "c"; "d"])
                "a" "b" 5 false) "c" "b" 1 false) "d" "c" 1 false.

(** The graph as [analyse(stage)] leaves it. *)
Definition stage_graph (limit stage : nat) (g : Graph) : Graph :=
  match analyse limit (Some stage) g with
  | Ok (g', _) => g'
  | _ => g
  end.

(** [A -> B] of length 5 and [A -> M] of length 1, not stretchable, and a
    stretchable [M -> B] of length 1. *)
Definition between_rigid : Graph :=
  add (add (add (Graph_init "horizontal" ["A"; "B"; "M"])
                "A" "B" 5 false) "A" "M" 1 false) "M" "B" 1 true.


(** ** The wording of the specification *)

(** The distance the specification gives to a group between two resolved
    bounds: [tk - fdist] when the backward side has no stretchable edge,
    [fk + rdist] when the forward side has none, else the even share. *)
Definition spec_stretch_distance (fk tk fdist rdist : Q)
    (fstretches rstretches : nat) : Q :=
  if Nat.eqb rstretches 0 then (tk - fdist)%Q
  else if Nat.eqb fstretches 0 then (fk + rdist)%Q
  else (fk + rdist
        + ((tk - fk) - (fdist + rdist)) / Qnat (fstretches + rstretches)
          * Qnat rstretches)%Q.

(** ** Common nodes as a partition *)

(** What every table built by [Cnodes.__init__] and [link] satisfies: a node
    is a member of its own tuple, the members of a tuple all hold that very
    tuple, and a tuple lists the elements of its set. *)
Record consistent (c : gmap string (list string)) : Prop := mkConsistent {
  cons_self : forall n t, c !! n = Some t -> n ∈ t;
  cons_share : forall n t m, c !! n = Some t -> m ∈ t -> c !! m = Some t;
  cons_canon : forall n t,
      c !! n = Some t -> t = elements (list_to_set t : gset string)
}.

(** Two nodes share a common node. *)
Definition same (c : gmap string (list string)) (x y : string) : Prop :=
  x = y \/ exists t, c !! x = Some t /\ c !! y = Some t.

(** The least equivalence that contains [B] and the pairs of [l]. *)
Inductive eqv (B : string -> string -> Prop) (l : list (string * string))
  : string -> string -> Prop :=
  | eqv_refl x : eqv B l x x
  | eqv_base x y : B x y -> eqv B l x y
  | eqv_pair x y : (x, y) ∈ l -> eqv B l x y
  | eqv_sym x y : eqv B l x y -> eqv B l y x
  | eqv_trans x y z : eqv B l x y -> eqv B l y z -> eqv B l x z.





(** ** What the traversals leave alone *)

(** Two states of the dict that differ at most in the working fields [dist],
    [prev] and [next] of their nodes. *)
Definition frame (s s' : list (gkey * Gnode)) : Prop :=
  keys s' = keys s /\
  forall k,
    known_dist (deref s' k) = known_dist (deref s k) /\
    fedges (deref s' k) = fedges (deref s k) /\
    redges (deref s' k) = redges (deref s k).

(** Every common node stored in the dict is still in [unknown] or has a
    resolved distance. *)
Definition tuples_resolved (its : list (gkey * Gnode)) (unknown : list gkey)
  : Prop :=
  forall t, Tuple t ∈ keys its ->
            Tuple t ∈ unknown \/ is_Some (known_dist (deref its (Tuple t))).

(** ** Paths, cycles and relaxed edges *)

(** Every forward edge points to a node of the dict. *)
Definition edges_closed (its : list (gkey * Gnode)) : Prop :=
  Forall (fun p => Forall (fun e => to_node e ∈ keys its) (fedges p.2)) its.

Definition closed_out (its : list (gkey * Gnode)) : Prop :=
  forall k e, e ∈ fedges (deref its k) -> to_node e ∈ keys its.

(** [path its x y len]: forward edges lead from [x] to [y], their sizes add
    up to [len]. *)
Inductive path (its : list (gkey * Gnode)) : gkey -> gkey -> Q -> Prop :=
  | path_nil k : path its k k 0
  | path_cons k e v len :
      e ∈ fedges (deref its k) -> path its (to_node e) v len ->
      path its k v (size e + len).

(** The edge [e] out of [k] is relaxed: its target is at least [size e]
    further than [k]. *)
Definition relaxed (its : list (gkey * Gnode)) (k : gkey) (e : Gedge) : Prop :=
  (dist (deref its k) + size e <= dist (deref its (to_node e)))%Q.

(** Relaxed, or, when [b] holds, not reached yet. *)
Definition settled (b : bool) (its : list (gkey * Gnode)) (k : gkey) (e : Gedge)
  : Prop :=
  (b = true /\ (dist (deref its k) < 0)%Q) \/ relaxed its k e.

(** What a call of [traverse] that returns guarantees: only working fields
    changed, the edges of the node it was called on are relaxed, and no edge
    that was settled has become unsettled. *)
Definition traverse_spec
    (rec : gkey -> list (gkey * Gnode) -> result (list (gkey * Gnode))) : Prop :=
  forall node s s',
    closed_out s -> rec node s = Ok s' ->
    frame s s' /\
    (forall e, e ∈ fedges (deref s node) -> relaxed s' node e) /\
    (forall b k e, e ∈ fedges (deref s k) -> settled b s k e -> settled b s' k e).



(** ** More of class Graph *)

(** The property [all_nodes]: [list(set(self.cnodes.values()))], the distinct
    common nodes. *)
Definition all_nodes (g : Graph) : list (list string) :=
  elements (list_to_set (map snd (map_to_list (cnodes g))) : gset (list string)).

(** ** The shape of a graph built by [add] *)

(** The edge that [add_edges] stores at the other end. *)
Definition reverse_edge (e : Gedge) : Gedge :=
  mkGedge (to_node e) (from_node e) (size e) (stretch e).

(** What [add_node] and [add_edges] keep true of the dict: no key twice, a
    node is stored under its name, the edges held by a node start at that node
    and end at a node of the dict, and an edge is among the forward edges of
    its source exactly when its reverse is among the reverse edges of its
    target. *)
Record graph_wf (its : list (gkey * Gnode)) : Prop := mkGraphWf {
  wf_nodup : NoDup (keys its);
  wf_name : forall k, name (deref its k) = k;
  wf_fedges : forall k e, e ∈ fedges (deref its k) ->
                          from_node e = k /\ to_node e ∈ keys its;
  wf_redges : forall k e, e ∈ redges (deref its k) ->
                          from_node e = k /\ to_node e ∈ keys its;
  wf_mirror : forall e, e ∈ fedges (deref its (from_node e)) <->
                        reverse_edge e ∈ redges (deref its (to_node e))
}.

(** ** Longest paths: what the working distance stands for *)

(** In the state [s] the node [k] has been reached from [root]: its working
    distance is the length of a path of the graph [its]. *)
Definition reached (its : list (gkey * Gnode)) (root : gkey)
    (s : list (gkey * Gnode)) (k : gkey) : Prop :=
  exists len, path its root k len /\ (dist (deref s k) == len)%Q.

(** Every node is either untouched, at [-1] and without [prev], or reached. *)
Definition sound (its : list (gkey * Gnode)) (root : gkey)
    (s : list (gkey * Gnode)) : Prop :=
  forall k, k ∈ keys s ->
    ((dist (deref s k) == -1)%Q /\ prev (deref s k) = None) \/
    reached its root s k.

(** ** class Node and the node tables of class Schematic *)

Module Sch.

(** A dict with string keys, in insertion order. *)
Fixpoint lookup {V} (k : string) (d : list (string * V)) : option V :=
  match d with
  | [] => None
  | (k', v) :: rest => if decide (k = k') then Some v else lookup k rest
  end.

(** In-place change of the value stored under [k]. *)
Fixpoint update {V} (k : string) (f : V -> V) (d : list (string * V))
  : list (string * V) :=
  match d with
  | [] => []
  | (k', v) :: rest =>
      if decide (k = k') then (k', f v) :: rest else (k', v) :: update k f rest
  end.

Definition dkeys {V} (d : list (string * V)) : list string := map fst d.

(** What [Node.append] and [Schematic.add] read of a component. *)
Record Elt := mkElt {
  elt_name : string;
  type : string;
  vnodes : list string
}.

(** The character ['_']. *)
Definition underscore : Ascii.ascii :=
  match "_" with
  | String c _ => c
  | EmptyString => Ascii.zero
  end.

(** [name.split('_')[0]] *)
Fixpoint first_part (s : string) : string :=
  match s with
  | EmptyString => EmptyString
  | String c rest =>
      if Ascii.eqb c underscore then EmptyString else String c (first_part rest)
  end.

(** [len(name.split('_')) == 1]: no underscore in the name. *)
Fixpoint one_part (s : string) : bool :=
  match s with
  | EmptyString => true
  | String c rest => negb (Ascii.eqb c underscore) && one_part rest
  end.

Record Node := mkNode {
  name : string;
  _port : bool;
  _count : nat;
  rootname : string;
  primary : bool;
  list_ : list Elt
}.

(** [Node.__init__]; [name[0]] is an [IndexError] on the empty name. *)
Definition Node_init (nm : string) : option Node :=
  match nm with
  | EmptyString => None
  | String c _ =>
      Some (mkNode nm false 0
                   (if negb (Ascii.eqb c underscore) then first_part nm else nm)
                   (one_part nm) [])
  end.

(** [Node.append] *)
Definition append (elt : Elt) (n : Node) : Node :=
  mkNode (name n)
         (if String.eqb (type elt) "P" then true else _port n)
         (if negb (String.eqb (type elt) "O") then S (_count n) else _count n)
         (rootname n) (primary n) (list_ n ++ [elt])%list.

Definition count (n : Node) : nat := _count n.

Definition port (n : Node) : bool := _port n || Nat.eqb (count n) 1.

(** The two node tables of a [Schematic] and its components. *)
Record Schematic := mkSchematic {
  elements : list (string * Elt);
  nodes : list (string * Node);
  snodes : list (string * list string)
}.

(** [Schematic.__init__] without a file. *)
Definition Schematic_init : Schematic := mkSchematic [] [] [].

(** [Schematic._node_add] *)
Definition _node_add (node : string) (elt : Elt) (s : Schematic)
  : option Schematic :=
  nodes1 ← (if decide (node ∈ dkeys (nodes s)) then Some (nodes s)
            else nd ← Node_init node; Some (nodes s ++ [(node, nd)])%list);
  let nodes2 := update node (append elt) nodes1 in
  nd ← lookup node nodes2;
  let vnode := rootname nd in
  let snodes1 :=
    if decide (vnode ∈ dkeys (snodes s)) then snodes s
    else (snodes s ++ [(vnode, [])])%list in
  l ← lookup vnode snodes1;
  let snodes2 :=
    if decide (node ∈ l) then snodes1
    else update vnode (fun l => (l ++ [node])%list) snodes1 in
  Some (mkSchematic (elements s) nodes2 snodes2).

(** [self.elements[cpt.name] = cpt] *)
Definition set_element (cpt : Elt) (d : list (string * Elt))
  : list (string * Elt) :=
  if decide (elt_name cpt ∈ dkeys d) then update (elt_name cpt) (fun _ => cpt) d
  else (d ++ [(elt_name cpt, cpt)])%list.

(** [Schematic.add], from the parsed component on. *)
Definition add_cpt (cpt : Elt) (s : Schematic) : option Schematic :=
  foldl (fun r node => s' ← r; _node_add node cpt s')
        (Some (mkSchematic (set_element cpt (elements s)) (nodes s) (snodes s)))
        (vnodes cpt).

(** The pairs [n1, n2] of [_make_wires1]: neighbours in the list. *)
Fixpoint wire_pairs (snode_list : list string) : list (string * string) :=
  match snode_list with
  | n1 :: ((n2 :: _) as rest) => (n1, n2) :: wire_pairs rest
  | _ => []
  end.

Section Wires.
Variable W : Type.
Variable parse : string -> W.

(** [Schematic._make_wires1] *)
Definition _make_wires1 (snode_list : list string) : list W :=
  map (fun p => parse ("W_ " +:+ p.1 +:+ " " +:+ p.2)) (wire_pairs snode_list).

(** [Schematic._make_wires] *)
Definition _make_wires (s : Schematic) : list W :=
  flat_map (fun p => _make_wires1 p.2) (snodes s).

End Wires.

End Sch.

(** What [_node_add] keeps true of the two node tables: a node is stored
    under its name with the root name of that name, it is listed under its
    root name, every list of [snodes] is non-empty and holds nodes of that
    root name, and the lists of [snodes] together hold each node once. *)
Record sch_inv (s : Sch.Schematic) : Prop := mkSchInv {
  inv_nodup_nodes : NoDup (Sch.dkeys (Sch.nodes s));
  inv_nodup_snodes : NoDup (Sch.dkeys (Sch.snodes s));
  inv_node : forall n nd,
      Sch.lookup n (Sch.nodes s) = Some nd ->
      Sch.name nd = n /\
      exists nd0, Sch.Node_init n = Some nd0 /\
                  Sch.rootname nd = Sch.rootname nd0 /\
                  Sch.primary nd = Sch.primary nd0;
  inv_listed : forall n nd,
      Sch.lookup n (Sch.nodes s) = Some nd ->
      exists l, Sch.lookup (Sch.rootname nd) (Sch.snodes s) = Some l /\ n ∈ l;
  inv_group : forall v l,
      Sch.lookup v (Sch.snodes s) = Some l ->
      l <> [] /\
      forall m, m ∈ l ->
                exists nd, Sch.lookup m (Sch.nodes s) = Some nd /\
                           Sch.rootname nd = v;
  inv_perm : Sch.dkeys (Sch.nodes s) ≡ₚ concat (map snd (Sch.snodes s))
}.

(** ** [Graph.add] on Python floats *)

(** A Python float: a number, an infinity or NaN.  [Graph.add] compares its
    [size] with 0 and negates it; both are exact on floats, and a comparison
    with NaN is false. *)
Inductive pyfloat :=
  | Num (q : Q)
  | Inf (positive : bool)
  | NaN.

Module Floats.

(** [x == 0] *)
Definition eq_zero (x : pyfloat) : bool :=
  match x with
  | Num q => Qeq_bool q 0
  | Inf _ => false
  | NaN => false
  end.

(** [x < 0] *)
Definition lt_zero (x : pyfloat) : bool :=
  match x with
  | Num q => if Qlt_le_dec q 0 then true else false
  | Inf positive => negb positive
  | NaN => false
  end.

(** [-x] *)
Definition neg (x : pyfloat) : pyfloat :=
  match x with
  | Num q => Num (- q)
  | Inf positive => Inf (negb positive)
  | NaN => NaN
  end.

(** [x >= 0] holds. *)
Definition nonneg (x : pyfloat) : Prop :=
  match x with
  | Num q => (0 <= q)%Q
  | Inf positive => positive = true
  | NaN => False
  end.

(** [x > 0] holds. *)
Definition positive (x : pyfloat) : Prop :=
  match x with
  | Num q => (0 < q)%Q
  | Inf positive => positive = true
  | NaN => False
  end.

Record Gedge := mkGedge {
  from_node : gkey;
  to_node : gkey;
  size : pyfloat;
  stretch : bool
}.

Record Gnode := mkGnode {
  name : gkey;
  prev : option Gedge;
  next : option Gedge;
  dist : pyfloat;
  known_dist : option pyfloat;
  fedges : list Gedge;
  redges : list Gedge
}.

(** [Gnode.__init__] *)
Definition Gnode_init (n : gkey) : Gnode :=
  mkGnode n None None (Num 0) None [] [].

Definition add_fedge (edge : Gedge) (nd : Gnode) : Gnode :=
  mkGnode (name nd) (prev nd) (next nd) (dist nd) (known_dist nd)
          (fedges nd ++ [edge]) (redges nd).

Definition add_redge (edge : Gedge) (nd : Gnode) : Gnode :=
  mkGnode (name nd) (prev nd) (next nd) (dist nd) (known_dist nd)
          (fedges nd) (redges nd ++ [edge]).

(** Raw dict lookup, [dict.__getitem__]. *)
Fixpoint lookup_key (k : gkey) (items : list (gkey * Gnode)) : option Gnode :=
  match items with
  | [] => None
  | (k', nd) :: rest => if decide (k = k') then Some nd else lookup_key k rest
  end.

(** Following a reference to a node object. *)
Definition deref (items : list (gkey * Gnode)) (k : gkey) : Gnode :=
  match lookup_key k items with
  | Some nd => nd
  | None => Gnode_init k
  end.

(** In-place mutation of the node object stored under [k]. *)
Fixpoint modify (k : gkey) (f : Gnode -> Gnode) (items : list (gkey * Gnode))
  : list (gkey * Gnode) :=
  match items with
  | [] => []
  | (k', nd) :: rest =>
      if decide (k = k') then (k', f nd) :: rest else (k', nd) :: modify k f rest
  end.

Definition keys (items : list (gkey * Gnode)) : list gkey := map fst items.

Definition contains (items : list (gkey * Gnode)) (k : gkey) : bool :=
  bool_decide (is_Some (lookup_key k items)).

Record Graph := mkGraph {
  cnodes : gmap string (list string);
  gname : string;
  items : list (gkey * Gnode)
}.

(** [Graph.__init__] *)
Definition Graph_init (nm : string) (nodes : list string) : Graph :=
  mkGraph (Cnodes.init nodes) nm [].

Definition with_items (g : Graph) (its : list (gkey * Gnode)) : Graph :=
  mkGraph (cnodes g) (gname g) its.

(** [add_node(n)] *)
Definition add_node (n : gkey) (its : list (gkey * Gnode)) : list (gkey * Gnode) :=
  if contains its n then its else its ++ [(n, Gnode_init n)].

(** [add_edges(node1, node2, size, stretch)] *)
Definition add_edges (node1 node2 : gkey) (sz : pyfloat) (st : bool)
    (its : list (gkey * Gnode)) : list (gkey * Gnode) :=
  let its1 := modify node1 (add_fedge (mkGedge node1 node2 sz st)) its in
  modify node2 (add_redge (mkGedge node2 node1 sz st)) its1.

(** [add(n1, n2, size, stretch)] *)
Definition add (g : Graph) (n1 n2 : string) (sz : pyfloat) (st : bool) : Graph :=
  if eq_zero sz then g
  else
    let '(n1, n2, sz) :=
      if lt_zero sz then (n2, n1, neg sz) else (n1, n2, sz) in
    let k1 := canon (cnodes g) (Name n1) in
    let k2 := canon (cnodes g) (Name n2) in
    let its1 := add_node k1 (items g) in
    let its2 := add_node k2 its1 in
    with_items g (add_edges k1 k2 sz st its2).

(** Every edge held by a node, forward or reverse, has a length [>= 0]. *)
Definition node_nonneg (p : gkey * Gnode) : Prop :=
  Forall (fun e => nonneg (size e)) (fedges p.2) /\
  Forall (fun e => nonneg (size e)) (redges p.2).

Definition edges_nonneg (its : list (gkey * Gnode)) : Prop :=
  Forall node_nonneg its.


End Floats.

(** The graph of the other sections, whose lengths are numbers, as a graph
    with float lengths. *)
Definition embed_edge (e : Gedge) : Floats.Gedge :=
  Floats.mkGedge (from_node e) (to_node e) (Num (size e)) (stretch e).

Definition embed_node (nd : Gnode) : Floats.Gnode :=
  Floats.mkGnode (name nd) (embed_edge <$> prev nd) (embed_edge <$> next nd)
                 (Num (dist nd)) (Num <$> known_dist nd)
                 (embed_edge <$> fedges nd) (embed_edge <$> redges nd).

Definition embed_items (its : list (gkey * Gnode)) : list (gkey * Floats.Gnode) :=
  (fun p => (p.1, embed_node p.2)) <$> its.

Definition embed (g : Graph) : Floats.Graph :=
  Floats.mkGraph (cnodes g) (gname g) (embed_items (items g)).

(** ** Runs that differ in order only *)

(** [analyse] with the iteration order of the set [unknown] written out:
    [ord] lists the members of [set(self.keys())] in the order in which the
    interpreter iterates over the set; a [discard] leaves the order of the
    other members as it is.  [analyse] is the case where that order is the
    order of the dict. *)
Definition analyse_order (ord : list gkey -> list gkey) (limit : nat)
    (stage : option nat) (g : Graph)
  : result (Graph * option (gmap string (option Q) * option Q)) :=
  g0 <- add_start_nodes g ;;
  let unknown := discard end_ (discard start (ord (keys (items g0)))) in
  if bool_decide (unknown = []) then
    Ok (g0, Some ((fun _ => Some 0%Q) <$> cnodes g0, Some 0%Q))
  else
    r1 <- critical_path limit g0 unknown ;;
    if bool_decide (stage = Some 1%nat) then Ok (r1.1, None)
    else
      r2 <- fixed_propagation r1.1 r1.2 ;;
      if bool_decide (stage = Some 2%nat) then Ok (r2.1, None)
      else
        g3 <- stretch_loop limit r2.1 r2.2 ;;
        pos <- extract g3 ;;
        e <- getitem g3 end_ ;;
        Ok (g3, Some (pos, known_dist (deref (items g3) e))).

(** The keys [k1] and [k2] are the keys of one name in the two tables: they
    stand for the same point or group of points, whatever the order of the
    members in the tuples. *)
Definition same_key (c1 c2 : gmap string (list string)) (k1 k2 : gkey) : Prop :=
  exists s, k1 = canon c1 (Name s) /\ k2 = canon c2 (Name s).

(** The two tables group the names in the same way: two names have one key in
    the first exactly when they have one key in the second. *)
Definition same_groups (c1 c2 : gmap string (list string)) : Prop :=
  forall s s', canon c1 (Name s) = canon c1 (Name s') <->
               canon c2 (Name s) = canon c2 (Name s').





(** Five rigid edges: [S -> K] and [K -> L] of length 10, [U -> V], [U -> K]
    and [V -> L] of length 1. *)
Definition hanging_pair : Graph :=
  add_calls (Graph_init "horizontal" ["S"; "K"; "L"; "U"; "V"])
            [("S", "K", 10%Q, false); ("K", "L", 10%Q, false);
             ("U", "V", 1%Q, false); ("U", "K", 1%Q, false);
             ("V", "L", 1%Q, false)].
(** * Properties *)

(** ** The node store *)

Section Store.
Implicit Types (k : gkey) (its : list (gkey * Gnode)) (f : Gnode -> Gnode).

Lemma lookup_key_modify k k' f its :
  lookup_key k (modify k' f its) =
  if decide (k = k') then f <$> lookup_key k its else lookup_key k its.
Proof.
  induction its as [|[k0 nd] its IH]; simpl.
  - by destruct (decide (k = k')).
  - destruct (decide (k' = k0)) as [->|Hne]; simpl.
    + by destruct (decide (k = k0)).
    + destruct (decide (k = k0)) as [->|Hk]; simpl; [|exact IH].
      by destruct (decide (k0 = k')); [congruence|].
Qed.

Lemma keys_modify k f its : keys (modify k f its) = keys its.
Proof.
  unfold keys. induction its as [|[k0 nd] its IH]; simpl; [done|].
  destruct (decide (k = k0)); simpl; [done | by rewrite IH].
Qed.

Lemma length_modify k f its : length (modify k f its) = length its.
Proof. rewrite <- (length_map fst), <- (length_map fst its). apply (f_equal length), keys_modify. Qed.

Lemma deref_modify_ne k k' f its :
  k <> k' -> deref (modify k' f its) k = deref its k.
Proof. intros Hne. unfold deref. rewrite lookup_key_modify. by rewrite decide_False. Qed.

Lemma deref_modify_eq k f its :
  is_Some (lookup_key k its) -> deref (modify k f its) k = f (deref its k).
Proof.
  intros [nd Hnd]. unfold deref. rewrite lookup_key_modify, decide_True by done.
  by rewrite Hnd.
Qed.

Lemma lookup_key_Some_elem k nd its :
  lookup_key k its = Some nd -> (k, nd) ∈ its.
Proof.
  induction its as [|[k0 nd0] its IH]; simpl; [done|].
  destruct (decide (k = k0)) as [->|Hne].
  - intros [= ->]. left.
  - intros H. right. auto.
Qed.

Lemma lookup_key_None_keys k its :
  lookup_key k its = None <-> k ∉ keys its.
Proof.
  unfold keys. induction its as [|[k0 nd0] its IH]; simpl.
  - split; [intros _; apply not_elem_of_nil | done].
  - destruct (decide (k = k0)) as [->|Hne].
    + split; [done | intros H; exfalso; apply H; left].
    + rewrite IH. rewrite not_elem_of_cons. tauto.
Qed.

Lemma lookup_key_app k its its' :
  lookup_key k (its ++ its') =
  match lookup_key k its with Some nd => Some nd | None => lookup_key k its' end.
Proof.
  induction its as [|[k0 nd0] its IH]; simpl; [done|].
  by destruct (decide (k = k0)).
Qed.

Lemma Forall_modify (P : gkey * Gnode -> Prop) k f its :
  (forall nd, P (k, nd) -> P (k, f nd)) ->
  Forall P its -> Forall P (modify k f its).
Proof.
  intros Hf. induction 1 as [|[k0 nd0] its HP Hits IH]; simpl; [constructor|].
  destruct (decide (k = k0)) as [->|Hne]; constructor; auto.
Qed.
End Store.

(** ** Stored edge lengths *)


Lemma add_node_nonneg n its : edges_nonneg its -> edges_nonneg (add_node n its).
Proof.
  intros H. unfold add_node. destruct (contains its n); [done|].
  apply Forall_app. split; [done|].
  repeat constructor.
Qed.

Lemma add_edges_nonneg k1 k2 sz st its :
  (0 <= sz)%Q -> edges_nonneg its -> edges_nonneg (add_edges k1 k2 sz st its).
Proof.
  intros Hsz H. unfold add_edges.
  apply Forall_modify.
  - intros nd [Hf Hr]. split; simpl in *; [done|].
    apply Forall_app. split; [done | by repeat constructor].
  - apply Forall_modify; [|done].
    intros nd [Hf Hr]. split; simpl in *; [|done].
    apply Forall_app. split; [done | by repeat constructor].
Qed.

Lemma add_start_loop_nonneg s e nodes its :
  edges_nonneg its -> edges_nonneg (add_start_loop s e nodes its).
Proof.
  revert its. induction nodes as [|k nodes IH]; intros its H; simpl; [done|].
  apply IH.
  repeat case_bool_decide; repeat apply add_edges_nonneg; try done.
Qed.

Lemma add_start_nodes_Ok g g' :
  add_start_nodes g = Ok g' ->
  cnodes g' = cnodes g /\ gname g' = gname g /\
  (g' = g \/
   exists s e, items g' = add_start_loop s e (keys (items g))
                           (add_node end_ (add_node start (items g)))).
Proof.
  unfold add_start_nodes. destruct (contains (items g) start).
  - intros [= <-]. eauto.
  - destruct (getitem _ start) as [s| |]; cbn [rbind]; [|done..].
    destruct (getitem _ end_) as [e| |]; cbn [rbind]; [|done..].
    intros [= <-]. simpl. eauto 6.
Qed.

Lemma add_start_nodes_nonneg g g' :
  add_start_nodes g = Ok g' -> edges_nonneg (items g) -> edges_nonneg (items g').
Proof.
  intros H Hg. apply add_start_nodes_Ok in H as (_ & _ & [->|(s & e & ->)]); [done|].
  by apply add_start_loop_nonneg, add_node_nonneg, add_node_nonneg.
Qed.


Lemma Graph_init_nonneg nm nodes : edges_nonneg (items (Graph_init nm nodes)).
Proof. constructor. Qed.

Lemma link_items g n1 n2 g' : link g n1 n2 = Ok g' -> items g' = items g.
Proof.
  unfold link. destruct (Cnodes.link (cnodes g) n1 n2); simpl; [|done..].
  by intros [= <-].
Qed.

Lemma add_nonneg g n1 n2 sz st :
  edges_nonneg (items g) -> edges_nonneg (items (add g n1 n2 sz st)).
Proof.
  intros Hg. unfold add. destruct (Qeq_bool sz 0); [done|].
  destruct (Qlt_le_dec sz 0) as [Hlt|Hle]; simpl;
    apply add_edges_nonneg; try (by apply add_node_nonneg, add_node_nonneg).
  - apply (Qopp_lt_compat sz 0) in Hlt. by apply Qlt_le_weak.
  - done.
Qed.

(** ** A graph without edges *)

(** On a graph to which no edge was ever added, and none of whose node names
    is ['start'] or ['end'], [analyse] returns the position [0] for every
    node name of [cnodes] and the total extent [0], whatever the recursion
    limit and the [stage] argument. *)
Lemma analyse_no_edges (limit : nat) (stage : option nat)
    (c : gmap string (list string)) (nm : string) :
  c !! "start" = None -> c !! "end" = None ->
  exists g' pos,
    analyse limit stage (mkGraph c nm []) = Ok (g', Some (pos, Some 0%Q)) /\
    (forall n, is_Some (c !! n) -> pos !! n = Some (Some 0%Q)) /\
    (forall n, c !! n = None -> pos !! n = None).
Proof.
  intros Hs He.
  unfold analyse, add_start_nodes, getitem. simpl. rewrite Hs, He. simpl.
  eexists _, _. split; [reflexivity|]. simpl.
  split; intros n Hn; rewrite lookup_fmap.
  - destruct Hn as [t ->]. done.
  - by rewrite Hn.
Qed.

(** C10.  With a node named ['start'] the call does not return the zero
    positions: [add_node('start')] stores the synthetic node under the string
    and then returns [self['start']], which [__getitem__] translates to the
    tuple of the node of that name; no node is stored under the tuple, and
    [analyse] ends in a plain [KeyError]. *)
Theorem analyse_no_edges_start_named (limit : nat) (stage : option nat) :
  let g := Graph_init "vertical" ["start"; "b"] in
  items g = [] /\
  cnodes g !! "start" = Some ["start"] /\
  analyse limit stage g = Raise (KeyError (Tuple ["start"])).
Proof. repeat split; vm_compute; reflexivity. Qed.

(** ** Two components in series *)


(** The edge pass asks for [add('b', 'a', -1, True)] and
    [add('c', 'b', -2, True)]. *)
Lemma series_place_calls :
  place_calls R1 (xvals R1) = [("b", "a", ((0 - 1) * 1)%Q, true)] /\
  place_calls R2 (xvals R2) = [("c", "b", ((0 - 1) * 2)%Q, true)].
Proof. split; reflexivity. Qed.

(** With the four arguments [Graph.add] declares, these edges resolve to
    [a = 0], [b = 1], [c = 3] and a total extent of [3], for every recursion
    limit that allows five nested calls of [traverse]. *)
Lemma series_graph_distances (limit : nat) :
  let g := add_calls (add_calls (Graph_init "horizontal" ["a"; "b"; "c"])
                                (place_calls R1 (xvals R1)))
                     (place_calls R2 (xvals R2)) in
  exists g' pos,
    analyse (5 + limit) None g = Ok (g', Some (pos, Some 3%Q)) /\
    pos !! "a" = Some (Some 0%Q) /\
    pos !! "b" = Some (Some 1%Q) /\
    pos !! "c" = Some (Some 3%Q).
Proof.
  eexists _, _. split; [vm_compute; reflexivity|].
  repeat split; vm_compute; reflexivity.
Qed.

(** C2. For the two components in series the layout does not produce
    [a = 0], [b = 1], [c = 3]: [place] hands five arguments to [Graph.add],
    which declares four, and the horizontal pass ends in a [TypeError] before
    an edge is stored. *)
Theorem series_place_type_error (limit : nat) :
  xpositions limit ["a"; "b"; "c"] [R1; R2] = Raise TypeError.
Proof. reflexivity. Qed.

(** ** A rigid chain hanging off the longest path *)


(** C1. On [rigid_chain] the groups [c] and [d] are both resolved by the fixed
    stage, [c] at [4] and [d] at [0]: the non-stretchable edge [d -> c] of
    length 1 joins two resolved groups whose distances differ by 4.  The same
    values are in place when [analyse] stops after the fixed stage. *)
Theorem rigid_chain_not_exact (limit : nat) :
  let e := mkGedge (Tuple ["d"]) (Tuple ["c"]) 1 false in
  (exists g' pos dmax,
     analyse (5 + limit) None rigid_chain = Ok (g', Some (pos, dmax)) /\
     e ∈ fedges (deref (items g') (Tuple ["d"])) /\
     pos !! "d" = Some (Some 0%Q) /\
     pos !! "c" = Some (Some 4%Q)) /\
  (exists g',
     analyse (5 + limit) (Some 2%nat) rigid_chain = Ok (g', None) /\
     known_dist (deref (items g') (Tuple ["d"])) = Some 0%Q /\
     known_dist (deref (items g') (Tuple ["c"])) = Some 4%Q) /\
  ~ (4 - 0 == size e)%Q.
Proof.
  split; [|split].
  - eexists _, _, _. split; [vm_compute; reflexivity|].
    split; [vm_compute; left | split; vm_compute; reflexivity].
  - eexists. split; [vm_compute; reflexivity|].
    split; vm_compute; reflexivity.
  - vm_compute. discriminate.
Qed.

(** ** The traversals keep the dict of nodes *)

Lemma is_Some_lookup_key k (its : list (gkey * Gnode)) :
  is_Some (lookup_key k its) <-> k ∈ keys its.
Proof.
  destruct (lookup_key k its) eqn:H.
  - split; [intros _|eauto].
    destruct (decide (k ∈ keys its)) as [|Hn]; [done|].
    apply lookup_key_None_keys in Hn. congruence.
  - split; [intros [? ?]; done|].
    intros Hin. by apply lookup_key_None_keys in H.
Qed.

Lemma keys_reset its : keys (reset its) = keys its.
Proof. unfold keys, reset. rewrite map_map. by apply map_ext. Qed.

Lemma keys_relax node e d its : keys (relax node e d its) = keys its.
Proof. unfold relax. by rewrite !keys_modify. Qed.

Lemma relax_loop_keys rec node edges its its' :
  (forall k s s', rec k s = Ok s' -> keys s' = keys s) ->
  relax_loop rec node edges its = Ok its' -> keys its' = keys its.
Proof.
  intros Hrec. revert its. induction edges as [|e rest IH]; intros its; simpl.
  - by intros [= <-].
  - destruct (Qlt_le_dec _ _); [|by apply IH].
    destruct (rec _ _) as [s| |] eqn:Hs; simpl; [|done..].
    intros H. apply IH in H. apply Hrec in Hs.
    by rewrite H, Hs, keys_relax.
Qed.

Lemma traverse_keys depth node its its' :
  traverse depth node its = Ok its' -> keys its' = keys its.
Proof.
  revert node its its'. induction depth as [|depth IH]; intros node its its'; simpl;
    [done|].
  apply relax_loop_keys. exact IH.
Qed.

Lemma traverse_known_keys forward depth node its its' :
  traverse_known forward depth node its = Ok its' -> keys its' = keys its.
Proof.
  revert node its its'. induction depth as [|depth IH]; intros node its its'; simpl;
    [done|].
  destruct (known_dist _); [by intros [= <-]|].
  apply relax_loop_keys. exact IH.
Qed.

Lemma longest_path_to_known_keys limit g root forward g' :
  longest_path_to_known limit g root forward = Ok g' ->
  keys (items g') = keys (items g) /\ cnodes g' = cnodes g /\ gname g' = gname g.
Proof.
  unfold longest_path_to_known.
  destruct (traverse_known _ _ _ _) as [s| |] eqn:Hs; simpl; [|done..].
  intros [= <-]. simpl. apply traverse_known_keys in Hs.
  by rewrite Hs, keys_modify, keys_reset.
Qed.

Lemma search_keys limit g node forward g' r :
  search limit g node forward = Ok (g', r) ->
  keys (items g') = keys (items g) /\ cnodes g' = cnodes g /\ gname g' = gname g.
Proof.
  unfold search.
  destruct (longest_path_to_known _ _ _ _) as [g1| |] eqn:Hg1; cbn [rbind]; [|done..].
  destruct (follow_next _ _ _ _ _) as [r1| |]; cbn [rbind]; [|done..].
  intros [= <- _]. exact (longest_path_to_known_keys _ _ _ _ _ Hg1).
Qed.

Lemma getitem_Ok g k node :
  getitem g k = Ok node -> node = canon (cnodes g) k /\ node ∈ keys (items g).
Proof.
  unfold getitem, contains. case_bool_decide as H; [|done].
  intros [= <-]. split; [done|]. by apply is_Some_lookup_key.
Qed.

(** ** The stretch stage: one node between two resolved bounds *)

Section StretchNode.
Variables (limit : nat) (g g1 g2 : Graph) (n node to_nd from_nd : gkey).
Variables (fstretches rstretches : nat) (fdist rdist tk fk : Q).

(** [node] is the node stored for [n]; the forward search ends at [to_nd],
    the backward search at [from_nd], neither is synthetic, and both have a
    resolved distance, [tk] and [fk]. *)
Hypothesis Hnode : getitem g n = Ok node.
Hypothesis Hfwd : search limit g node true = Ok (g1, (to_nd, fstretches, fdist)).
Hypothesis Hbwd : search limit g1 node false = Ok (g2, (from_nd, rstretches, rdist)).
Hypothesis Hfrom : from_nd <> start.
Hypothesis Hto : to_nd <> end_.
Hypothesis Htk : known_dist (deref (items g2) to_nd) = Some tk.
Hypothesis Hfk : known_dist (deref (items g2) from_nd) = Some fk.

Lemma stretch_node_present : is_Some (lookup_key node (items g2)).
Proof.
  apply is_Some_lookup_key.
  destruct (search_keys _ _ _ _ _ _ Hbwd) as [-> _].
  destruct (search_keys _ _ _ _ _ _ Hfwd) as [-> _].
  by apply getitem_Ok in Hnode as [_ ?].
Qed.


(** C6, as amended.  When the extent fits, the node is resolved at
    [fk + rdist] if the backward side crossed no stretchable edge, else at
    [tk - fdist] if the forward side crossed none, else at
    [fk + rdist + slack * rstretches] with
    [slack = (separation - extent) / (fstretches + rstretches)]. *)
Theorem stretch_node_distance :
  (fdist + rdist <= tk - fk)%Q ->
  exists g',
    stretch_node limit g n = Ok g' /\
    known_dist (deref (items g') node) =
    Some (if Nat.eqb rstretches 0 then (fk + rdist)%Q
          else if Nat.eqb fstretches 0 then (tk - fdist)%Q
          else (fk + rdist
                + ((tk - fk) - (fdist + rdist)) / Qnat (fstretches + rstretches)
                  * Qnat rstretches)%Q).
Proof.
  intros Hle. unfold stretch_node. rewrite Hnode. simpl. rewrite Hfwd. simpl.
  rewrite Hbwd. simpl.
  rewrite decide_False by done. rewrite decide_False by done.
  unfold known. rewrite Htk, Hfk. simpl.
  destruct (Qlt_le_dec _ _) as [Hlt|_];
    [exfalso; by apply (Qlt_not_le _ _ Hlt)|].
  pose proof stretch_node_present as Hp.
  destruct (Nat.eqb rstretches 0); [|destruct (Nat.eqb fstretches 0)];
    (eexists; split; [reflexivity|]); simpl;
    by rewrite (deref_modify_eq _ _ _ Hp).
Qed.
End StretchNode.


Lemma stretch_node_distance_witness :
  let g := stage_graph 10 2 between_rigid in
  let M := Tuple ["M"] in
  exists g1 g2,
    search 10 g M true = Ok (g1, (Tuple ["B"], 1%nat, 1%Q)) /\
    search 10 g1 M false = Ok (g2, (Tuple ["A"], 0%nat, 1%Q)) /\
    known_dist (deref (items g2) (Tuple ["B"])) = Some 5%Q /\
    known_dist (deref (items g2) (Tuple ["A"])) = Some 0%Q /\
    exists g',
      stretch_node 10 g M = Ok g' /\
      known_dist (deref (items g') M) = Some (0 + 1)%Q.
Proof.
  eexists _, _.
  assert (H1 : getitem (stage_graph 10 2 between_rigid) (Tuple ["M"])
               = Ok (Tuple ["M"])) by (vm_compute; reflexivity).
  split; [vm_compute; reflexivity|].
  split; [vm_compute; reflexivity|].
  split; [vm_compute; reflexivity|].
  split; [vm_compute; reflexivity|].
  eapply (stretch_node_distance 10 _ _ _ _ _ (Tuple ["B"]) (Tuple ["A"])
            1 0 1 1 5 0 H1);
    [vm_compute; reflexivity | vm_compute; reflexivity | discriminate | discriminate
    | vm_compute; reflexivity | vm_compute; reflexivity | vm_compute; discriminate].
Defined.

(** C6, as stated, fails on [between_rigid].  After the fixed stage the
    group [M] lies between [A], resolved at 0, and [B], resolved at 5; the
    backward side is the rigid edge [A -> M], the forward side the stretchable
    edge [M -> B], and the extent 2 fits the separation 5.  [analyse] puts [M]
    at [0 + 1], where the specification's wording gives [5 - 1]. *)
Lemma stretch_distance_not_as_stated :
  let g := stage_graph 10 2 between_rigid in
  let M := Tuple ["M"] in
  exists g1 g2 g' d,
    search 10 g M true = Ok (g1, (Tuple ["B"], 1%nat, 1%Q)) /\
    search 10 g1 M false = Ok (g2, (Tuple ["A"], 0%nat, 1%Q)) /\
    known_dist (deref (items g2) (Tuple ["B"])) = Some 5%Q /\
    known_dist (deref (items g2) (Tuple ["A"])) = Some 0%Q /\
    stretch_node 10 g M = Ok g' /\
    known_dist (deref (items g') M) = Some d /\
    (d == 1)%Q /\
    (spec_stretch_distance 0 5 1 1 1 0 == 4)%Q /\
    ~ (d == spec_stretch_distance 0 5 1 1 1 0)%Q.
Proof.
  eexists _, _, _, _.
  split; [vm_compute; reflexivity|].
  split; [vm_compute; reflexivity|].
  split; [vm_compute; reflexivity|].
  split; [vm_compute; reflexivity|].
  split; [vm_compute; reflexivity|].
  split; [vm_compute; reflexivity|].
  split; [reflexivity|].
  split; [reflexivity|].
  vm_compute. discriminate.
Qed.


(** ** Cnodes: the table of common nodes *)

Lemma assign_all_lookup newset ns (c : gmap string (list string)) x :
  Cnodes.assign_all newset ns c !! x =
  if decide (x ∈ ns) then Some newset else c !! x.
Proof.
  unfold Cnodes.assign_all. revert c.
  induction ns as [|n ns IH]; intros c; cbn [foldl].
  - rewrite decide_False; [done | apply not_elem_of_nil].
  - rewrite IH. destruct (decide (x ∈ ns)) as [Hin|Hin].
    + rewrite decide_True; [done | by right].
    + destruct (decide (x = n)) as [->|Hne].
      * rewrite decide_True by left. apply lookup_insert_eq.
      * rewrite decide_False by (rewrite elem_of_cons; tauto).
        by apply lookup_insert_ne.
Qed.

Lemma init_fold_lookup nodes (c : gmap string (list string)) x :
  foldl (fun c node => <[node := [node]]> c) c nodes !! x =
  if decide (x ∈ nodes) then Some [x] else c !! x.
Proof.
  revert c. induction nodes as [|n nodes IH]; intros c; cbn [foldl].
  - rewrite decide_False; [done | apply not_elem_of_nil].
  - rewrite IH. destruct (decide (x ∈ nodes)) as [Hin|Hin].
    + rewrite decide_True; [done | by right].
    + destruct (decide (x = n)) as [->|Hne].
      * rewrite decide_True by left. apply lookup_insert_eq.
      * rewrite decide_False by (rewrite elem_of_cons; tauto).
        by apply lookup_insert_ne.
Qed.

Lemma init_lookup nodes x :
  Cnodes.init nodes !! x = if decide (x ∈ nodes) then Some [x] else None.
Proof. unfold Cnodes.init. by rewrite init_fold_lookup, lookup_empty. Qed.

Lemma init_consistent nodes : consistent (Cnodes.init nodes).
Proof.
  split.
  - intros n t. rewrite init_lookup. case_decide; [|done]. intros [= <-]. left.
  - intros n t m. rewrite init_lookup. case_decide; [|done]. intros [= <-] Hm.
    apply list_elem_of_singleton in Hm as ->.
    rewrite init_lookup. by rewrite decide_True.
  - intros n t. rewrite init_lookup. case_decide; [|done]. intros [= <-].
    cbn [list_to_set foldr]. rewrite (right_id_L ∅ (∪)). by rewrite elements_singleton.
Qed.

Lemma elem_of_newset (t1 t2 : list string) x :
  x ∈ elements (list_to_set (t1 ++ t2) : gset string) <-> x ∈ t1 \/ x ∈ t2.
Proof. rewrite elem_of_elements, elem_of_list_to_set, elem_of_app. done. Qed.

(** What [link] does to a consistent table: the members of the two tuples get
    the merged tuple, every other entry stays. *)
Lemma link_lookup c a b ta tb :
  consistent c -> c !! a = Some ta -> c !! b = Some tb ->
  exists c',
    Cnodes.link c a b = Ok c' /\
    forall x,
      c' !! x =
      if decide (x ∈ ta \/ x ∈ tb)
      then Some (elements (list_to_set (ta ++ tb) : gset string))
      else c !! x.
Proof.
  intros Hc Ha Hb. unfold Cnodes.link, Cnodes.getitem.
  rewrite Ha, Hb. simpl.
  set (newset := elements (list_to_set (ta ++ tb) : gset string)).
  rewrite assign_all_lookup.
  destruct (decide (b ∈ ta)) as [Hin|Hin]; simpl.
  - pose proof (cons_share c Hc a ta b Ha Hin) as Hb'.
    assert (tb = ta) as -> by congruence.
    eexists; split; [done|]. intros x. rewrite !assign_all_lookup.
    destruct (decide (x ∈ ta \/ x ∈ ta)) as [Hx|Hx].
    + destruct (decide (x ∈ newset)); [done|]. rewrite decide_True; [done|tauto].
    + rewrite decide_False.
      * rewrite decide_False; [done|tauto].
      * unfold newset. rewrite elem_of_newset. done.
  - rewrite Hb. simpl.
    eexists; split; [done|]. intros x. rewrite !assign_all_lookup.
    destruct (decide (x ∈ ta \/ x ∈ tb)) as [Hx|Hx].
    + destruct (decide (x ∈ tb)); [done|]. rewrite decide_True; [done|tauto].
    + rewrite !decide_False; [done|tauto..].
Qed.

Lemma link_consistent c a b c' :
  consistent c -> Cnodes.link c a b = Ok c' -> consistent c'.
Proof.
  intros Hc Hl.
  destruct (c !! a) as [ta|] eqn:Ha;
    [|unfold Cnodes.link, Cnodes.getitem in Hl; by rewrite Ha in Hl].
  destruct (c !! b) as [tb|] eqn:Hb;
    [|unfold Cnodes.link, Cnodes.getitem in Hl; by rewrite Ha, Hb in Hl].
  destruct (link_lookup c a b ta tb Hc Ha Hb) as (c2 & Hl2 & Hlook).
  assert (c2 = c') as -> by congruence.
  assert (Hout : forall n t m, ~ (n ∈ ta \/ n ∈ tb) -> c !! n = Some t -> m ∈ t ->
                               ~ (m ∈ ta \/ m ∈ tb)).
  { intros n t m Hn Hnt Hm [Hma|Hmb]; apply Hn.
    - pose proof (cons_share c Hc a ta m Ha Hma).
      pose proof (cons_share c Hc n t m Hnt Hm).
      assert (t = ta) as -> by congruence.
      left. by eapply cons_self.
    - pose proof (cons_share c Hc b tb m Hb Hmb).
      pose proof (cons_share c Hc n t m Hnt Hm).
      assert (t = tb) as -> by congruence.
      right. by eapply cons_self. }
  split.
  - intros n t. rewrite Hlook. case_decide as Hn.
    + intros [= <-]. by apply elem_of_newset.
    + by apply cons_self.
  - intros n t m. rewrite !Hlook. case_decide as Hn.
    + intros [= <-] Hm. apply elem_of_newset in Hm. by rewrite decide_True.
    + intros Hnt Hm. rewrite decide_False by eauto. by eapply cons_share.
  - intros n t. rewrite Hlook. case_decide as Hn.
    + intros [= <-]. by rewrite list_to_set_elements_L.
    + by apply cons_canon.
Qed.

Lemma links_consistent l c c' :
  consistent c -> Cnodes.links c l = Ok c' -> consistent c'.
Proof.
  revert c. induction l as [|[a b] l IH]; intros c Hc; simpl.
  - by intros [= <-].
  - destruct (Cnodes.link c a b) as [c1| |] eqn:Hl; simpl; [|done..].
    apply IH. by eapply link_consistent.
Qed.

Lemma link_dom c a b c' x :
  consistent c -> Cnodes.link c a b = Ok c' ->
  is_Some (c' !! x) <-> is_Some (c !! x).
Proof.
  intros Hc Hl.
  destruct (c !! a) as [ta|] eqn:Ha;
    [|unfold Cnodes.link, Cnodes.getitem in Hl; by rewrite Ha in Hl].
  destruct (c !! b) as [tb|] eqn:Hb;
    [|unfold Cnodes.link, Cnodes.getitem in Hl; by rewrite Ha, Hb in Hl].
  destruct (link_lookup c a b ta tb Hc Ha Hb) as (c2 & Hl2 & Hlook).
  assert (c2 = c') as -> by congruence.
  rewrite Hlook. case_decide as Hx; [|done].
  split; [intros _|eauto].
  destruct Hx as [Hx|Hx]; [exists ta | exists tb]; by eapply cons_share.
Qed.

(** [same c] is an equivalence; [link] adds one pair to it. *)
Lemma same_sym c x y : same c x y -> same c y x.
Proof. intros [->|(t & Hx & Hy)]; [by left | right; eauto]. Qed.

Lemma same_trans c x y z : same c x y -> same c y z -> same c x z.
Proof.
  intros [->|(t & Hx & Hy)]; [done|].
  intros [<-|(t' & Hy' & Hz)]; [right; eauto|].
  right. exists t. split; [done | congruence].
Qed.

Lemma same_member c n t y :
  consistent c -> c !! n = Some t -> y ∈ t <-> same c n y.
Proof.
  intros Hc Hn. split.
  - intros Hy. right. exists t. split; [done | by eapply cons_share].
  - intros [<-|(t' & Hn' & Hy)]; [by eapply cons_self|].
    assert (t' = t) as -> by congruence. by eapply cons_self.
Qed.

Lemma eqv_closed B l B' l' x y :
  (forall u v, B u v -> eqv B' l' u v) ->
  (forall u v, (u, v) ∈ l -> eqv B' l' u v) ->
  eqv B l x y -> eqv B' l' x y.
Proof.
  intros HB Hl. induction 1 as [x|x y H|x y H|x y _ IH|x y z _ IH1 _ IH2].
  - apply eqv_refl.
  - by apply HB.
  - by apply Hl.
  - by apply eqv_sym.
  - by eapply eqv_trans.
Qed.

Lemma eqv_nil c x y : eqv (same c) [] x y <-> same c x y.
Proof.
  split; [|apply eqv_base].
  induction 1 as [x|x y H|x y H|x y _ IH|x y z _ IH1 _ IH2].
  - by left.
  - done.
  - by apply elem_of_nil in H.
  - by apply same_sym.
  - by eapply same_trans.
Qed.

Lemma link_same c a b c' x y :
  consistent c -> Cnodes.link c a b = Ok c' ->
  same c' x y <-> eqv (same c) [(a, b)] x y.
Proof.
  intros Hc Hl.
  destruct (c !! a) as [ta|] eqn:Ha;
    [|unfold Cnodes.link, Cnodes.getitem in Hl; by rewrite Ha in Hl].
  destruct (c !! b) as [tb|] eqn:Hb;
    [|unfold Cnodes.link, Cnodes.getitem in Hl; by rewrite Ha, Hb in Hl].
  destruct (link_lookup c a b ta tb Hc Ha Hb) as (c2 & Hl2 & Hlook).
  assert (c2 = c') as -> by congruence.
  pose proof (link_consistent c a b c' Hc Hl) as Hc'.
  assert (Hab : eqv (same c) [(a, b)] a b) by (apply eqv_pair; left).
  assert (Hin : forall u, u ∈ ta \/ u ∈ tb -> eqv (same c) [(a, b)] a u).
  { intros u [Hu|Hu].
    - apply eqv_base. by apply (same_member c a ta).
    - eapply eqv_trans; [exact Hab|]. apply eqv_base. by apply (same_member c b tb). }
  split.
  - intros [->|(t & Hx & Hy)]; [apply eqv_refl|].
    rewrite Hlook in Hx. rewrite Hlook in Hy.
    destruct (decide (x ∈ ta \/ x ∈ tb)) as [Hxin|Hxout];
      destruct (decide (y ∈ ta \/ y ∈ tb)) as [Hyin|Hyout].
    + eapply eqv_trans; [apply eqv_sym, Hin, Hxin | apply Hin, Hyin].
    + exfalso. apply Hyout. injection Hx as Hx. subst t.
      apply elem_of_newset. by eapply (cons_self c Hc).
    + exfalso. apply Hxout. injection Hy as Hy. subst t.
      apply elem_of_newset. by eapply (cons_self c Hc).
    + apply eqv_base. right. eauto.
  - induction 1 as [x|x y H|x y H|x y _ IH|x y z _ IH1 _ IH2].
    + by left.
    + destruct H as [->|(t & Hx & Hy)]; [by left|].
      right. rewrite !Hlook.
      assert (Hiff : (x ∈ ta \/ x ∈ tb) <-> (y ∈ ta \/ y ∈ tb)).
      { assert (Hcl : forall n tn u v, c !! n = Some tn -> c !! u = Some t ->
                       c !! v = Some t -> u ∈ tn -> v ∈ tn).
        { intros n tn u v Hn Hu Hv Hin'.
          pose proof (cons_share c Hc n tn u Hn Hin').
          assert (tn = t) as -> by congruence. by eapply (cons_self c Hc). }
        split; (intros [H|H]; [left|right]); eauto. }
      destruct (decide (x ∈ ta \/ x ∈ tb)) as [Hxin|Hxout].
      * rewrite decide_True by tauto. eauto.
      * rewrite decide_False by tauto. eauto.
    + apply list_elem_of_singleton in H. injection H as -> ->.
      right. rewrite !Hlook.
      rewrite decide_True by (left; by eapply (cons_self c Hc)).
      rewrite decide_True by (right; by eapply (cons_self c Hc)). eauto.
    + by apply same_sym.
    + by eapply same_trans.
Qed.

Lemma links_same l c c' x y :
  consistent c -> Cnodes.links c l = Ok c' ->
  same c' x y <-> eqv (same c) l x y.
Proof.
  revert c x y. induction l as [|[a b] l IH]; intros c x y Hc; simpl.
  - intros [= <-]. symmetry. apply eqv_nil.
  - destruct (Cnodes.link c a b) as [c1| |] eqn:Hl; simpl; [|done..].
    intros Hls. rewrite (IH c1 x y (link_consistent _ _ _ _ Hc Hl) Hls).
    split; apply eqv_closed.
    + intros u v Huv. apply (link_same c a b c1 u v Hc Hl) in Huv.
      revert Huv. apply eqv_closed; [apply eqv_base|].
      intros u' v' H. apply eqv_pair. apply list_elem_of_singleton in H as ->. left.
    + intros u v H. apply eqv_pair. by right.
    + intros u v Huv. apply eqv_base. apply (link_same c a b c1 u v Hc Hl).
      by apply eqv_base.
    + intros u v H. apply elem_of_cons in H as [[= -> ->]|H].
      * apply eqv_base. apply (link_same c a b c1 a b Hc Hl). apply eqv_pair. left.
      * by apply eqv_pair.
Qed.

Lemma links_dom l c c' x :
  consistent c -> Cnodes.links c l = Ok c' ->
  is_Some (c' !! x) <-> is_Some (c !! x).
Proof.
  revert c. induction l as [|[a b] l IH]; intros c Hc; simpl.
  - by intros [= <-].
  - destruct (Cnodes.link c a b) as [c1| |] eqn:Hl; simpl; [|done..].
    intros Hls. rewrite (IH c1 (link_consistent _ _ _ _ Hc Hl) Hls).
    by eapply link_dom.
Qed.

Lemma links_succeed l c :
  consistent c ->
  Forall (fun p => is_Some (c !! p.1) /\ is_Some (c !! p.2)) l ->
  exists c', Cnodes.links c l = Ok c'.
Proof.
  revert c. induction l as [|[a b] l IH]; intros c Hc Hl; simpl; [eauto|].
  apply Forall_cons in Hl as [[[ta Ha] [tb Hb]] Hl]. simpl in *.
  destruct (link_lookup c a b ta tb Hc Ha Hb) as (c1 & Hl1 & _).
  rewrite Hl1. simpl. apply IH; [by eapply link_consistent|].
  eapply Forall_impl; [exact Hl|]. intros [u v] [Hu Hv]. simpl in *.
  split; by apply (link_dom c a b c1 _ Hc Hl1).
Qed.

(** The table after a sequence of [link] calls depends on the pairs linked,
    not on the order of the calls. *)
Lemma links_perm l1 l2 c c1 c2 :
  consistent c -> l1 ≡ₚ l2 ->
  Cnodes.links c l1 = Ok c1 -> Cnodes.links c l2 = Ok c2 -> c1 = c2.
Proof.
  intros Hc Hp H1 H2.
  pose proof (links_consistent _ _ _ Hc H1) as Hc1.
  pose proof (links_consistent _ _ _ Hc H2) as Hc2.
  assert (Hsame : forall x y, same c1 x y <-> same c2 x y).
  { intros x y. rewrite (links_same l1 c c1 x y Hc H1), (links_same l2 c c2 x y Hc H2).
    split; apply eqv_closed; try apply eqv_base; intros u v H; apply eqv_pair.
    - by rewrite <- Hp.
    - by rewrite Hp. }
  apply map_eq. intros n.
  destruct (c1 !! n) as [t1|] eqn:Hn1; destruct (c2 !! n) as [t2|] eqn:Hn2.
  - f_equal.
    rewrite (cons_canon c1 Hc1 n t1 Hn1), (cons_canon c2 Hc2 n t2 Hn2).
    f_equal. apply set_eq. intros y. rewrite !elem_of_list_to_set.
    rewrite (same_member c1 n t1 y Hc1 Hn1), (same_member c2 n t2 y Hc2 Hn2).
    apply Hsame.
  - exfalso. assert (is_Some (c2 !! n)) as [? ?]; [|congruence].
    apply (links_dom l2 c c2 n Hc H2), (links_dom l1 c c1 n Hc H1). eauto.
  - exfalso. assert (is_Some (c1 !! n)) as [? ?]; [|congruence].
    apply (links_dom l1 c c1 n Hc H1), (links_dom l2 c c2 n Hc H2). eauto.
  - done.
Qed.

(** C9.  On every table [c] that [Cnodes.__init__] and a sequence of [link]
    calls can build:
    - linking [a] and [b] puts into one common node [a], [b] and every [x] that
      was already with [a] or with [b]; that common node is the union of the
      two old ones;
    - linking a node with itself leaves the table as it was;
    - two sequences of [link] calls that differ only in their order end in
      the same table, so in the same partition of the nodes. *)
Theorem link_transitive_idempotent_any_order
    (nodes : list string) (l0 : list (string * string))
    (c : gmap string (list string))
    (Hc : Cnodes.links (Cnodes.init nodes) l0 = Ok c) :
  (forall a b x ta tb,
      c !! a = Some ta -> c !! b = Some tb -> x ∈ ta \/ x ∈ tb ->
      exists c' G,
        Cnodes.link c a b = Ok c' /\
        Cnodes.group c' a = Some G /\
        Cnodes.group c' b = Some G /\
        Cnodes.group c' x = Some G /\
        G = list_to_set ta ∪ list_to_set tb /\
        a ∈ G /\ b ∈ G /\ x ∈ G) /\
  (forall a, is_Some (c !! a) -> Cnodes.link c a a = Ok c) /\
  (forall l1 l2,
      l1 ≡ₚ l2 ->
      Forall (fun p => is_Some (c !! p.1) /\ is_Some (c !! p.2)) l1 ->
      exists c',
        Cnodes.links c l1 = Ok c' /\ Cnodes.links c l2 = Ok c' /\
        forall n, Cnodes.group c' n = None <-> Cnodes.group c n = None).
Proof.
  pose proof (links_consistent _ _ _ (init_consistent nodes) Hc) as Hcons.
  split; [|split].
  - intros a b x ta tb Ha Hb Hx.
    destruct (link_lookup c a b ta tb Hcons Ha Hb) as (c' & Hl & Hlook).
    exists c', (list_to_set ta ∪ list_to_set tb).
    assert (Hg : forall y, y ∈ ta \/ y ∈ tb ->
                 Cnodes.group c' y = Some (list_to_set ta ∪ list_to_set tb)).
    { intros y Hy. unfold Cnodes.group. rewrite Hlook, decide_True by done.
      simpl. by rewrite list_to_set_elements_L, list_to_set_app_L. }
    pose proof (cons_self c Hcons a ta Ha) as Haa.
    pose proof (cons_self c Hcons b tb Hb) as Hbb.
    split; [done|]. do 3 (split; [apply Hg; tauto|]). split; [done|].
    repeat split; apply elem_of_union; rewrite !elem_of_list_to_set; tauto.
  - intros a [ta Ha].
    destruct (link_lookup c a a ta ta Hcons Ha Ha) as (c' & Hl & Hlook).
    rewrite Hl. f_equal. apply map_eq. intros x. rewrite Hlook.
    case_decide as Hx; [|done].
    assert (x ∈ ta) as Hin by tauto.
    rewrite (cons_share c Hcons a ta x Ha Hin). f_equal.
    rewrite (cons_canon c Hcons a ta Ha) at 3. f_equal.
    rewrite list_to_set_app_L. apply (idemp_L (∪)).
  - intros l1 l2 Hp Hdom.
    destruct (links_succeed l1 c Hcons Hdom) as [c1 H1].
    assert (Hdom2 : Forall (fun p => is_Some (c !! p.1) /\ is_Some (c !! p.2)) l2)
      by (by rewrite <- Hp).
    destruct (links_succeed l2 c Hcons Hdom2) as [c2 H2].
    assert (c1 = c2) as <- by (by eapply links_perm).
    exists c1. split; [done|]. split; [done|]. intros n. unfold Cnodes.group.
    rewrite !fmap_None, !eq_None_not_Some.
    by rewrite (links_dom l1 c c1 n Hcons H1).
Qed.

Lemma link_transitive_idempotent_any_order_witness :
  exists c,
    Cnodes.links (Cnodes.init ["A"; "B"; "C"; "D"]) [("B", "C")] = Ok c /\
    (exists c' G,
       Cnodes.link c "A" "B" = Ok c' /\
       Cnodes.group c' "A" = Some G /\ Cnodes.group c' "B" = Some G /\
       Cnodes.group c' "C" = Some G /\
       G = list_to_set ["A"] ∪ list_to_set ["C"; "B"] /\
       "A" ∈ G /\ "B" ∈ G /\ "C" ∈ G) /\
    Cnodes.link c "B" "B" = Ok c /\
    (exists c',
       Cnodes.links c [("A", "B"); ("C", "D")] = Ok c' /\
       Cnodes.links c [("C", "D"); ("A", "B")] = Ok c' /\
       forall n, Cnodes.group c' n = None <-> Cnodes.group c n = None).
Proof.
  eexists. split; [vm_compute; reflexivity|].
  match goal with
  | |- context [Cnodes.link ?c "A" "B"] =>
      assert (Hc : Cnodes.links (Cnodes.init ["A"; "B"; "C"; "D"]) [("B", "C")] = Ok c)
        by (vm_compute; reflexivity);
      destruct (link_transitive_idempotent_any_order _ _ c Hc) as (Ht & Hi & Ho)
  end.
  split; [|split].
  - apply (Ht "A" "B" "C" ["A"] ["C"; "B"]);
      [vm_compute; reflexivity | vm_compute; reflexivity |].
    right. apply list_elem_of_In. simpl. tauto.
  - apply Hi. eexists. vm_compute. reflexivity.
  - apply Ho.
    + apply perm_swap.
    + repeat constructor; simpl; eexists; vm_compute; reflexivity.
Defined.

(** ** Insertion order *)


(** ** The traversals only touch the working fields *)

Lemma frame_refl s : frame s s.
Proof. by split. Qed.

Lemma frame_trans s1 s2 s3 : frame s1 s2 -> frame s2 s3 -> frame s1 s3.
Proof.
  intros [Hk1 H1] [Hk2 H2]. split; [congruence|].
  intros k. destruct (H1 k) as (? & ? & ?), (H2 k) as (? & ? & ?).
  repeat split; congruence.
Qed.

Lemma frame_modify k f s :
  (forall nd, known_dist (f nd) = known_dist nd /\
              fedges (f nd) = fedges nd /\ redges (f nd) = redges nd) ->
  frame s (modify k f s).
Proof.
  intros Hf. split; [apply keys_modify|].
  intros k'. unfold deref. rewrite lookup_key_modify.
  destruct (decide (k' = k)) as [->|Hne]; [|done].
  destruct (lookup_key k s) as [nd|]; simpl; [apply Hf | done].
Qed.

Lemma lookup_key_reset k its :
  lookup_key k (reset its) = reset_node <$> lookup_key k its.
Proof.
  induction its as [|[k0 nd] its IH]; simpl; [done|].
  by destruct (decide (k = k0)).
Qed.

Lemma frame_reset s : frame s (reset s).
Proof.
  split; [apply keys_reset|].
  intros k. unfold deref. rewrite lookup_key_reset.
  by destruct (lookup_key k s).
Qed.

Lemma frame_relax node e d s : frame s (relax node e d s).
Proof.
  unfold relax.
  eapply frame_trans; [|apply frame_modify; by intros []].
  eapply frame_trans; [|apply frame_modify; by intros []].
  apply frame_modify. by intros [].
Qed.

Section Preserved.
Variable R : list (gkey * Gnode) -> list (gkey * Gnode) -> Prop.
Hypothesis R_refl : forall s, R s s.
Hypothesis R_trans : forall s1 s2 s3, R s1 s2 -> R s2 s3 -> R s1 s3.
Hypothesis R_relax :
  forall node e s,
    (dist (deref s (to_node e)) < dist (deref s node) + size e)%Q ->
    R s (relax node e (dist (deref s node) + size e)%Q s).

(** A relation between states that every relaxation respects holds between
    the states before and after a traversal that returns. *)
Lemma relax_loop_preserved rec node edges its its' :
  (forall k s s', rec k s = Ok s' -> R s s') ->
  relax_loop rec node edges its = Ok its' -> R its its'.
Proof.
  intros Hrec. revert its. induction edges as [|e rest IH]; intros its; simpl.
  - by intros [= <-].
  - destruct (Qlt_le_dec _ _) as [Hlt|_]; [|by apply IH].
    destruct (rec _ _) as [s| |] eqn:Hs; simpl; [|done..].
    intros H. eapply R_trans; [by apply R_relax|].
    eapply R_trans; [by eapply Hrec | by apply IH].
Qed.

Lemma traverse_preserved depth node its its' :
  traverse depth node its = Ok its' -> R its its'.
Proof.
  revert node its its'. induction depth as [|depth IH]; intros node its its'; simpl;
    [done|].
  apply relax_loop_preserved. exact IH.
Qed.

Lemma traverse_known_preserved forward depth node its its' :
  traverse_known forward depth node its = Ok its' -> R its its'.
Proof.
  revert node its its'. induction depth as [|depth IH]; intros node its its'; simpl;
    [done|].
  destruct (known_dist _); [by intros [= <-]|].
  apply relax_loop_preserved. exact IH.
Qed.
End Preserved.

Lemma traverse_frame depth node its its' :
  traverse depth node its = Ok its' -> frame its its'.
Proof.
  apply (traverse_preserved frame frame_refl frame_trans).
  intros. apply frame_relax.
Qed.

Lemma traverse_known_frame forward depth node its its' :
  traverse_known forward depth node its = Ok its' -> frame its its'.
Proof.
  apply (traverse_known_preserved frame frame_refl frame_trans).
  intros. apply frame_relax.
Qed.

Lemma longest_forward_path_frame limit g root g' :
  longest_forward_path limit g root = Ok g' ->
  frame (items g) (items g') /\ cnodes g' = cnodes g /\ gname g' = gname g.
Proof.
  unfold longest_forward_path.
  destruct (traverse _ _ _) as [s|[]|] eqn:Hs; try done.
  intros [= <-]. simpl. split; [|done].
  eapply frame_trans; [apply frame_reset|].
  eapply frame_trans; [apply (frame_modify root (set_dist 0)); by intros []|].
  by eapply traverse_frame.
Qed.

Lemma longest_path_to_known_frame limit g root forward g' :
  longest_path_to_known limit g root forward = Ok g' ->
  frame (items g) (items g') /\ cnodes g' = cnodes g /\ gname g' = gname g.
Proof.
  unfold longest_path_to_known.
  destruct (traverse_known _ _ _ _) as [s| |] eqn:Hs; simpl; [|done..].
  intros [= <-]. simpl. split; [|done].
  eapply frame_trans; [apply frame_reset|].
  eapply frame_trans; [apply (frame_modify root (set_dist 0)); by intros []|].
  by eapply traverse_known_frame.
Qed.

Lemma search_frame limit g node forward g' r :
  search limit g node forward = Ok (g', r) ->
  frame (items g) (items g') /\ cnodes g' = cnodes g /\ gname g' = gname g.
Proof.
  unfold search.
  destruct (longest_path_to_known _ _ _ _) as [g1| |] eqn:Hg1; cbn [rbind]; [|done..].
  destruct (follow_next _ _ _ _ _) as [r1| |]; cbn [rbind]; [|done..].
  intros [= <- _]. exact (longest_path_to_known_frame _ _ _ _ _ Hg1).
Qed.

(** ** Every stored common node ends up resolved *)

Lemma modify_known_mono k f its k' :
  (forall nd, is_Some (known_dist (f nd))) ->
  is_Some (known_dist (deref its k')) ->
  is_Some (known_dist (deref (modify k f its) k')).
Proof.
  intros Hf. unfold deref. rewrite lookup_key_modify.
  destruct (decide (k' = k)) as [->|Hne]; [|done].
  destruct (lookup_key k its); simpl; [intros _; apply Hf | done].
Qed.

Lemma modify_known_set k f its :
  (forall nd, is_Some (known_dist (f nd))) ->
  k ∈ keys its ->
  is_Some (known_dist (deref (modify k f its) k)).
Proof.
  intros Hf Hk. apply is_Some_lookup_key in Hk.
  rewrite (deref_modify_eq _ _ _ Hk). apply Hf.
Qed.

Lemma elem_of_discard k n unknown : k ∈ discard n unknown <-> k ∈ unknown /\ k <> n.
Proof. unfold discard. rewrite list_elem_of_filter. tauto. Qed.

Lemma tuples_resolved_step its unknown n node f :
  tuples_resolved its unknown ->
  (forall nd, is_Some (known_dist (f nd))) ->
  (forall t, n = Tuple t -> node = n) ->
  tuples_resolved (modify node f its) (discard n unknown).
Proof.
  intros Hinv Hf Hn t. rewrite keys_modify. intros Hin.
  destruct (decide (Tuple t = n)) as [Heq|Hne].
  - right. pose proof (Hn t (eq_sym Heq)) as Hnode. subst n. subst node.
    by apply modify_known_set.
  - destruct (Hinv t Hin) as [Hu|Hk].
    + left. by apply elem_of_discard.
    + right. by apply modify_known_mono.
Qed.

Lemma walk_back_resolved fuel node its unknown its' unknown' :
  walk_back fuel node its unknown = Ok (its', unknown') ->
  tuples_resolved its unknown ->
  tuples_resolved its' unknown' /\ keys its' = keys its /\
  (node <> start -> node ∈ keys its -> is_Some (known_dist (deref its' node))) /\
  (forall k, is_Some (known_dist (deref its k)) ->
             is_Some (known_dist (deref its' k))).
Proof.
  revert node its unknown. induction fuel as [|fuel IH]; intros node its unknown; simpl.
  - destruct (decide (node = start)); [|done]. intros [= <- <-]. done.
  - destruct (decide (node = start)) as [->|Hne]; [intros [= <- <-]; done|].
    destruct (prev _) as [e|]; [|done].
    intros H Hinv.
    assert (Hf : forall nd, is_Some (known_dist (set_known_dist (Some (dist nd)) nd)))
      by (intros []; simpl; eauto).
    apply IH in H as (H1 & H2 & _ & H4).
    + rewrite keys_modify in H2. repeat split; try done.
      * intros _ Hin. apply H4. by apply modify_known_set.
      * intros k Hk. apply H4. by apply modify_known_mono.
    + by apply tuples_resolved_step.
Qed.

Lemma assign_fixed_cases node unknown its its' changes :
  assign_fixed node unknown its = (its', changes) ->
  (changes = false /\ its' = its) \/
  (changes = true /\ exists d, its' = modify node (set_known_dist (Some d)) its).
Proof.
  unfold assign_fixed.
  destruct (List.find _ (fedges _)) as [e|].
  - intros [= <- <-]. right. eauto.
  - destruct (List.find _ (redges _)) as [e|]; intros [= <- <-]; [right|left]; eauto.
Qed.

Lemma fixed_pass_resolved g todo unknown its its' unknown' changes :
  fixed_pass g todo unknown its = Ok (its', unknown', changes) ->
  tuples_resolved its unknown ->
  tuples_resolved its' unknown' /\ keys its' = keys its /\
  (forall k, is_Some (known_dist (deref its k)) ->
             is_Some (known_dist (deref its' k))).
Proof.
  revert its. induction todo as [|n todo IH]; intros its; simpl.
  - intros [= <- <- <-]. done.
  - destruct (getitem _ n) as [node| |] eqn:Hn; cbn [rbind]; [|done..].
    destruct (assign_fixed node unknown its) as [its1 ch] eqn:Ha.
    apply assign_fixed_cases in Ha as [[-> ->]|[-> [d ->]]].
    + apply IH.
    + intros [= <- <- <-] Hinv.
      assert (Hf : forall nd, is_Some (known_dist (set_known_dist (Some d) nd)))
        by (intros []; simpl; eauto).
      split; [|split; [apply keys_modify|]].
      * apply tuples_resolved_step; [done..|].
        intros t ->. apply getitem_Ok in Hn as [-> _]. done.
      * intros k. by apply modify_known_mono.
Qed.

Lemma fixed_loop_resolved fuel g unknown its its' unknown' :
  fixed_loop fuel g unknown its = Ok (its', unknown') ->
  tuples_resolved its unknown ->
  tuples_resolved its' unknown' /\ keys its' = keys its /\
  (forall k, is_Some (known_dist (deref its k)) ->
             is_Some (known_dist (deref its' k))).
Proof.
  revert unknown its. induction fuel as [|fuel IH]; intros unknown its; simpl.
  - destruct unknown; [|done]. intros [= <- <-]. done.
  - destruct unknown as [|u unknown]; [intros [= <- <-]; done|].
    destruct (fixed_pass _ _ _ _) as [[[its1 unknown1] ch]| |] eqn:Hp; cbn [rbind];
      [|done..].
    intros H Hinv.
    apply fixed_pass_resolved in Hp as (Hp1 & Hp2 & Hp3); [|done].
    destruct ch.
    + apply IH in H as (H1 & H2 & H3); [|done].
      repeat split; [done | congruence | eauto].
    + injection H as <- <-. done.
Qed.

Lemma frame_known s s' k :
  frame s s' -> is_Some (known_dist (deref s k)) -> is_Some (known_dist (deref s' k)).
Proof. intros [_ H]. destruct (H k) as (-> & _). done. Qed.

Lemma stretch_node_resolved limit g n g' :
  stretch_node limit g n = Ok g' ->
  cnodes g' = cnodes g /\ keys (items g') = keys (items g) /\
  (forall k, is_Some (known_dist (deref (items g) k)) ->
             is_Some (known_dist (deref (items g') k))) /\
  is_Some (known_dist (deref (items g') (canon (cnodes g) n))).
Proof.
  unfold stretch_node.
  destruct (getitem g n) as [node| |] eqn:Hn; cbn [rbind]; [|done..].
  destruct (search limit g node true) as [[g1 [[to_nd fs] fd]]| |] eqn:H1;
    cbn [rbind]; [|done..].
  destruct (search limit g1 node false) as [[g2 [[from_nd rs] rd]]| |] eqn:H2;
    cbn [rbind]; [|done..].
  apply search_frame in H1 as (F1 & C1 & _).
  apply search_frame in H2 as (F2 & C2 & _).
  pose proof (frame_trans _ _ _ F1 F2) as F.
  apply getitem_Ok in Hn as [-> Hin].
  assert (Hgen : forall d,
             cnodes (with_items g2 (modify (canon (cnodes g) n)
                                           (set_known_dist (Some d)) (items g2)))
             = cnodes g /\
             keys (modify (canon (cnodes g) n) (set_known_dist (Some d)) (items g2))
             = keys (items g) /\
             (forall k, is_Some (known_dist (deref (items g) k)) ->
                is_Some (known_dist
                  (deref (modify (canon (cnodes g) n) (set_known_dist (Some d))
                                 (items g2)) k))) /\
             is_Some (known_dist
               (deref (modify (canon (cnodes g) n) (set_known_dist (Some d))
                              (items g2)) (canon (cnodes g) n)))).
  { intros d.
    assert (Hf : forall nd, is_Some (known_dist (set_known_dist (Some d) nd)))
      by (intros []; simpl; eauto).
    split; [simpl; congruence|]. split; [rewrite keys_modify; apply F|]. split.
    - intros k Hk. apply modify_known_mono; [done|]. by eapply frame_known.
    - apply modify_known_set; [done|]. destruct F as [-> _]. done. }
  repeat case_decide;
    repeat (match goal with
            | |- context [known ?its ?k] => destruct (known its k); cbn [rbind]; try done
            end);
    repeat (match goal with
            | |- context [Qlt_le_dec ?a ?b] => destruct (Qlt_le_dec a b); try done
            | |- context [Nat.eqb ?a ?b] => destruct (Nat.eqb a b)
            end);
    intros [= <-]; apply Hgen.
Qed.

Lemma stretch_loop_resolved limit unknown g g' :
  stretch_loop limit g unknown = Ok g' ->
  cnodes g' = cnodes g /\ keys (items g') = keys (items g) /\
  (forall k, is_Some (known_dist (deref (items g) k)) ->
             is_Some (known_dist (deref (items g') k))) /\
  (forall n, n ∈ unknown ->
             is_Some (known_dist (deref (items g') (canon (cnodes g) n)))).
Proof.
  revert g. induction unknown as [|u unknown IH]; intros g; simpl.
  - intros [= <-]. repeat split; try done. intros n Hn. by apply elem_of_nil in Hn.
  - destruct (stretch_node limit g u) as [g1| |] eqn:H1; cbn [rbind]; [|done..].
    intros H. apply stretch_node_resolved in H1 as (A1 & A2 & A3 & A4).
    apply IH in H as (B1 & B2 & B3 & B4).
    repeat split; [congruence | congruence | eauto |].
    intros n Hn. apply elem_of_cons in Hn as [->|Hn].
    + by apply B3.
    + rewrite <- A1. by apply B4.
Qed.


Lemma tuples_resolved_frame s s' unknown :
  frame s s' -> tuples_resolved s unknown -> tuples_resolved s' unknown.
Proof.
  intros F Hinv t Hin. pose proof F as [Hk _]. rewrite Hk in Hin.
  destruct (Hinv t Hin) as [?|?]; [by left | right; by eapply frame_known].
Qed.

Lemma critical_path_resolved limit g unknown g' unknown' :
  critical_path limit g unknown = Ok (g', unknown') ->
  tuples_resolved (items g) unknown ->
  cnodes g' = cnodes g /\ keys (items g') = keys (items g) /\
  tuples_resolved (items g') unknown'.
Proof.
  unfold critical_path.
  destruct (getitem g start) as [s| |]; cbn [rbind]; [|done..].
  destruct (longest_forward_path limit g s) as [g1| |] eqn:H1; cbn [rbind]; [|done..].
  destruct (getitem g1 end_) as [e| |]; cbn [rbind]; [|done..].
  destruct (walk_back _ _ _ _) as [[its2 u2]| |] eqn:H2; cbn [rbind]; [|done..].
  intros [= <- <-] Hinv. simpl.
  apply longest_forward_path_frame in H1 as (F & C & _).
  apply walk_back_resolved in H2 as (W1 & W2 & _); [|by eapply tuples_resolved_frame].
  repeat split; [done | | done]. rewrite W2. apply F.
Qed.

Lemma fixed_propagation_resolved g unknown g' unknown' :
  fixed_propagation g unknown = Ok (g', unknown') ->
  tuples_resolved (items g) unknown ->
  cnodes g' = cnodes g /\ keys (items g') = keys (items g) /\
  tuples_resolved (items g') unknown'.
Proof.
  unfold fixed_propagation.
  destruct (fixed_loop _ _ _ _) as [[its2 u2]| |] eqn:H; cbn [rbind]; [|done..].
  intros [= <- <-] Hinv. simpl.
  apply fixed_loop_resolved in H as (H1 & H2 & _); done.
Qed.

Lemma tuples_resolved_initial its :
  tuples_resolved its (discard end_ (discard start (keys its))).
Proof.
  intros t Hin. left. rewrite !elem_of_discard. done.
Qed.




(** ** Longest paths: what a returning traversal has done *)

Lemma dist_modify_keep k f s k' :
  (forall nd, dist (f nd) = dist nd) ->
  dist (deref (modify k f s) k') = dist (deref s k').
Proof.
  intros Hf. unfold deref. rewrite lookup_key_modify.
  destruct (decide (k' = k)) as [->|Hne]; [|done].
  destruct (lookup_key k s); simpl; [apply Hf | done].
Qed.

Lemma dist_relax_other node e d s k :
  k <> to_node e -> dist (deref (relax node e d s) k) = dist (deref s k).
Proof.
  intros Hne. unfold relax.
  rewrite dist_modify_keep by (by intros []).
  by rewrite !deref_modify_ne.
Qed.

Lemma dist_relax_target node e d s :
  to_node e ∈ keys s -> dist (deref (relax node e d s) (to_node e)) = d.
Proof.
  intros Hin. unfold relax.
  rewrite dist_modify_keep by (by intros []).
  rewrite deref_modify_eq
    by (apply is_Some_lookup_key; by rewrite keys_modify).
  rewrite deref_modify_eq by (by apply is_Some_lookup_key).
  done.
Qed.

Lemma dist_relax_le node e d s k :
  (dist (deref s (to_node e)) < d)%Q ->
  (dist (deref s k) <= dist (deref (relax node e d s) k))%Q.
Proof.
  intros Hlt. destruct (decide (k = to_node e)) as [->|Hne].
  - destruct (decide (to_node e ∈ keys s)) as [Hin|Hout].
    + rewrite dist_relax_target by done. by apply Qlt_le_weak.
    + apply lookup_key_None_keys in Hout.
      unfold relax, deref. rewrite !lookup_key_modify, Hout.
      repeat case_decide; simpl; apply Qle_refl.
  - rewrite dist_relax_other by done. apply Qle_refl.
Qed.

Lemma traverse_dist_mono depth node its its' k :
  traverse depth node its = Ok its' ->
  (dist (deref its k) <= dist (deref its' k))%Q.
Proof.
  intros H. revert k.
  apply (traverse_preserved
           (fun s s' => forall k, (dist (deref s k) <= dist (deref s' k))%Q))
    with (depth := depth) (node := node); [| | |done].
  - intros s k. apply Qle_refl.
  - intros s1 s2 s3 H1 H2 k. eapply Qle_trans; [apply H1 | apply H2].
  - intros n e s Hlt k. by apply dist_relax_le.
Qed.

Lemma closed_out_frame s s' : frame s s' -> closed_out s -> closed_out s'.
Proof.
  intros [Hk Hf] Hc k e He. rewrite Hk. apply (Hc k).
  destruct (Hf k) as (_ & <- & _). done.
Qed.

Lemma edges_closed_out its : edges_closed its -> closed_out its.
Proof.
  intros Hall k e He. unfold deref in He.
  destruct (lookup_key k its) as [nd|] eqn:Hk; [|by apply elem_of_nil in He].
  apply lookup_key_Some_elem in Hk.
  unfold edges_closed in Hall. rewrite Forall_forall in Hall.
  specialize (Hall _ Hk). simpl in Hall. rewrite Forall_forall in Hall. auto.
Qed.

Lemma frame_fedges s s' k : frame s s' -> fedges (deref s' k) = fedges (deref s k).
Proof. intros [_ H]. by destruct (H k) as (_ & ? & _). Qed.

Lemma settled_false its k e : settled false its k e <-> relaxed its k e.
Proof. unfold settled. split; [intros [[? _]|?]; done | by right]. Qed.

(** One relaxation and the call that follows it keep every settled edge
    settled. *)
Lemma relax_then_rec_settled rec node e s s2 :
  traverse_spec rec -> closed_out s -> e ∈ fedges (deref s node) ->
  (dist (deref s (to_node e)) < dist (deref s node) + size e)%Q ->
  rec (to_node e) (relax node e (dist (deref s node) + size e)%Q s) = Ok s2 ->
  frame s s2 /\
  relaxed s2 node e /\
  (forall b k e', e' ∈ fedges (deref s k) -> settled b s k e' -> settled b s2 k e').
Proof.
  intros Hrec Hc He Hlt Hs2.
  set (d := (dist (deref s node) + size e)%Q) in *.
  set (s1 := relax node e d s) in *.
  pose proof (frame_relax node e d s) as F1.
  pose proof (closed_out_frame _ _ F1 Hc) as Hc1.
  destruct (Hrec _ _ _ Hc1 Hs2) as (F2 & C2 & D2).
  pose proof (Hc _ _ He) as Hv.
  assert (Hstep : forall b k e', e' ∈ fedges (deref s k) ->
                    settled b s k e' -> settled b s2 k e').
  { intros b k e' He' Hset.
    destruct (decide (k = to_node e)) as [->|Hk].
    - right. apply C2. by rewrite (frame_fedges _ _ _ F1).
    - apply D2; [by rewrite (frame_fedges _ _ _ F1)|].
      unfold settled, relaxed in *. subst s1.
      rewrite (dist_relax_other node e d s k Hk).
      destruct Hset as [?|Hrel]; [by left|]. right.
      eapply Qle_trans; [exact Hrel|]. by apply dist_relax_le. }
  split; [by eapply frame_trans|]. split; [|done].
  destruct (decide (node = to_node e)) as [Hn|Hn].
  - rewrite Hn at 1. rewrite Hn in He. apply C2.
    by rewrite (frame_fedges _ _ _ F1).
  - apply settled_false. apply D2; [by rewrite (frame_fedges _ _ _ F1)|].
    apply settled_false. unfold relaxed. subst s1.
    rewrite (dist_relax_other node e d s node Hn).
    rewrite (dist_relax_target node e d s Hv). apply Qle_refl.
Qed.

Lemma relax_loop_settled rec node :
  traverse_spec rec ->
  forall edges s s',
    closed_out s ->
    (forall e, e ∈ edges -> e ∈ fedges (deref s node)) ->
    relax_loop rec node edges s = Ok s' ->
    frame s s' /\
    (forall e, e ∈ edges -> relaxed s' node e) /\
    (forall b k e, e ∈ fedges (deref s k) -> settled b s k e -> settled b s' k e).
Proof.
  intros Hrec. induction edges as [|e rest IH]; intros s s' Hc Hsub; simpl.
  - intros [= <-]. split; [apply frame_refl|]. split; [|done].
    intros e He. by apply elem_of_nil in He.
  - assert (He : e ∈ fedges (deref s node)) by (apply Hsub; left).
    destruct (Qlt_le_dec _ _) as [Hlt|Hle].
    + destruct (rec _ _) as [s2| |] eqn:Hs2; cbn [rbind]; [|done..].
      intros Hloop.
      destruct (relax_then_rec_settled rec node e s s2 Hrec Hc He Hlt Hs2)
        as (F2 & R2 & D2).
      destruct (IH s2 s' (closed_out_frame _ _ F2 Hc)) as (F3 & C3 & D3); [|done|].
      { intros e' He'. rewrite (frame_fedges _ _ _ F2). apply Hsub. by right. }
      split; [by eapply frame_trans|]. split.
      * intros e' He'. apply elem_of_cons in He' as [->|He']; [|by apply C3].
        apply settled_false. apply D3; [by rewrite (frame_fedges _ _ _ F2)|].
        by apply settled_false.
      * intros b k e' He' Hset.
        apply D3; [by rewrite (frame_fedges _ _ _ F2)|]. by apply D2.
    + intros Hloop.
      destruct (IH s s' Hc) as (F3 & C3 & D3); [|done|].
      { intros e' He'. apply Hsub. by right. }
      split; [done|]. split; [|done].
      intros e' He'. apply elem_of_cons in He' as [->|He']; [|by apply C3].
      apply settled_false. apply D3; [done|]. by apply settled_false.
Qed.

Lemma traverse_settled depth : traverse_spec (traverse depth).
Proof.
  induction depth as [|depth IH]; intros node s s' Hc; simpl; [done|].
  intros H. by apply (relax_loop_settled _ node IH (fedges (deref s node))).
Qed.

(** The traversal stops in one way only: the interpreter's recursion limit. *)
Lemma relax_loop_stops rec node edges s :
  (forall k s', rec k s' <> Diverge /\
                forall e, rec k s' = Raise e -> e = RecursionDepth) ->
  relax_loop rec node edges s <> Diverge /\
  forall e, relax_loop rec node edges s = Raise e -> e = RecursionDepth.
Proof.
  intros Hrec. revert s. induction edges as [|e rest IH]; intros s; simpl; [done|].
  destruct (Qlt_le_dec _ _); [|apply IH].
  destruct (rec _ _) as [s2|e0|] eqn:Hs2; cbn [rbind].
  - apply IH.
  - split; [done|]. intros e1 [= <-]. exact (proj2 (Hrec _ _) _ Hs2).
  - exfalso. exact (proj1 (Hrec _ _) Hs2).
Qed.

Lemma traverse_stops depth node s :
  traverse depth node s <> Diverge /\
  forall e, traverse depth node s = Raise e -> e = RecursionDepth.
Proof.
  revert node s. induction depth as [|depth IH]; intros node s; simpl.
  - split; [done|]. by intros e [= <-].
  - by apply relax_loop_stops.
Qed.

Lemma traverse_known_stops forward depth node s :
  traverse_known forward depth node s <> Diverge /\
  forall e, traverse_known forward depth node s = Raise e -> e = RecursionDepth.
Proof.
  revert node s. induction depth as [|depth IH]; intros node s; simpl.
  - split; [done|]. by intros e [= <-].
  - destruct (known_dist _); [done|]. by apply relax_loop_stops.
Qed.

(** [longest_path_to_known] never raises the message that names the graph:
    when its traversal runs into the recursion limit, the interpreter's own
    [RuntimeError] is what the caller gets. *)
Lemma longest_path_to_known_raises limit g root forward e :
  longest_path_to_known limit g root forward = Raise e -> e = RecursionDepth.
Proof.
  unfold longest_path_to_known.
  destruct (traverse_known _ _ _ _) as [s|e0|] eqn:Hs; cbn [rbind]; [done| |done].
  intros [= <-]. exact (proj2 (traverse_known_stops _ _ _ _) _ Hs).
Qed.

Lemma fedges_nonneg its k e :
  edges_nonneg its -> e ∈ fedges (deref its k) -> (0 <= size e)%Q.
Proof.
  intros Hall He. unfold deref in He.
  destruct (lookup_key k its) as [nd|] eqn:Hk; [|by apply elem_of_nil in He].
  apply lookup_key_Some_elem in Hk.
  unfold edges_nonneg in Hall. rewrite Forall_forall in Hall.
  destruct (Hall _ Hk) as [Hf _]. simpl in Hf. rewrite Forall_forall in Hf. auto.
Qed.

(** Along a path whose edges are all settled, a start that has been reached
    puts the end at least the length of the path further. *)
Lemma path_settled its s x y len :
  path its x y len ->
  edges_nonneg its ->
  (forall k, fedges (deref s k) = fedges (deref its k)) ->
  (forall k e, e ∈ fedges (deref s k) -> settled true s k e) ->
  (0 <= dist (deref s x))%Q ->
  (dist (deref s x) + len <= dist (deref s y))%Q /\ (0 <= dist (deref s y))%Q.
Proof.
  intros Hp Hnn Hf Hset. induction Hp as [k|k e v len He _ IH]; intros Hx.
  - split; [lra|done].
  - pose proof (fedges_nonneg _ _ _ Hnn He) as Hsz.
    rewrite <- Hf in He.
    destruct (Hset _ _ He) as [[_ Hneg]|Hrel]; [lra|].
    unfold relaxed in Hrel.
    destruct IH as [IH1 IH2]; [lra|]. split; [lra|done].
Qed.




(** ** The edge pass of a component *)

Lemma length_insert_index vals i sorted :
  length (insert_index vals i sorted) = S (length sorted).
Proof.
  induction sorted as [|j rest IH]; simpl; [done|].
  destruct (Qlt_le_dec _ _); simpl; [done | by rewrite IH].
Qed.

Lemma length_argsort vals : length (argsort vals) = length vals.
Proof.
  unfold argsort.
  assert (H : forall l acc,
             length (foldl (fun sorted i => insert_index vals i sorted) acc l)
             = (length acc + length l)%nat).
  { induction l as [|i l IH]; intros acc; simpl; [lia|].
    rewrite IH, length_insert_index. lia. }
  rewrite H. simpl. by rewrite length_seq.
Qed.

Lemma foldl_raise {A B} (f : result A -> B -> result A) e l :
  (forall b, f (Raise e) b = Raise e) -> foldl f (Raise e) l = Raise e.
Proof.
  intros Hf. induction l as [|b l IH]; simpl; [done|]. by rewrite Hf.
Qed.

(** Whatever the component, as soon as it has two nodes the first call of
    [graphs.add] in [place] is a [TypeError]. *)
Lemma place_type_error c graphs vals :
  (2 <= length vals)%nat -> place c graphs vals = Raise TypeError.
Proof.
  intros Hlen. unfold place, place_calls.
  assert (Hrev : (2 <= length (rev (argsort vals)))%nat)
    by (by rewrite length_rev, length_argsort).
  destruct (rev (argsort vals)) as [|m1 [|m2 idx]]; simpl in Hrev; [lia..|].
  simpl. apply foldl_raise. done.
Qed.

(** ** The fixed stage terminates *)

Lemma length_discard n unknown :
  n ∈ unknown -> (length (discard n unknown) < length unknown)%nat.
Proof.
  unfold discard. induction 1 as [n l|n m l _ IH].
  - rewrite filter_cons_False by (intros H; by apply H).
    pose proof (length_filter (fun k => k <> n) l). simpl. lia.
  - rewrite filter_cons. destruct (decide (m <> n)); simpl; [lia|].
    pose proof (length_filter (fun k => k <> n) l). lia.
Qed.

Lemma fixed_pass_shrinks g todo unknown its its' unknown' :
  (forall n, n ∈ todo -> n ∈ unknown) ->
  fixed_pass g todo unknown its = Ok (its', unknown', true) ->
  (length unknown' < length unknown)%nat.
Proof.
  revert its. induction todo as [|n todo IH]; intros its Hsub; simpl; [done|].
  destruct (getitem _ n) as [node| |]; cbn [rbind]; [|done..].
  destruct (assign_fixed node unknown its) as [its1 [|]].
  - intros [= _ <-]. apply length_discard, Hsub. left.
  - apply IH. intros m Hm. apply Hsub. by right.
Qed.

Lemma fixed_pass_returns g todo unknown its : fixed_pass g todo unknown its <> Diverge.
Proof.
  revert its. induction todo as [|n todo IH]; intros its; simpl; [done|].
  destruct (getitem _ n) as [node| |] eqn:Hn; cbn [rbind]; [|done|].
  - destruct (assign_fixed node unknown its) as [its1 [|]]; [done | apply IH].
  - unfold getitem in Hn. by destruct (contains _ _).
Qed.

(** The [while] loop of the fixed stage makes at most one turn per unknown
    node: started with that many turns, it never runs out of them. *)
Lemma fixed_loop_terminates fuel g unknown its :
  (length unknown <= fuel)%nat -> fixed_loop fuel g unknown its <> Diverge.
Proof.
  revert unknown its. induction fuel as [|fuel IH]; intros unknown its Hlen; simpl.
  - destruct unknown; [done | simpl in Hlen; lia].
  - destruct unknown as [|u unknown]; [done|].
    destruct (fixed_pass _ _ _ _) as [[[its1 unknown1] [|]]| |] eqn:Hp;
      cbn [rbind]; try done.
    + apply IH. apply fixed_pass_shrinks in Hp; [|done]. lia.
    + by apply fixed_pass_returns in Hp.
Qed.

Lemma fixed_propagation_terminates g unknown : fixed_propagation g unknown <> Diverge.
Proof.
  unfold fixed_propagation.
  pose proof (fixed_loop_terminates (length unknown) g unknown (items g)
                (Nat.le_refl _)) as H.
  by destruct (fixed_loop _ _ _ _).
Qed.

(** ** Every graph built by [add] has its edges inside the dict *)

Lemma keys_add_node n its :
  keys (add_node n its) = if contains its n then keys its else (keys its ++ [n])%list.
Proof.
  unfold add_node, keys. destruct (contains its n); [done|]. by rewrite map_app.
Qed.

Lemma elem_of_keys_add_node n its k :
  k ∈ keys (add_node n its) <-> k ∈ keys its \/ k = n.
Proof.
  rewrite keys_add_node. unfold contains. case_bool_decide as Hn.
  - apply is_Some_lookup_key in Hn. split; [tauto|]. by intros [?| ->].
  - rewrite elem_of_app, list_elem_of_singleton. done.
Qed.

Lemma edges_closed_add_node n its :
  edges_closed its -> edges_closed (add_node n its).
Proof.
  intros H. unfold edges_closed in *.
  assert (Hk : forall k, k ∈ keys its -> k ∈ keys (add_node n its))
    by (intros k Hk; apply elem_of_keys_add_node; by left).
  unfold add_node at 2. destruct (contains its n) eqn:Hc.
  - eapply Forall_impl; [exact H|]. intros p Hp.
    eapply Forall_impl; [exact Hp|]. intros e. apply Hk.
  - apply Forall_app. split; [|repeat constructor].
    eapply Forall_impl; [exact H|]. intros p Hp.
    eapply Forall_impl; [exact Hp|]. intros e. apply Hk.
Qed.

Lemma edges_closed_add_edges k1 k2 sz st its :
  k2 ∈ keys its -> edges_closed its -> edges_closed (add_edges k1 k2 sz st its).
Proof.
  intros Hk2 H. unfold edges_closed, add_edges in *. rewrite !keys_modify.
  apply Forall_modify; [by intros nd|].
  apply Forall_modify; [|done].
  intros nd Hnd. simpl in *. apply Forall_app. split; [done|].
  by repeat constructor.
Qed.

Lemma add_closed g n1 n2 sz st :
  edges_closed (items g) -> edges_closed (items (add g n1 n2 sz st)).
Proof.
  intros Hg. unfold add. destruct (Qeq_bool sz 0); [done|].
  destruct (Qlt_le_dec sz 0); simpl;
    (apply edges_closed_add_edges;
     [apply elem_of_keys_add_node; by right
     |by apply edges_closed_add_node, edges_closed_add_node]).
Qed.

Lemma keys_add_edges k1 k2 sz st its : keys (add_edges k1 k2 sz st its) = keys its.
Proof. unfold add_edges. by rewrite !keys_modify. Qed.

Lemma add_start_loop_closed s e nodes its :
  e ∈ keys its -> (forall k, k ∈ nodes -> k ∈ keys its) ->
  edges_closed its -> edges_closed (add_start_loop s e nodes its).
Proof.
  revert its. induction nodes as [|k nodes IH]; intros its He Hsub H; simpl; [done|].
  assert (Hk : k ∈ keys its) by (apply Hsub; left).
  apply IH.
  - repeat case_bool_decide; by rewrite ?keys_add_edges.
  - intros k' Hk'. repeat case_bool_decide; rewrite ?keys_add_edges;
      apply Hsub; by right.
  - repeat case_bool_decide; repeat apply edges_closed_add_edges;
      rewrite ?keys_add_edges; done.
Qed.

Lemma add_start_nodes_closed g g' :
  add_start_nodes g = Ok g' -> edges_closed (items g) -> edges_closed (items g').
Proof.
  unfold add_start_nodes. destruct (contains (items g) start).
  - by intros [= <-].
  - destruct (getitem _ start) as [s| |]; cbn [rbind]; [|done..].
    destruct (getitem _ end_) as [e| |] eqn:He; cbn [rbind]; [|done..].
    intros [= <-] Hg. simpl.
    apply getitem_Ok in He as [_ He]. simpl in He.
    apply add_start_loop_closed; [done| |].
    + intros k Hk. apply elem_of_keys_add_node. left.
      apply elem_of_keys_add_node. by left.
    + by apply edges_closed_add_node, edges_closed_add_node.
Qed.


Lemma Graph_init_closed nm nodes : edges_closed (items (Graph_init nm nodes)).
Proof. constructor. Qed.

(** * Further properties of the code *)

(** ** Cnodes: keys, missing keys, partition *)


Lemma links_init_dom nodes l c n :
  Cnodes.links (Cnodes.init nodes) l = Ok c -> is_Some (c !! n) <-> n ∈ nodes.
Proof.
  intros Hc. rewrite (links_dom l _ c n (init_consistent nodes) Hc), init_lookup.
  case_decide as Hn.
  - split; [done | eauto].
  - split; [by intros [? ?] | done].
Qed.

(** X1.  Whatever sequence of [link] calls has been made on the table built
    by [Cnodes(nodes)], the keys are the names given at construction; a name
    is a member of its own tuple, the tuple lists no name twice, and all its
    members hold that same tuple: two common nodes are equal or disjoint. *)
Theorem cnodes_partition (nodes : list string) (l : list (string * string))
    (c : gmap string (list string))
    (Hc : Cnodes.links (Cnodes.init nodes) l = Ok c) :
  (forall n, is_Some (c !! n) <-> n ∈ nodes) /\
  (forall n t, c !! n = Some t ->
               n ∈ t /\ NoDup t /\ forall m, m ∈ t -> c !! m = Some t) /\
  (forall n m t u, c !! n = Some t -> c !! m = Some u ->
                   t = u \/ forall x, x ∈ t -> x ∉ u).
Proof.
  pose proof (links_consistent _ _ _ (init_consistent nodes) Hc) as Hcons.
  split; [|split].
  - intros n. by apply links_init_dom with (l := l).
  - intros n t Hn. split; [exact (cons_self c Hcons n t Hn)|].
    split; [|intros m Hm; exact (cons_share c Hcons n t m Hn Hm)].
    rewrite (cons_canon c Hcons n t Hn). apply NoDup_elements.
  - intros n m t u Hn Hm.
    destruct (decide (t = u)) as [|Hne]; [by left|]. right.
    intros x Hxt Hxu.
    pose proof (cons_share c Hcons n t x Hn Hxt).
    pose proof (cons_share c Hcons m u x Hm Hxu). congruence.
Qed.

Lemma cnodes_partition_witness :
  exists c,
    Cnodes.links (Cnodes.init ["a"; "b"; "c"]) [("a", "b")] = Ok c /\
    (forall n, is_Some (c !! n) <-> n ∈ ["a"; "b"; "c"]) /\
    (forall n t, c !! n = Some t ->
                 n ∈ t /\ NoDup t /\ forall m, m ∈ t -> c !! m = Some t) /\
    (forall n m t u, c !! n = Some t -> c !! m = Some u ->
                     t = u \/ forall x, x ∈ t -> x ∉ u).
Proof.
  eexists. split; [vm_compute; reflexivity|].
  apply (cnodes_partition ["a"; "b"; "c"] [("a", "b")]). vm_compute. reflexivity.
Defined.

(** X2.  [link(n1, n2)] on such a table succeeds exactly when both names are
    keys.  A missing [n1] is a [KeyError] on [n1]; with [n1] present, a
    missing [n2] is a [KeyError] on [n2]. *)
Theorem link_missing_key (nodes : list string) (l : list (string * string))
    (c : gmap string (list string)) (n1 n2 : string)
    (Hc : Cnodes.links (Cnodes.init nodes) l = Ok c) :
  (n1 ∉ nodes -> Cnodes.link c n1 n2 = Raise (KeyError (Name n1))) /\
  (n1 ∈ nodes -> n2 ∉ nodes -> Cnodes.link c n1 n2 = Raise (KeyError (Name n2))) /\
  (n1 ∈ nodes -> n2 ∈ nodes -> exists c', Cnodes.link c n1 n2 = Ok c').
Proof.
  pose proof (links_consistent _ _ _ (init_consistent nodes) Hc) as Hcons.
  assert (Hdom : forall n, is_Some (c !! n) <-> n ∈ nodes)
    by (intros n; by apply links_init_dom with (l := l)).
  split; [|split].
  - intros H1. unfold Cnodes.link, Cnodes.getitem.
    destruct (c !! n1) eqn:E; [|done]. exfalso. apply H1, Hdom. eauto.
  - intros H1 H2. unfold Cnodes.link, Cnodes.getitem.
    apply Hdom in H1 as [t1 ->]. simpl.
    destruct (c !! n2) eqn:E; [|done]. exfalso. apply H2, Hdom. eauto.
  - intros H1 H2. apply Hdom in H1 as [t1 H1]. apply Hdom in H2 as [t2 H2].
    destruct (link_lookup c n1 n2 t1 t2 Hcons H1 H2) as (c' & Hl & _). eauto.
Qed.

Lemma link_missing_key_witness :
  exists c,
    Cnodes.links (Cnodes.init ["a"; "b"]) [("a", "b")] = Ok c /\
    Cnodes.link c "z" "a" = Raise (KeyError (Name "z")) /\
    Cnodes.link c "a" "z" = Raise (KeyError (Name "z")) /\
    exists c', Cnodes.link c "a" "b" = Ok c'.
Proof.
  eexists. split; [vm_compute; reflexivity|].
  match goal with
  | |- context [Cnodes.link ?c "z" "a"] =>
      assert (Hc : Cnodes.links (Cnodes.init ["a"; "b"]) [("a", "b")] = Ok c)
        by (vm_compute; reflexivity);
      pose proof (link_missing_key ["a"; "b"] [("a", "b")] c "z" "a" Hc) as (H1 & _);
      pose proof (link_missing_key ["a"; "b"] [("a", "b")] c "a" "z" Hc) as (_ & H2 & _);
      pose proof (link_missing_key ["a"; "b"] [("a", "b")] c "a" "b" Hc) as (_ & _ & H3)
  end.
  assert (Hz : "z" ∉ ["a"; "b"]).
  { intros H. repeat (apply elem_of_cons in H as [H|H]; [discriminate|]).
    by apply elem_of_nil in H. }
  split; [by apply H1|]. split; [apply H2; [left|done]|].
  apply H3; [left | right; left].
Defined.

(** X3.  [all_nodes] lists every common node once, and every name of the
    table is a member of exactly one of them. *)
Theorem all_nodes_partition (nm : string) (nodes : list string)
    (l : list (string * string)) (c : gmap string (list string))
    (Hc : Cnodes.links (Cnodes.init nodes) l = Ok c) :
  NoDup (all_nodes (mkGraph c nm [])) /\
  (forall t, t ∈ all_nodes (mkGraph c nm []) <-> exists n, c !! n = Some t) /\
  (forall n, n ∈ nodes ->
     exists t, t ∈ all_nodes (mkGraph c nm []) /\ n ∈ t /\
               forall u, u ∈ all_nodes (mkGraph c nm []) -> n ∈ u -> u = t).
Proof.
  pose proof (links_consistent _ _ _ (init_consistent nodes) Hc) as Hcons.
  assert (Hin : forall t, t ∈ all_nodes (mkGraph c nm []) <-> exists n, c !! n = Some t).
  { intros t. unfold all_nodes. simpl.
    rewrite elem_of_elements, elem_of_list_to_set, list_elem_of_fmap. split.
    - intros [[n t'] [-> H]]. apply elem_of_map_to_list in H. eauto.
    - intros [n H]. exists (n, t). split; [done|]. by apply elem_of_map_to_list. }
  split; [unfold all_nodes; apply NoDup_elements|]. split; [done|].
  intros n Hn.
  assert (is_Some (c !! n)) as [t Ht]
    by (by apply (links_init_dom nodes l)).
  exists t. split; [apply Hin; eauto|]. split; [exact (cons_self c Hcons n t Ht)|].
  intros u Hu Hnu. apply Hin in Hu as [m Hm].
  pose proof (cons_share c Hcons m u n Hm Hnu). congruence.
Qed.

Lemma all_nodes_partition_witness :
  exists c,
    Cnodes.links (Cnodes.init ["a"; "b"; "c"]) [("a", "b")] = Ok c /\
    NoDup (all_nodes (mkGraph c "horizontal" [])) /\
    exists t, t ∈ all_nodes (mkGraph c "horizontal" []) /\ "b" ∈ t /\
              forall u, u ∈ all_nodes (mkGraph c "horizontal" []) -> "b" ∈ u -> u = t.
Proof.
  eexists. split; [vm_compute; reflexivity|].
  match goal with
  | |- context [mkGraph ?c _ _] =>
      assert (Hc : Cnodes.links (Cnodes.init ["a"; "b"; "c"]) [("a", "b")] = Ok c)
        by (vm_compute; reflexivity);
      pose proof (all_nodes_partition "horizontal" ["a"; "b"; "c"] [("a", "b")] c Hc)
        as (H1 & _ & H3)
  end.
  split; [exact H1|]. apply H3. right. left.
Defined.

(** ** Graph: the dict that [add] builds *)

Lemma deref_add_node n its k : deref (add_node n its) k = deref its k.
Proof.
  unfold add_node. destruct (contains its n) eqn:Hc; [done|].
  unfold deref. rewrite lookup_key_app. destruct (lookup_key k its); [done|].
  simpl. destruct (decide (k = n)) as [->|]; done.
Qed.

Lemma NoDup_keys_add_node n its : NoDup (keys its) -> NoDup (keys (add_node n its)).
Proof.
  intros H. rewrite keys_add_node. unfold contains. case_bool_decide as Hn; [done|].
  apply NoDup_app. split; [done|]. split; [|apply NoDup_singleton].
  intros k Hk Hk'. apply list_elem_of_singleton in Hk' as ->.
  apply Hn. by apply is_Some_lookup_key.
Qed.

Lemma graph_wf_nil : graph_wf [].
Proof.
  split; try done.
  - constructor.
  - intros k e H. by apply elem_of_nil in H.
  - intros k e H. by apply elem_of_nil in H.
  - intros e. split; intros H; by apply elem_of_nil in H.
Qed.

Lemma graph_wf_add_node n its : graph_wf its -> graph_wf (add_node n its).
Proof.
  intros [H1 H2 H3 H4 H5]. split.
  - by apply NoDup_keys_add_node.
  - intros k. by rewrite deref_add_node.
  - intros k e. rewrite deref_add_node. intros He.
    destruct (H3 k e He). split; [done|]. apply elem_of_keys_add_node. by left.
  - intros k e. rewrite deref_add_node. intros He.
    destruct (H4 k e He). split; [done|]. apply elem_of_keys_add_node. by left.
  - intros e. rewrite !deref_add_node. apply H5.
Qed.

(** The node stored under [k] after [add_edges(node1, node2, ...)]. *)
Lemma deref_add_edges k1 k2 sz st its k :
  k1 ∈ keys its -> k2 ∈ keys its ->
  let nd := deref its k in
  let nd1 := if decide (k = k1) then add_fedge (mkGedge k1 k2 sz st) nd else nd in
  deref (add_edges k1 k2 sz st its) k =
  if decide (k = k2) then add_redge (mkGedge k2 k1 sz st) nd1 else nd1.
Proof.
  intros Hk1 Hk2. simpl. unfold add_edges.
  destruct (decide (k = k2)) as [->|Hne2].
  - rewrite deref_modify_eq by (apply is_Some_lookup_key; by rewrite keys_modify).
    destruct (decide (k2 = k1)) as [->|Hne1].
    + by rewrite deref_modify_eq by (by apply is_Some_lookup_key).
    + by rewrite deref_modify_ne.
  - rewrite deref_modify_ne by done.
    destruct (decide (k = k1)) as [->|Hne1].
    + by rewrite deref_modify_eq by (by apply is_Some_lookup_key).
    + by rewrite deref_modify_ne.
Qed.

Lemma fedges_add_edges k1 k2 sz st its k e :
  k1 ∈ keys its -> k2 ∈ keys its ->
  e ∈ fedges (deref (add_edges k1 k2 sz st its) k) <->
  e ∈ fedges (deref its k) \/ (k = k1 /\ e = mkGedge k1 k2 sz st).
Proof.
  intros Hk1 Hk2. rewrite (deref_add_edges k1 k2 sz st its k Hk1 Hk2).
  destruct (decide (k = k2)), (decide (k = k1)); simpl;
    rewrite ?elem_of_app, ?list_elem_of_singleton; intuition congruence.
Qed.

Lemma redges_add_edges k1 k2 sz st its k e :
  k1 ∈ keys its -> k2 ∈ keys its ->
  e ∈ redges (deref (add_edges k1 k2 sz st its) k) <->
  e ∈ redges (deref its k) \/ (k = k2 /\ e = mkGedge k2 k1 sz st).
Proof.
  intros Hk1 Hk2. rewrite (deref_add_edges k1 k2 sz st its k Hk1 Hk2).
  destruct (decide (k = k2)), (decide (k = k1)); simpl;
    rewrite ?elem_of_app, ?list_elem_of_singleton; intuition congruence.
Qed.

Lemma name_add_edges k1 k2 sz st its k :
  k1 ∈ keys its -> k2 ∈ keys its ->
  name (deref (add_edges k1 k2 sz st its) k) = name (deref its k).
Proof.
  intros Hk1 Hk2. rewrite (deref_add_edges k1 k2 sz st its k Hk1 Hk2).
  by destruct (decide (k = k2)), (decide (k = k1)).
Qed.

Lemma graph_wf_add_edges k1 k2 sz st its :
  k1 ∈ keys its -> k2 ∈ keys its ->
  graph_wf its -> graph_wf (add_edges k1 k2 sz st its).
Proof.
  intros Hk1 Hk2 [H1 H2 H3 H4 H5]. split.
  - by rewrite keys_add_edges.
  - intros k. by rewrite name_add_edges.
  - intros k e. rewrite fedges_add_edges, keys_add_edges by done.
    intros [He|[-> ->]]; [by apply H3 | done].
  - intros k e. rewrite redges_add_edges, keys_add_edges by done.
    intros [He|[-> ->]]; [by apply H4 | done].
  - intros e. rewrite fedges_add_edges, redges_add_edges by done.
    rewrite H5. destruct e as [f t s b]. unfold reverse_edge. simpl.
    split; (intros [H|[Hk He]]; [by left | right]).
    + injection He as -> -> -> ->. done.
    + injection He as -> -> -> ->. done.
Qed.

Lemma add_wf g n1 n2 sz st :
  graph_wf (items g) -> graph_wf (items (add g n1 n2 sz st)).
Proof.
  intros Hg. unfold add. destruct (Qeq_bool sz 0); [done|].
  destruct (Qlt_le_dec sz 0); simpl;
    (apply graph_wf_add_edges;
     [apply elem_of_keys_add_node; left; apply elem_of_keys_add_node; by right
     |apply elem_of_keys_add_node; by right
     |by apply graph_wf_add_node, graph_wf_add_node]).
Qed.

Lemma add_calls_wf calls g :
  graph_wf (items g) -> graph_wf (items (add_calls g calls)).
Proof.
  unfold add_calls. revert g.
  induction calls as [|[[[n1 n2] v] st] calls IH]; intros g Hg; simpl; [done|].
  apply IH. by apply add_wf.
Qed.

Lemma add_start_loop_keys s e nodes its :
  keys (add_start_loop s e nodes its) = keys its.
Proof.
  revert its. induction nodes as [|k nodes IH]; intros its; simpl; [done|].
  rewrite IH. repeat case_bool_decide; by rewrite ?keys_add_edges.
Qed.

Lemma add_start_loop_wf s e nodes its :
  s ∈ keys its -> e ∈ keys its -> (forall k, k ∈ nodes -> k ∈ keys its) ->
  graph_wf its -> graph_wf (add_start_loop s e nodes its).
Proof.
  revert its. induction nodes as [|k nodes IH]; intros its Hs He Hsub H; simpl; [done|].
  assert (Hk : k ∈ keys its) by (apply Hsub; left).
  apply IH.
  - repeat case_bool_decide; by rewrite ?keys_add_edges.
  - repeat case_bool_decide; by rewrite ?keys_add_edges.
  - intros k' Hk'. repeat case_bool_decide; rewrite ?keys_add_edges;
      apply Hsub; by right.
  - repeat case_bool_decide; repeat apply graph_wf_add_edges;
      rewrite ?keys_add_edges; done.
Qed.

Lemma add_start_nodes_wf g g' :
  add_start_nodes g = Ok g' -> graph_wf (items g) -> graph_wf (items g').
Proof.
  unfold add_start_nodes. destruct (contains (items g) start).
  - by intros [= <-].
  - destruct (getitem _ start) as [s| |] eqn:Hs; cbn [rbind]; [|done..].
    destruct (getitem _ end_) as [e| |] eqn:He; cbn [rbind]; [|done..].
    intros [= <-] Hg. simpl.
    apply getitem_Ok in Hs as [_ Hs]. apply getitem_Ok in He as [_ He].
    simpl in Hs, He.
    apply add_start_loop_wf; [|done| |].
    + apply elem_of_keys_add_node. by left.
    + intros k Hk. apply elem_of_keys_add_node. left.
      apply elem_of_keys_add_node. by left.
    + by apply graph_wf_add_node, graph_wf_add_node.
Qed.

(** X4.  Whatever the table of common nodes and the sequence of [add] calls,
    the dict has no key twice, every node is stored under its name, the edges
    a node holds start at it and end at a node of the dict, and the forward
    edges of the sources are, reversed, the reverse edges of the targets.
    [add_start_nodes], when it returns, keeps all of this. *)
Theorem built_graph_wf (c : gmap string (list string)) (nm : string)
    (calls : list (string * string * Q * bool)) :
  graph_wf (items (add_calls (mkGraph c nm []) calls)) /\
  forall g', add_start_nodes (add_calls (mkGraph c nm []) calls) = Ok g' ->
             graph_wf (items g').
Proof.
  assert (H : graph_wf (items (add_calls (mkGraph c nm []) calls)))
    by (apply add_calls_wf, graph_wf_nil).
  split; [done|]. intros g' Hg'. by eapply add_start_nodes_wf.
Qed.

(** ** add_start_nodes *)

Lemma fedges_nonempty_add_edges k1 k2 sz st its k :
  k1 ∈ keys its -> k2 ∈ keys its ->
  fedges (deref its k) <> [] -> fedges (deref (add_edges k1 k2 sz st its) k) <> [].
Proof.
  intros Hk1 Hk2 H. destruct (fedges (deref its k)) as [|e l] eqn:E; [done|].
  assert (He : e ∈ fedges (deref (add_edges k1 k2 sz st its) k)).
  { apply fedges_add_edges; [done..|]. left. rewrite E. left. }
  intros Hnil. rewrite Hnil in He. by apply elem_of_nil in He.
Qed.

Lemma redges_nonempty_add_edges k1 k2 sz st its k :
  k1 ∈ keys its -> k2 ∈ keys its ->
  redges (deref its k) <> [] -> redges (deref (add_edges k1 k2 sz st its) k) <> [].
Proof.
  intros Hk1 Hk2 H. destruct (redges (deref its k)) as [|e l] eqn:E; [done|].
  assert (He : e ∈ redges (deref (add_edges k1 k2 sz st its) k)).
  { apply redges_add_edges; [done..|]. left. rewrite E. left. }
  intros Hnil. rewrite Hnil in He. by apply elem_of_nil in He.
Qed.

Lemma fedges_source_add_edges k1 k2 sz st its :
  k1 ∈ keys its -> k2 ∈ keys its ->
  fedges (deref (add_edges k1 k2 sz st its) k1) <> [].
Proof.
  intros Hk1 Hk2 Hnil.
  assert (He : mkGedge k1 k2 sz st ∈ fedges (deref (add_edges k1 k2 sz st its) k1))
    by (apply fedges_add_edges; [done..|]; by right).
  rewrite Hnil in He. by apply elem_of_nil in He.
Qed.

Lemma redges_target_add_edges k1 k2 sz st its :
  k1 ∈ keys its -> k2 ∈ keys its ->
  redges (deref (add_edges k1 k2 sz st its) k2) <> [].
Proof.
  intros Hk1 Hk2 Hnil.
  assert (He : mkGedge k2 k1 sz st ∈ redges (deref (add_edges k1 k2 sz st its) k2))
    by (apply redges_add_edges; [done..|]; by right).
  rewrite Hnil in He. by apply elem_of_nil in He.
Qed.

(** One turn of the loop of [add_start_nodes] only adds edges, and leaves the
    node it handles with an edge on either side. *)
Lemma add_start_loop_attached s e nodes its k :
  s ∈ keys its -> e ∈ keys its -> (forall k', k' ∈ nodes -> k' ∈ keys its) ->
  (k ∈ nodes \/
   (fedges (deref its k) <> [] /\ redges (deref its k) <> [])) ->
  fedges (deref (add_start_loop s e nodes its) k) <> [] /\
  redges (deref (add_start_loop s e nodes its) k) <> [].
Proof.
  revert its. induction nodes as [|k0 nodes IH]; intros its Hs He Hsub Hk; simpl.
  - destruct Hk as [Hk|Hk]; [by apply elem_of_nil in Hk | done].
  - assert (Hk0 : k0 ∈ keys its) by (apply Hsub; left).
    set (its1 := if bool_decide (redges (deref its k0) = [])
                 then add_edges s k0 0 false its else its).
    set (its2 := if bool_decide (fedges (deref its1 k0) = [])
                 then add_edges k0 e 0 false its1 else its1).
    assert (K1 : keys its1 = keys its)
      by (unfold its1; case_bool_decide; by rewrite ?keys_add_edges).
    assert (K2 : keys its2 = keys its)
      by (unfold its2; case_bool_decide; by rewrite ?keys_add_edges, ?K1).
    assert (M1 : forall k', (fedges (deref its k') <> [] -> fedges (deref its1 k') <> [])
                         /\ (redges (deref its k') <> [] -> redges (deref its1 k') <> [])).
    { intros k'. unfold its1. case_bool_decide; [|done]. split.
      - by apply fedges_nonempty_add_edges.
      - by apply redges_nonempty_add_edges. }
    assert (M2 : forall k', (fedges (deref its1 k') <> [] -> fedges (deref its2 k') <> [])
                         /\ (redges (deref its1 k') <> [] -> redges (deref its2 k') <> [])).
    { intros k'. unfold its2. case_bool_decide; [|done]. split.
      - apply fedges_nonempty_add_edges; by rewrite K1.
      - apply redges_nonempty_add_edges; by rewrite K1. }
    assert (R1 : redges (deref its1 k0) <> []).
    { unfold its1. case_bool_decide as Hr; [|done].
      by apply redges_target_add_edges. }
    assert (F2 : fedges (deref its2 k0) <> []).
    { unfold its2. case_bool_decide as Hf; [|done].
      apply fedges_source_add_edges; by rewrite K1. }
    apply IH; rewrite ?K2; try done.
    + intros k' Hk'. apply Hsub. by right.
    + destruct Hk as [Hk|[Hf Hr]].
      * apply elem_of_cons in Hk as [->|Hk]; [|by left].
        right. split; [done|]. by apply M2.
      * right. split; [by apply M2, M1 | by apply M2, M1].
Qed.

(** X5.  When [add_start_nodes] returns on a graph that had no ['start']
    node, every node that was in the dict has at least one forward and one
    reverse edge afterwards; the table of common nodes is untouched; and a
    second call changes nothing. *)
Theorem add_start_nodes_attaches (g g' : Graph)
    (H : add_start_nodes g = Ok g') :
  cnodes g' = cnodes g /\
  add_start_nodes g' = Ok g' /\
  (start ∉ keys (items g) ->
   forall k, k ∈ keys (items g) ->
             fedges (deref (items g') k) <> [] /\ redges (deref (items g') k) <> []).
Proof.
  revert H. unfold add_start_nodes at 1. unfold contains.
  case_bool_decide as Hc.
  - intros [= <-]. split; [done|]. split.
    + unfold add_start_nodes, contains. by rewrite bool_decide_true.
    + intros Hs. exfalso. by apply Hs, is_Some_lookup_key.
  - destruct (getitem _ start) as [s| |] eqn:Hs; cbn [rbind]; [|done..].
    destruct (getitem _ end_) as [e| |] eqn:He; cbn [rbind]; [|done..].
    intros [= <-]. simpl. split; [done|].
    apply getitem_Ok in Hs as [_ Hs]. apply getitem_Ok in He as [_ He].
    simpl in Hs, He.
    assert (Hs' : s ∈ keys (add_node end_ (add_node start (items g))))
      by (apply elem_of_keys_add_node; by left).
    assert (Hsub : forall k, k ∈ keys (items g) ->
                             k ∈ keys (add_node end_ (add_node start (items g)))).
    { intros k Hk. apply elem_of_keys_add_node. left.
      apply elem_of_keys_add_node. by left. }
    split.
    + unfold add_start_nodes, contains. simpl. rewrite bool_decide_true; [done|].
      apply is_Some_lookup_key. rewrite add_start_loop_keys.
      apply elem_of_keys_add_node. left. apply elem_of_keys_add_node. by right.
    + intros _ k Hk. apply add_start_loop_attached; try done. by left.
Qed.

Lemma add_start_nodes_attaches_witness :
  exists g',
    add_start_nodes rigid_chain = Ok g' /\
    add_start_nodes g' = Ok g' /\
    fedges (deref (items g') (Tuple ["b"])) <> [] /\
    redges (deref (items g') (Tuple ["d"])) <> [].
Proof.
  eexists. split; [vm_compute; reflexivity|].
  match goal with
  | |- context [add_start_nodes ?g' = Ok ?g'] =>
      assert (H : add_start_nodes rigid_chain = Ok g') by (vm_compute; reflexivity);
      destruct (add_start_nodes_attaches rigid_chain g' H) as (_ & H2 & H3)
  end.
  split; [exact H2|].
  assert (Hs : start ∉ keys (items rigid_chain)).
  { vm_compute. intros Hin.
    repeat (apply elem_of_cons in Hin as [Hin|Hin]; [discriminate|]).
    by apply elem_of_nil in Hin. }
  split.
  - apply (H3 Hs (Tuple ["b"])). vm_compute. right. left.
  - apply (H3 Hs (Tuple ["d"])). vm_compute. do 3 right. left.
Defined.

(** X6.  On a graph without a ['start'] node, [add_start_nodes] returns as
    soon as neither ['start'] nor ['end'] is a name of [cnodes]; when
    ['start'] is such a name and its common node is not in the dict, the call
    ends in a [KeyError] on that tuple. *)
Theorem add_start_nodes_reserved (g : Graph)
    (Hs : start ∉ keys (items g)) :
  (cnodes g !! "start" = None -> cnodes g !! "end" = None ->
   exists g', add_start_nodes g = Ok g' /\
              keys (items g') = keys (add_node end_ (add_node start (items g)))) /\
  (forall t, cnodes g !! "start" = Some t -> Tuple t ∉ keys (items g) ->
             add_start_nodes g = Raise (KeyError (Tuple t))).
Proof.
  assert (Hc : contains (items g) start = false).
  { unfold contains. apply bool_decide_eq_false. by rewrite is_Some_lookup_key. }
  split.
  - intros H1 H2. unfold add_start_nodes. rewrite Hc.
    unfold getitem at 1. simpl. rewrite H1. unfold contains at 1.
    rewrite bool_decide_true
      by (apply is_Some_lookup_key, elem_of_keys_add_node; by right).
    cbn [rbind]. unfold getitem at 1. simpl. rewrite H2. unfold contains at 1.
    rewrite bool_decide_true
      by (apply is_Some_lookup_key, elem_of_keys_add_node; by right).
    cbn [rbind]. eexists. split; [done|]. simpl. apply add_start_loop_keys.
  - intros t H1 Ht. unfold add_start_nodes. rewrite Hc.
    unfold getitem at 1. simpl. rewrite H1. unfold contains at 1.
    rewrite bool_decide_false; [done|].
    rewrite is_Some_lookup_key, elem_of_keys_add_node. intros [?|?]; done.
Qed.

Lemma add_start_nodes_reserved_witness :
  (exists g', add_start_nodes rigid_chain = Ok g' /\
              keys (items g') =
              keys (add_node end_ (add_node start (items rigid_chain)))) /\
  add_start_nodes (Graph_init "vertical" ["start"; "b"])
  = Raise (KeyError (Tuple ["start"])).
Proof.
  assert (Hs : start ∉ keys (items rigid_chain)).
  { vm_compute. intros Hin.
    repeat (apply elem_of_cons in Hin as [Hin|Hin]; [discriminate|]).
    by apply elem_of_nil in Hin. }
  split.
  - apply (proj1 (add_start_nodes_reserved rigid_chain Hs)); vm_compute; reflexivity.
  - apply (proj2 (add_start_nodes_reserved (Graph_init "vertical" ["start"; "b"])
                    (not_elem_of_nil _)) ["start"]).
    + vm_compute. reflexivity.
    + apply not_elem_of_nil.
Defined.

(** ** Longest paths: the distances found *)

Lemma path_snoc its x y len e :
  path its x y len -> e ∈ fedges (deref its y) ->
  exists len', path its x (to_node e) len' /\ (len' == len + size e)%Q.
Proof.
  intros Hp He. induction Hp as [k|k e0 v len He0 _ IH].
  - exists (size e + 0)%Q. split; [|lra].
    apply path_cons; [done | apply path_nil].
  - destruct (IH He) as (len' & Hp' & Hlen).
    exists (size e0 + len')%Q. split; [by apply path_cons | lra].
Qed.

Lemma path_nonneg its x y len :
  edges_nonneg its -> path its x y len -> (0 <= len)%Q.
Proof.
  intros Hnn. induction 1 as [k|k e v len He _ IH]; [lra|].
  pose proof (fedges_nonneg _ _ _ Hnn He). lra.
Qed.

Lemma fedges_present its k e : e ∈ fedges (deref its k) -> k ∈ keys its.
Proof.
  unfold deref. intros He. apply is_Some_lookup_key.
  destruct (lookup_key k its); [eauto | by apply elem_of_nil in He].
Qed.

Lemma prev_relax_other node e d s k :
  k <> to_node e -> prev (deref (relax node e d s) k) = prev (deref s k).
Proof.
  intros Hne. unfold relax, deref. rewrite !lookup_key_modify.
  repeat case_decide; subst; try done; by destruct (lookup_key _ s).
Qed.

Section Sound.
Variables (its : list (gkey * Gnode)) (root : gkey).
Hypothesis Hclosed : closed_out its.
Hypothesis Hnonneg : edges_nonneg its.

Lemma reached_nonneg s k : reached its root s k -> (0 <= dist (deref s k))%Q.
Proof.
  intros (len & Hp & Hd). pose proof (path_nonneg _ _ _ _ Hnonneg Hp).
  rewrite Hd. done.
Qed.

Lemma sound_relax s node e :
  frame its s -> sound its root s -> reached its root s node ->
  e ∈ fedges (deref its node) ->
  let s1 := relax node e (dist (deref s node) + size e)%Q s in
  sound its root s1 /\ reached its root s1 (to_node e).
Proof.
  intros F Hs Hn He s1.
  assert (Hv : to_node e ∈ keys s).
  { destruct F as [-> _]. by apply (Hclosed node). }
  assert (Hr : reached its root s1 (to_node e)).
  { destruct Hn as (len & Hp & Hd).
    destruct (path_snoc _ _ _ _ _ Hp He) as (len' & Hp' & Hlen).
    exists len'. split; [done|]. unfold s1. rewrite dist_relax_target by done.
    rewrite Hd, Hlen. reflexivity. }
  split; [|done].
  intros k Hk. unfold s1 in Hk. rewrite keys_relax in Hk.
  destruct (decide (k = to_node e)) as [->|Hne]; [by right|].
  destruct (Hs k Hk) as [[H1 H2]|(len & Hp & Hd)].
  - left. unfold s1. by rewrite dist_relax_other, prev_relax_other.
  - right. exists len. split; [done|]. unfold s1. by rewrite dist_relax_other.
Qed.

(** The loop keeps the state sound, provided the recursive call does. *)
Lemma relax_loop_sound rec node :
  (forall k s s', rec k s = Ok s' -> frame s s') ->
  (forall k s s' x, rec k s = Ok s' ->
                    (dist (deref s x) <= dist (deref s' x))%Q) ->
  (forall k s s', frame its s -> sound its root s -> reached its root s k ->
                  rec k s = Ok s' -> sound its root s') ->
  forall edges s s',
    (forall e, e ∈ edges -> e ∈ fedges (deref its node)) ->
    frame its s -> sound its root s -> reached its root s node ->
    relax_loop rec node edges s = Ok s' -> sound its root s'.
Proof.
  intros Hframe Hmono Hrec.
  induction edges as [|e rest IH]; intros s s' Hsub F Hs Hn; simpl.
  - by intros [= <-].
  - assert (He : e ∈ fedges (deref its node)) by (apply Hsub; left).
    assert (Hrest : forall e', e' ∈ rest -> e' ∈ fedges (deref its node))
      by (intros e' He'; apply Hsub; by right).
    destruct (Qlt_le_dec _ _) as [Hlt|_]; [|by apply IH].
    destruct (rec _ _) as [s2| |] eqn:Hs2; cbn [rbind]; [|done..].
    destruct (sound_relax s node e F Hs Hn He) as [Hs1 Hr1].
    pose proof (frame_relax node e (dist (deref s node) + size e)%Q s) as F1.
    pose proof (frame_trans _ _ _ F F1) as F1'.
    pose proof (Hrec _ _ _ F1' Hs1 Hr1 Hs2) as Hsound2.
    pose proof (frame_trans _ _ _ F1' (Hframe _ _ _ Hs2)) as F2.
    apply IH; try done.
    assert (Hk : node ∈ keys s2).
    { destruct F2 as [-> _]. by eapply fedges_present. }
    destruct (Hsound2 node Hk) as [[Hneg _]|Hreach]; [|done].
    exfalso.
    pose proof (reached_nonneg _ _ Hn) as H0.
    pose proof (dist_relax_le node e (dist (deref s node) + size e)%Q s node Hlt) as H1.
    pose proof (Hmono _ _ _ node Hs2) as H2.
    rewrite Hneg in H2. lra.
Qed.

Lemma traverse_sound depth node s s' :
  frame its s -> sound its root s -> reached its root s node ->
  traverse depth node s = Ok s' -> sound its root s'.
Proof.
  revert node s s'. induction depth as [|depth IH]; intros node s s' F Hs Hn; simpl;
    [done|].
  apply (relax_loop_sound (traverse depth) node); try done.
  - intros k s1 s2. apply traverse_frame.
  - intros k s1 s2 x H. by eapply traverse_dist_mono.
  - intros e He. by rewrite <- (frame_fedges _ _ _ F).
Qed.
End Sound.

(** When [longest_forward_path] returns, every edge out of a reached node is
    relaxed and the root is not below 0. *)
Lemma longest_forward_path_settled limit g root g' :
  edges_closed (items g) -> edges_nonneg (items g) -> root ∈ keys (items g) ->
  longest_forward_path limit g root = Ok g' ->
  frame (items g) (items g') /\
  (forall k e, e ∈ fedges (deref (items g') k) -> settled true (items g') k e) /\
  sound (items g) root (items g') /\
  (0 <= dist (deref (items g') root))%Q.
Proof.
  intros Hclosed Hnonneg Hroot. unfold longest_forward_path.
  set (s0 := modify root (set_dist 0) (reset (items g))).
  assert (F0 : frame (items g) s0).
  { eapply frame_trans; [apply frame_reset|].
    apply (frame_modify root (set_dist 0)). by intros []. }
  destruct (traverse limit root s0) as [s'|[]|] eqn:Ht; try done.
  intros [= <-]. simpl.
  pose proof (edges_closed_out _ Hclosed) as Hc.
  pose proof (closed_out_frame _ _ F0 Hc) as Hc0.
  destruct (traverse_settled limit root s0 s' Hc0 Ht) as (F & C & D).
  assert (Hroot0 : dist (deref s0 root) = 0%Q).
  { unfold s0. rewrite deref_modify_eq; [done|].
    apply is_Some_lookup_key. by rewrite keys_reset. }
  assert (Hother : forall k, k <> root -> k ∈ keys (items g) ->
                             dist (deref s0 k) = (-1)%Q).
  { intros k Hk Hin. unfold s0. rewrite deref_modify_ne by done.
    unfold deref. rewrite lookup_key_reset.
    apply is_Some_lookup_key in Hin as [nd ->]. done. }
  split; [by eapply frame_trans|]. split; [|split].
  - intros k e He. rewrite (frame_fedges _ _ _ F) in He.
    destruct (decide (k = root)) as [->|Hk]; [right; by apply C|].
    apply D; [done|]. left. split; [done|].
    rewrite Hother; [done..|].
    destruct F0 as [<- _]. by eapply fedges_present.
  - apply (traverse_sound (items g) root Hc Hnonneg limit root s0 s' F0); [| |done].
    + intros k Hk. destruct (decide (k = root)) as [->|Hne].
      * right. exists 0%Q. split; [apply path_nil | by rewrite Hroot0].
      * left. split; [rewrite Hother; [done..|]; by destruct F0 as [<- _]|].
        unfold s0. rewrite deref_modify_ne by done.
        unfold deref. rewrite lookup_key_reset. by destruct (lookup_key k (items g)).
    + exists 0%Q. split; [apply path_nil | by rewrite Hroot0].
  - pose proof (traverse_dist_mono _ _ _ _ root Ht) as H. by rewrite Hroot0 in H.
Qed.

(** The distances that [longest_forward_path] leaves behind. *)
Lemma longest_forward_path_dists limit g root g' :
  edges_closed (items g) -> edges_nonneg (items g) -> root ∈ keys (items g) ->
  longest_forward_path limit g root = Ok g' ->
  (dist (deref (items g') root) == 0)%Q /\
  forall k, k ∈ keys (items g) ->
    (((dist (deref (items g') k) == -1)%Q /\ prev (deref (items g') k) = None) /\
     forall len, ~ path (items g) root k len) \/
    ((exists len, path (items g) root k len /\
                  (dist (deref (items g') k) == len)%Q) /\
     forall len, path (items g) root k len ->
                 (len <= dist (deref (items g') k))%Q).
Proof.
  intros Hclosed Hnonneg Hroot Hrun.
  destruct (longest_forward_path_settled _ _ _ _ Hclosed Hnonneg Hroot Hrun)
    as (F & Hset & Hsound & Hge).
  assert (Hfe : forall k, fedges (deref (items g') k) = fedges (deref (items g) k)).
  { intros k. by apply frame_fedges. }
  assert (Hpath : forall k len, path (items g) root k len ->
            (0 <= dist (deref (items g') root))%Q ->
            (dist (deref (items g') root) + len <= dist (deref (items g') k))%Q).
  { intros k len Hp H0.
    apply (path_settled (items g) (items g') _ _ _ Hp Hnonneg Hfe Hset H0). }
  assert (Hkeys : keys (items g') = keys (items g)) by (by destruct F as [<- _]).
  assert (Hr : reached (items g) root (items g') root).
  { destruct (Hsound root) as [[Hneg _]|Hr]; [by rewrite Hkeys| |done].
    exfalso. rewrite Hneg in Hge. lra. }
  pose proof (reached_nonneg _ _ Hnonneg _ _ Hr) as H0.
  assert (Hroot0 : (dist (deref (items g') root) == 0)%Q).
  { destruct Hr as (len & Hp & Hd).
    pose proof (Hpath _ _ Hp H0). pose proof (path_nonneg _ _ _ _ Hnonneg Hp).
    lra. }
  split; [done|].
  intros k Hk. rewrite <- Hkeys in Hk.
  destruct (Hsound k Hk) as [[Hneg Hprev]|Hreach].
  - left. split; [done|]. intros len Hp.
    pose proof (Hpath _ _ Hp H0). pose proof (path_nonneg _ _ _ _ Hnonneg Hp).
    lra.
  - right. split; [done|]. intros len Hp.
    pose proof (Hpath _ _ Hp H0). lra.
Qed.


(** X7.  When [longest_forward_path] returns on a graph whose edges have
    sizes of at least 0 and stay inside the graph, the working distance of
    the root is 0; a node that no path from the root reaches keeps -1; and
    the working distance of every other node is the length of a path from
    the root and no path from the root to it is longer. *)
Theorem longest_forward_path_longest limit g root g' :
  edges_closed (items g) -> edges_nonneg (items g) -> root ∈ keys (items g) ->
  longest_forward_path limit g root = Ok g' ->
  (dist (deref (items g') root) == 0)%Q /\
  forall k, k ∈ keys (items g) ->
    ((dist (deref (items g') k) == -1)%Q /\
     forall len, ~ path (items g) root k len) \/
    ((exists len, path (items g) root k len /\
                  (dist (deref (items g') k) == len)%Q) /\
     forall len, path (items g) root k len ->
                 (len <= dist (deref (items g') k))%Q).
Proof.
  intros Hclosed Hnonneg Hroot Hrun.
  destruct (longest_forward_path_dists _ _ _ _ Hclosed Hnonneg Hroot Hrun)
    as [H0 Hall].
  split; [done|]. intros k Hk.
  destruct (Hall k Hk) as [[[Hneg _] Hno]|Hr]; [by left | by right].
Qed.

Lemma longest_forward_path_longest_witness :
  exists g',
    longest_forward_path 10 rigid_chain (Tuple ["a"]) = Ok g' /\
    (dist (deref (items g') (Tuple ["a"])) == 0)%Q /\
    forall len, path (items rigid_chain) (Tuple ["a"]) (Tuple ["b"]) len ->
                (len <= dist (deref (items g') (Tuple ["b"])))%Q.
Proof.
  eexists. split; [vm_compute; reflexivity|].
  match goal with
  | |- context [deref (items ?g') (Tuple ["a"])] =>
      assert (H : longest_forward_path 10 rigid_chain (Tuple ["a"]) = Ok g')
        by (vm_compute; reflexivity);
      assert (Hc : edges_closed (items rigid_chain))
        by (repeat apply add_closed; apply Graph_init_closed);
      assert (Hn : edges_nonneg (items rigid_chain))
        by (repeat apply add_nonneg; apply Graph_init_nonneg);
      assert (Hr : Tuple ["a"] ∈ keys (items rigid_chain))
        by (vm_compute; left);
      destruct (longest_forward_path_longest 10 rigid_chain (Tuple ["a"]) g'
                  Hc Hn Hr H) as [H0 Hall]
  end.
  split; [exact H0|].
  assert (Hb : Tuple ["b"] ∈ keys (items rigid_chain)) by (vm_compute; right; left).
  intros len Hp. destruct (Hall _ Hb) as [[_ Hno]|[_ Hmax]].
  - destruct (Hno _ Hp).
  - exact (Hmax _ Hp).
Defined.

(** X8.  How the two path searches can fail.  [longest_forward_path] always
    comes back: with the graph, or with the one exception that names the graph
    and lists its nodes.  [longest_path_to_known] catches nothing: it comes
    back with the graph or with the interpreter's recursion error. *)
Theorem path_search_errors limit g root :
  longest_forward_path limit g root <> Diverge /\
  (forall e, longest_forward_path limit g root = Raise e ->
             e = WrongNode (gname g) (keys (items g))) /\
  forall forward,
    longest_path_to_known limit g root forward <> Diverge /\
    forall e, longest_path_to_known limit g root forward = Raise e ->
              e = RecursionDepth.
Proof.
  split; [|split].
  - unfold longest_forward_path.
    destruct (traverse _ _ _) as [s|e|] eqn:Hs; [done| |].
    + by destruct e.
    + by destruct (proj1 (traverse_stops _ _ _) Hs).
  - intros e. unfold longest_forward_path.
    destruct (traverse _ _ _) as [s|e0|] eqn:Hs; [done| |done].
    rewrite (proj2 (traverse_stops _ _ _) _ Hs). by intros [= <-].
  - intros forward. split.
    + unfold longest_path_to_known.
      destruct (traverse_known _ _ _ _) as [s|e|] eqn:Hs; cbn [rbind]; [done..|].
      by destruct (proj1 (traverse_known_stops _ _ _ _) Hs).
    + intros e. apply longest_path_to_known_raises.
Qed.

(** X9.  What the path searches leave alone: the keys of the dict, the table
    of common nodes, the graph's name and, at every node, the edge lists and
    the known distance.  Only [dist], [prev] and [next] are working fields. *)
Theorem path_search_frame limit g root g' :
  (longest_forward_path limit g root = Ok g' \/
   exists forward, longest_path_to_known limit g root forward = Ok g') ->
  keys (items g') = keys (items g) /\ cnodes g' = cnodes g /\
  gname g' = gname g /\
  forall k, known_dist (deref (items g') k) = known_dist (deref (items g) k) /\
            fedges (deref (items g') k) = fedges (deref (items g) k) /\
            redges (deref (items g') k) = redges (deref (items g) k).
Proof.
  intros [H|[forward H]].
  - by destruct (longest_forward_path_frame _ _ _ _ H) as ([? ?] & ? & ?).
  - by destruct (longest_path_to_known_frame _ _ _ _ _ H) as ([? ?] & ? & ?).
Qed.

Lemma path_search_frame_witness :
  exists g',
    longest_path_to_known 10 rigid_chain (Tuple ["a"]) true = Ok g' /\
    keys (items g') = keys (items rigid_chain) /\
    fedges (deref (items g') (Tuple ["a"])) =
    fedges (deref (items rigid_chain) (Tuple ["a"])).
Proof.
  eexists. split; [vm_compute; reflexivity|].
  match goal with
  | |- context [deref (items ?g') (Tuple ["a"])] =>
      assert (H : longest_path_to_known 10 rigid_chain (Tuple ["a"]) true = Ok g')
        by (vm_compute; reflexivity);
      destruct (path_search_frame 10 rigid_chain (Tuple ["a"]) g'
                  (or_intror (ex_intro _ true H))) as (Hk & _ & _ & Hall)
  end.
  split; [exact Hk|]. exact (proj1 (proj2 (Hall (Tuple ["a"])))).
Defined.

(** ** Graphs without cycles *)

Section Ranked.
Variables (its : list (gkey * Gnode)) (rank : gkey -> nat).
Hypothesis Hrank :
  forall k e, e ∈ fedges (deref its k) -> (rank (to_node e) < rank k)%nat.

Lemma relax_loop_returns rec node :
  (forall k s, (rank k < rank node)%nat -> frame its s ->
               exists s', rec k s = Ok s' /\ frame s s') ->
  forall edges s,
    (forall e, e ∈ edges -> e ∈ fedges (deref its node)) ->
    frame its s ->
    exists s', relax_loop rec node edges s = Ok s' /\ frame s s'.
Proof.
  intros Hrec. induction edges as [|e rest IH]; intros s Hsub F; simpl.
  - exists s. split; [done | apply frame_refl].
  - assert (He : e ∈ fedges (deref its node)) by (apply Hsub; left).
    assert (Hrest : forall e', e' ∈ rest -> e' ∈ fedges (deref its node))
      by (intros e' He'; apply Hsub; by right).
    destruct (Qlt_le_dec _ _) as [Hlt|_]; [|by apply IH].
    pose proof (frame_relax node e (dist (deref s node) + size e)%Q s) as F1.
    destruct (Hrec (to_node e) _ (Hrank _ _ He) (frame_trans _ _ _ F F1))
      as (s2 & -> & F2).
    cbn [rbind].
    destruct (IH s2 Hrest (frame_trans _ _ _ F (frame_trans _ _ _ F1 F2)))
      as (s3 & -> & F3).
    exists s3. split; [done|].
    exact (frame_trans _ _ _ F1 (frame_trans _ _ _ F2 F3)).
Qed.

Lemma traverse_returns depth : forall node s,
  (rank node < depth)%nat -> frame its s ->
  exists s', traverse depth node s = Ok s' /\ frame s s'.
Proof.
  induction depth as [|depth IH]; intros node s Hlt F; [lia|]. simpl.
  apply relax_loop_returns; [|by intros e; rewrite (frame_fedges _ _ _ F)|done].
  intros k s1 Hk F1. apply IH; [lia|done].
Qed.
End Ranked.

(** X10.  A graph without cycles is never reported: when the nodes can be
    ranked so that every edge leads to a node of lower rank, and the recursion
    limit is above the rank of the root, [longest_forward_path] returns. *)
Theorem longest_forward_path_acyclic limit g root (rank : gkey -> nat) :
  (forall k e, e ∈ fedges (deref (items g) k) ->
               (rank (to_node e) < rank k)%nat) ->
  (rank root < limit)%nat ->
  exists g', longest_forward_path limit g root = Ok g'.
Proof.
  intros Hrank Hlt. unfold longest_forward_path.
  set (s0 := modify root (set_dist 0) (reset (items g))).
  assert (F0 : frame (items g) s0).
  { eapply frame_trans; [apply frame_reset|].
    apply (frame_modify root (set_dist 0)). by intros []. }
  destruct (traverse_returns (items g) rank Hrank limit root s0 Hlt F0)
    as (s' & -> & _).
  by eexists.
Qed.

Lemma longest_forward_path_acyclic_witness :
  exists g', longest_forward_path 3 rigid_chain (Tuple ["d"]) = Ok g'.
Proof.
  apply (longest_forward_path_acyclic 3 rigid_chain (Tuple ["d"])
           (fun k => if decide (k = Tuple ["d"]) then 2%nat
                     else if decide (k = Tuple ["b"]) then 0%nat else 1%nat)).
  - intros k e He. pose proof (fedges_present _ _ _ He) as Hk.
    vm_compute in Hk.
    repeat (apply elem_of_cons in Hk as [->|Hk];
            [vm_compute in He;
             repeat (apply elem_of_cons in He as [->|He]; [vm_compute; lia|]);
             by apply elem_of_nil in He|]).
    by apply elem_of_nil in Hk.
  - vm_compute. lia.
Defined.

(** ** The extent that [analyse] returns *)

Lemma canon_end c n : canon c n = end_ -> n = end_.
Proof.
  destruct n as [s|t]; simpl; [|done]. by destruct (c !! s).
Qed.

Lemma known_modify_other k f s k' :
  k' <> k -> known_dist (deref (modify k f s) k') = known_dist (deref s k').
Proof. intros Hne. by rewrite deref_modify_ne. Qed.

(** The walk back along [prev] copies [dist] into [known_dist] and changes
    nothing else; it starts only at a node that has a [prev]. *)
Lemma walk_back_known fuel : forall node its unknown its' unknown',
  walk_back fuel node its unknown = Ok (its', unknown') ->
  (forall k, dist (deref its' k) = dist (deref its k)) /\
  (forall k, known_dist (deref its' k) = known_dist (deref its k) \/
             known_dist (deref its' k) = Some (dist (deref its k))) /\
  (node <> start -> node ∈ keys its ->
   known_dist (deref its' node) = Some (dist (deref its node)) /\
   is_Some (prev (deref its node))).
Proof.
  induction fuel as [|fuel IH]; intros node its unknown its' unknown'; simpl.
  - destruct (decide (node = start)); [|done].
    intros [= <- <-]. split; [done|]. split; [by left|done].
  - destruct (decide (node = start)) as [Hs|Hs].
    { intros [= <- <-]. split; [done|]. split; [by left|done]. }
    set (f := fun nd => set_known_dist (Some (dist nd)) nd).
    set (its1 := modify node f its).
    assert (Hd1 : forall k, dist (deref its1 k) = dist (deref its k)).
    { intros k. apply dist_modify_keep. by intros []. }
    assert (Hp1 : prev (deref its1 node) = prev (deref its node)).
    { unfold its1, deref. rewrite lookup_key_modify. rewrite decide_True by done.
      by destruct (lookup_key node its) as [[]|]. }
    assert (Hk1 : node ∈ keys its ->
                  known_dist (deref its1 node) = Some (dist (deref its node))).
    { intros Hin. apply is_Some_lookup_key in Hin as [nd Hnd].
      unfold its1, deref. rewrite lookup_key_modify, decide_True, Hnd by done.
      by destruct nd. }
    destruct (prev (deref its1 node)) as [e|] eqn:He; [|done].
    intros H. apply IH in H as (A & B & _).
    split; [intros k; by rewrite A|]. split.
    + intros k. destruct (B k) as [->| ->].
      * destruct (decide (k = node)) as [->|Hne].
        -- destruct (decide (node ∈ keys its)) as [Hin|Hout].
           ++ right. by apply Hk1.
           ++ left. apply lookup_key_None_keys in Hout.
              unfold its1, deref. by rewrite lookup_key_modify, decide_True, Hout.
        -- left. by apply known_modify_other.
      * right. by rewrite Hd1.
    + intros _ Hin. split; [|rewrite <- Hp1; eauto].
      destruct (B node) as [->| ->]; [by apply Hk1 | by rewrite Hd1].
Qed.

Lemma walk_back_subset fuel : forall node its unknown its' unknown',
  walk_back fuel node its unknown = Ok (its', unknown') ->
  forall n, n ∈ unknown' -> n ∈ unknown.
Proof.
  induction fuel as [|fuel IH]; intros node its unknown its' unknown'; simpl.
  - destruct (decide (node = start)) as [?|Hs]; [|done]. by intros [= <- <-].
  - destruct (decide (node = start)) as [?|Hs]; [by intros [= <- <-]|].
    destruct (prev _) as [e|]; [|done].
    intros H m Hn. apply (IH _ _ _ _ _ H) in Hn.
    by apply elem_of_discard in Hn as [? _].
Qed.

Lemma assign_fixed_other node unknown its its' changes k :
  assign_fixed node unknown its = (its', changes) -> k <> node ->
  deref its' k = deref its k.
Proof.
  intros H Hne. apply assign_fixed_cases in H as [[_ ->]|[_ [d ->]]]; [done|].
  by rewrite deref_modify_ne.
Qed.

Lemma fixed_pass_other g k : forall todo unknown its its' unknown' changes,
  fixed_pass g todo unknown its = Ok (its', unknown', changes) ->
  (forall n, n ∈ todo -> canon (cnodes g) n <> k) ->
  deref its' k = deref its k /\ (forall n, n ∈ unknown' -> n ∈ unknown).
Proof.
  induction todo as [|n todo IH]; intros unknown its its' unknown' changes; simpl.
  - by intros [= <- <- <-].
  - destruct (getitem _ n) as [node| |] eqn:Hn; cbn [rbind]; [|done..].
    apply getitem_Ok in Hn as [-> _]. simpl.
    destruct (assign_fixed _ unknown its) as [its1 ch] eqn:Ha.
    intros H Hall.
    assert (H1 : deref its1 k = deref its k).
    { eapply assign_fixed_other; [done|]. intros Hkn.
      apply (Hall n); [left | done]. }
    destruct ch.
    + injection H as <- <- <-. split; [done|].
      intros m Hm. by apply elem_of_discard in Hm as [? _].
    + apply IH in H as [-> ?]; [done|]. intros m Hm. apply Hall. by right.
Qed.

Lemma fixed_loop_other g k : forall fuel unknown its its' unknown',
  fixed_loop fuel g unknown its = Ok (its', unknown') ->
  (forall n, n ∈ unknown -> canon (cnodes g) n <> k) ->
  deref its' k = deref its k /\ (forall n, n ∈ unknown' -> n ∈ unknown).
Proof.
  induction fuel as [|fuel IH]; intros unknown its its' unknown'; simpl.
  - destruct unknown; [|done]. by intros [= <- <-].
  - destruct unknown as [|u unknown]; [by intros [= <- <-]|].
    destruct (fixed_pass _ _ _ _) as [[[its1 u1] ch]| |] eqn:Hp; cbn [rbind]; [|done..].
    intros H Hall. apply fixed_pass_other with (k := k) in Hp as [E1 S1]; [|done].
    destruct ch.
    + apply IH in H as [E2 S2]; [|intros n Hn; apply Hall; auto].
      split; [congruence | auto].
    + injection H as <- <-. done.
Qed.

Lemma stretch_node_other limit g n g' k :
  stretch_node limit g n = Ok g' -> canon (cnodes g) n <> k ->
  known_dist (deref (items g') k) = known_dist (deref (items g) k).
Proof.
  unfold stretch_node.
  destruct (getitem g n) as [node| |] eqn:Hn; cbn [rbind]; [|done..].
  destruct (search limit g node true) as [[g1 [[to_nd fs] fd]]| |] eqn:H1;
    cbn [rbind]; [|done..].
  destruct (search limit g1 node false) as [[g2 [[from_nd rs] rd]]| |] eqn:H2;
    cbn [rbind]; [|done..].
  apply search_frame in H1 as (F1 & _).
  apply search_frame in H2 as (F2 & _).
  pose proof (frame_trans _ _ _ F1 F2) as [_ F].
  apply getitem_Ok in Hn as [-> Hin]. intros H Hne.
  assert (Hgen : forall d,
             known_dist (deref (modify (canon (cnodes g) n)
                                       (set_known_dist (Some d)) (items g2)) k)
             = known_dist (deref (items g) k)).
  { intros d. rewrite known_modify_other by done. apply F. }
  revert H.
  repeat case_decide;
    repeat (match goal with
            | |- context [known ?its ?k] => destruct (known its k); cbn [rbind]; try done
            end);
    repeat (match goal with
            | |- context [Qlt_le_dec ?a ?b] => destruct (Qlt_le_dec a b); try done
            | |- context [Nat.eqb ?a ?b] => destruct (Nat.eqb a b)
            end);
    intros [= <-]; apply Hgen.
Qed.

Lemma stretch_loop_other limit k : forall unknown g g',
  stretch_loop limit g unknown = Ok g' ->
  (forall n, n ∈ unknown -> canon (cnodes g) n <> k) ->
  known_dist (deref (items g') k) = known_dist (deref (items g) k).
Proof.
  induction unknown as [|u unknown IH]; intros g g'; simpl.
  - by intros [= <-].
  - destruct (stretch_node limit g u) as [g1| |] eqn:H1; cbn [rbind]; [|done..].
    intros H Hall.
    pose proof (stretch_node_resolved _ _ _ _ H1) as (C1 & _).
    apply IH in H; [|intros n Hn; rewrite C1; apply Hall; by right].
    rewrite H. eapply stretch_node_other; [done|]. apply Hall. by left.
Qed.

Lemma keys_add_start_nodes g g' k :
  add_start_nodes g = Ok g' -> k ∈ keys (items g) -> k ∈ keys (items g').
Proof.
  intros H Hk. apply add_start_nodes_Ok in H as (_ & _ & [->|(s & e & ->)]); [done|].
  rewrite add_start_loop_keys. apply elem_of_keys_add_node. left.
  apply elem_of_keys_add_node. by left.
Qed.

(** X11.  The extent that [analyse] returns is the length of the longest path
    from ['start'] to ['end'] in the graph with the two extra nodes: it is the
    length of such a path and no such path is longer.  This holds for a graph
    with edges of size at least 0 that stay inside the graph, with a node
    other than ['start'] and ['end'], and no point named 'start' or 'end'. *)
Theorem analyse_extent limit g g' pos w k :
  edges_closed (items g) -> edges_nonneg (items g) ->
  cnodes g !! "start" = None -> cnodes g !! "end" = None ->
  k ∈ keys (items g) -> k <> start -> k <> end_ ->
  analyse limit None g = Ok (g', Some (pos, w)) ->
  exists d,
    w = Some d /\
    (exists len, path (items (augmented g)) start end_ len /\ (d == len)%Q) /\
    forall len, path (items (augmented g)) start end_ len -> (len <= d)%Q.
Proof.
  intros Hclosed Hnonneg Hcs Hce Hk Hks Hke. unfold analyse, augmented.
  destruct (add_start_nodes g) as [g0| |] eqn:H0; cbn [rbind]; [|done..].
  pose proof (add_start_nodes_closed _ _ H0 Hclosed) as Hclosed0.
  pose proof (add_start_nodes_nonneg _ _ H0 Hnonneg) as Hnonneg0.
  pose proof (keys_add_start_nodes _ _ _ H0 Hk) as Hk0.
  apply add_start_nodes_Ok in H0 as (Hc0 & _).
  case_bool_decide as Hu.
  { exfalso. assert (Hin : k ∈ discard end_ (discard start (keys (items g0))))
      by (by rewrite !elem_of_discard).
    rewrite Hu in Hin. by apply elem_of_nil in Hin. }
  set (unknown := discard end_ (discard start (keys (items g0)))).
  destruct (critical_path _ _ _) as [[g1 u1]| |] eqn:H1; cbn [rbind]; [|done..].
  simpl.
  destruct (fixed_propagation g1 u1) as [[g2 u2]| |] eqn:H2; cbn [rbind]; [|done..].
  simpl.
  destruct (stretch_loop limit g2 u2) as [g3| |] eqn:H3; cbn [rbind]; [|done..].
  destruct (extract g3) as [pos3| |] eqn:H4; cbn [rbind]; [|done..].
  destruct (getitem g3 end_) as [e| |] eqn:H5; cbn [rbind]; [|done..].
  intros [= <- <- <-].
  (* the critical path *)
  unfold critical_path in H1.
  destruct (getitem g0 start) as [s| |] eqn:Hs; cbn [rbind] in H1; [|done..].
  destruct (longest_forward_path limit g0 s) as [ga| |] eqn:Ha;
    cbn [rbind] in H1; [|done..].
  destruct (getitem ga end_) as [e0| |] eqn:He0; cbn [rbind] in H1; [|done..].
  destruct (walk_back _ _ _ _) as [[itsb ub]| |] eqn:Hw; cbn [rbind] in H1; [|done..].
  injection H1 as <- <-.
  apply getitem_Ok in Hs as [-> Hsin].
  assert (Hs : canon (cnodes g0) start = start) by (simpl; by rewrite Hc0, Hcs).
  rewrite Hs in *.
  pose proof (longest_forward_path_frame _ _ _ _ Ha) as (Fa & Ca & _).
  apply getitem_Ok in He0 as [-> Hein].
  assert (He : canon (cnodes ga) end_ = end_) by (simpl; by rewrite Ca, Hc0, Hce).
  rewrite He in *.
  destruct (walk_back_known _ _ _ _ _ _ Hw) as (_ & _ & Hend).
  destruct Hend as [Hend Hprev]; [done..|].
  (* the later stages leave the node alone *)
  assert (Hu1 : forall n, n ∈ ub -> n <> end_).
  { intros n Hn. apply (walk_back_subset _ _ _ _ _ _ Hw) in Hn.
    unfold unknown in Hn. rewrite !elem_of_discard in Hn. tauto. }
  unfold fixed_propagation in H2. simpl in H2.
  destruct (fixed_loop _ _ _ _) as [[its2 ub2]| |] eqn:Hf; cbn [rbind] in H2; [|done..].
  injection H2 as <- <-.
  apply fixed_loop_other with (k := end_) in Hf as [E2 S2];
    [|intros n Hn Hc; apply canon_end in Hc; exact (Hu1 n Hn Hc)].
  pose proof (stretch_loop_resolved _ _ _ _ H3) as (C3 & _).
  apply stretch_loop_other with (k := end_) in H3;
    [|intros n Hn Hc; apply canon_end in Hc; exact (Hu1 n (S2 n Hn) Hc)].
  simpl in H3, C3.
  apply getitem_Ok in H5 as [-> _].
  assert (He3 : canon (cnodes g3) end_ = end_)
    by (simpl; by rewrite C3, Ca, Hc0, Hce).
  rewrite He3, H3, E2, Hend.
  exists (dist (deref (items ga) end_)). split; [done|].
  destruct (longest_forward_path_dists _ _ _ _ Hclosed0 Hnonneg0 Hsin Ha)
    as [_ Hall].
  destruct (Hall end_) as [[[_ Hnone] _]|[Hreach Hmax]].
  - by destruct Fa as [<- _].
  - rewrite Hnone in Hprev. by destruct Hprev.
  - done.
Qed.

Lemma analyse_extent_witness :
  exists g' pos d,
    analyse 10 None between_rigid = Ok (g', Some (pos, Some d)) /\
    forall len, path (items (augmented between_rigid)) start end_ len ->
                (len <= d)%Q.
Proof.
  eexists _, _, _. split; [vm_compute; reflexivity|].
  match goal with
  | |- forall len, _ -> (len <= ?d)%Q =>
      assert (H : exists g' pos,
                 analyse 10 None between_rigid = Ok (g', Some (pos, Some d)))
        by (eexists _, _; vm_compute; reflexivity)
  end.
  destruct H as (g' & pos & H).
  assert (Hc : edges_closed (items between_rigid))
    by (repeat apply add_closed; apply Graph_init_closed).
  assert (Hn : edges_nonneg (items between_rigid))
    by (repeat apply add_nonneg; apply Graph_init_nonneg).
  assert (Hk : Tuple ["A"] ∈ keys (items between_rigid)) by (vm_compute; left).
  destruct (analyse_extent 10 between_rigid g' pos _ (Tuple ["A"]) Hc Hn
              eq_refl eq_refl Hk ltac:(discriminate) ltac:(discriminate) H)
    as (d & Hd & _ & Hmax).
  injection Hd as <-. exact Hmax.
Defined.

(** ** Positions of linked points *)

(** The positions that [analyse] returns are computed from the common node of
    each name and from nothing else. *)
Lemma analyse_positions_fmap limit g g' pos w :
  analyse limit None g = Ok (g', Some (pos, w)) ->
  exists f : list string -> option Q, pos = f <$> cnodes g.
Proof.
  unfold analyse.
  destruct (add_start_nodes g) as [g0| |] eqn:H0; cbn [rbind]; [|done..].
  apply add_start_nodes_Ok in H0 as (Hc0 & _).
  case_bool_decide as Hu.
  { intros [= <- <- <-]. exists (fun _ => Some 0%Q). by rewrite Hc0. }
  destruct (critical_path _ _ _) as [[g1 u1]| |] eqn:H1; cbn [rbind]; [|done..].
  simpl.
  destruct (fixed_propagation g1 u1) as [[g2 u2]| |] eqn:H2; cbn [rbind]; [|done..].
  simpl.
  destruct (stretch_loop limit g2 u2) as [g3| |] eqn:H3; cbn [rbind]; [|done..].
  destruct (extract g3) as [pos3| |] eqn:H4; cbn [rbind]; [|done..].
  destruct (getitem g3 end_) as [e| |]; cbn [rbind]; [|done..].
  intros [= <- <- <-].
  apply critical_path_resolved in H1 as (C1 & K1 & R1);
    [|apply tuples_resolved_initial].
  apply fixed_propagation_resolved in H2 as (C2 & K2 & R2); [|done].
  apply stretch_loop_resolved in H3 as (C3 & _).
  unfold extract in H4. case_bool_decide; [|done]. injection H4 as <-.
  exists (fun node => known_dist (deref (items g3) (Tuple node))).
  congruence.
Qed.

Lemma cnodes_add g n1 n2 sz st : cnodes (add g n1 n2 sz st) = cnodes g.
Proof.
  unfold add. destruct (Qeq_bool sz 0); [done|]. by destruct (Qlt_le_dec sz 0).
Qed.

Lemma cnodes_add_calls calls : forall g, cnodes (add_calls g calls) = cnodes g.
Proof.
  unfold add_calls.
  induction calls as [|[[[n1 n2] v] st] calls IH]; intros g; simpl; [done|].
  by rewrite IH, cnodes_add.
Qed.

(** X12.  Two points that have been linked get the same position: after
    [link(a, b)] on a consistent table, whatever edges are then added, the
    positions that [analyse] returns for [a] and for [b] are there and are
    equal. *)
Theorem linked_points_share_position limit g a b g1 edges g' pos w :
  consistent (cnodes g) ->
  link g a b = Ok g1 ->
  analyse limit None (add_calls g1 edges) = Ok (g', Some (pos, w)) ->
  is_Some (pos !! a) /\ pos !! a = pos !! b.
Proof.
  intros Hc Hl Ha. unfold link in Hl.
  destruct (Cnodes.link (cnodes g) a b) as [c1| |] eqn:Hl1; cbn [rbind] in Hl;
    [|done..].
  injection Hl as <-.
  destruct (cnodes g !! a) as [ta|] eqn:Hta;
    [|unfold Cnodes.link, Cnodes.getitem in Hl1; by rewrite Hta in Hl1].
  destruct (cnodes g !! b) as [tb|] eqn:Htb;
    [|unfold Cnodes.link, Cnodes.getitem in Hl1; by rewrite Hta, Htb in Hl1].
  destruct (link_lookup _ a b ta tb Hc Hta Htb) as (c' & Hl' & Hlook).
  assert (c' = c1) as -> by congruence.
  destruct (analyse_positions_fmap _ _ _ _ _ Ha) as [f ->].
  rewrite cnodes_add_calls. simpl.
  rewrite !lookup_fmap, !Hlook.
  rewrite decide_True by (left; exact (cons_self _ Hc a ta Hta)).
  rewrite decide_True by (right; exact (cons_self _ Hc b tb Htb)).
  split; [by eexists|done].
Qed.

Lemma linked_points_share_position_witness :
  exists g1 g' pos w,
    link (Graph_init "horizontal" ["A"; "B"; "C"]) "A" "B" = Ok g1 /\
    analyse 10 None (add_calls g1 [("A", "C", 2%Q, false)])
    = Ok (g', Some (pos, w)) /\
    is_Some (pos !! "A") /\ pos !! "A" = pos !! "B".
Proof.
  eexists _, _, _, _. split; [vm_compute; reflexivity|].
  split; [vm_compute; reflexivity|].
  eapply (linked_points_share_position 10
            (Graph_init "horizontal" ["A"; "B"; "C"]) "A" "B" _
            [("A", "C", 2%Q, false)]).
  - apply init_consistent.
  - vm_compute; reflexivity.
  - vm_compute; reflexivity.
Defined.

(** ** What [add] puts into the graph *)





(** ** Components: linking and placing *)

Lemma foldl_stuck {A B} (f : A -> B -> A) r l :
  (forall b, f r b = r) -> foldl f r l = r.
Proof. intros Hf. induction l as [|b l IH]; simpl; [done|]. by rewrite Hf. Qed.

(** The [link] calls of one component act on the table of common nodes only. *)
Lemma link_fold_links pairs : forall g,
  foldl (fun r p => g <- r ;; link g p.1 p.2) (Ok g) pairs =
  (c' <- Cnodes.links (cnodes g) pairs ;; Ok (mkGraph c' (gname g) (items g))).
Proof.
  induction pairs as [|[a b] pairs IH]; intros g; simpl.
  - by destruct g.
  - unfold link at 2.
    destruct (Cnodes.link (cnodes g) a b) as [c1|e|]; cbn [rbind].
    + by rewrite IH.
    + by apply foldl_stuck.
    + by apply foldl_stuck.
Qed.

Lemma elem_of_link_pairs names vals i j :
  (i < j)%nat -> (j < length names)%nat ->
  Qeq_bool (nth j vals 0%Q) (nth i vals 0%Q) = true ->
  (nth i names "", nth j names "") ∈ link_pairs names vals.
Proof.
  intros Hij Hj Heq. unfold link_pairs.
  apply list_elem_of_In, in_flat_map. exists i. split; [apply in_seq; lia|].
  apply in_flat_map. exists j. split; [apply in_seq; lia|].
  rewrite Heq. by left.
Qed.

(** X14.  [xlink] merges the nodes of a component that have the same
    abscissa: when it returns, any two of them are in one common node; the
    table is still consistent and the dict of the graph has not changed. *)
Theorem xlink_equal_abscissa c g g' :
  consistent (cnodes g) ->
  xlink c g = Ok g' ->
  items g' = items g /\ gname g' = gname g /\ consistent (cnodes g') /\
  forall i j,
    (i < length (dvnodes c))%nat -> (j < length (dvnodes c))%nat ->
    (nth i (xvals c) 0 == nth j (xvals c) 0)%Q ->
    same (cnodes g') (nth i (dvnodes c) "") (nth j (dvnodes c) "").
Proof.
  intros Hc. unfold xlink. rewrite link_fold_links.
  destruct (Cnodes.links _ _) as [c'| |] eqn:Hl; cbn [rbind]; [|done..].
  intros [= <-]. simpl. split; [done|]. split; [done|].
  split; [by eapply links_consistent|].
  intros i j Hi Hj Heq.
  apply (links_same _ _ _ _ _ Hc Hl).
  destruct (lt_eq_lt_dec i j) as [[Hlt| ->]|Hgt].
  - apply eqv_pair, elem_of_link_pairs; [done..|].
    apply Qeq_bool_iff. by symmetry.
  - apply eqv_refl.
  - apply eqv_sym, eqv_pair, elem_of_link_pairs; [done..|].
    by apply Qeq_bool_iff.
Qed.

Lemma xlink_equal_abscissa_witness :
  exists g',
    xlink (mkCpt ["a"; "b"; "c"] [0; 1; 0]%Q [0; 0; 1]%Q 1 true)
          (Graph_init "horizontal" ["a"; "b"; "c"]) = Ok g' /\
    same (cnodes g') "a" "c".
Proof.
  eexists. split; [vm_compute; reflexivity|].
  refine (proj2 (proj2 (proj2
    (xlink_equal_abscissa
       (mkCpt ["a"; "b"; "c"] [0; 1; 0]%Q [0; 0; 1]%Q 1 true)
       (Graph_init "horizontal" ["a"; "b"; "c"]) _
       (init_consistent _) _))) 0%nat 2%nat _ _ _).
  - vm_compute; reflexivity.
  - simpl; lia.
  - simpl; lia.
  - reflexivity.
Defined.

Lemma place_few c graphs vals :
  (length vals < 2)%nat -> place c graphs vals = Ok graphs.
Proof.
  intros Hlen. unfold place, place_calls.
  assert (Hrev : (length (rev (argsort vals)) < 2)%nat)
    by (by rewrite length_rev, length_argsort).
  destruct (rev (argsort vals)) as [|m1 [|m2 idx]]; simpl in Hrev; [done..|lia].
Qed.

(** X15.  The horizontal pass of the layout: once the components are linked,
    placing them returns the graph without an edge when every component has
    fewer than two coordinates, and raises [TypeError] as soon as one of them
    has two: [place] hands five arguments to [Graph.add]. *)
Theorem xgraph_build_type_error nodes elements g1 :
  foldl (fun r elt => g <- r ;; xlink elt g)
        (Ok (Graph_init "horizontal" nodes)) elements = Ok g1 ->
  (Forall (fun elt => (length (xvals elt) < 2)%nat) elements ->
   xgraph_build nodes elements = Ok g1) /\
  (Exists (fun elt => (2 <= length (xvals elt))%nat) elements ->
   xgraph_build nodes elements = Raise TypeError).
Proof.
  intros Hl. unfold xgraph_build. rewrite Hl. cbn [rbind].
  generalize g1. clear Hl. induction elements as [|elt elements IH]; intros g.
  - split; [done|]. intros H. by apply Exists_nil in H.
  - simpl. unfold xplace at 2 4.
    destruct (Nat.lt_ge_cases (length (xvals elt)) 2) as [Hlt|Hge].
    + rewrite place_few by done. destruct (IH g) as [IH1 IH2]. split.
      * intros H. apply Forall_cons in H as [_ H]. by apply IH1.
      * intros H. apply Exists_cons in H as [H|H]; [lia|]. by apply IH2.
    + rewrite place_type_error by done. split.
      * intros H. apply Forall_cons in H as [H _]. lia.
      * intros _. by apply foldl_stuck.
Qed.

Lemma xgraph_build_type_error_witness :
  xgraph_build ["a"; "b"] [R1] = Raise TypeError.
Proof.
  refine (proj2 (xgraph_build_type_error ["a"; "b"] [R1] _ _) _).
  - vm_compute; reflexivity.
  - apply Exists_cons_hd. simpl. lia.
Defined.

(** ** The fixed stage *)

Lemma find_all_false {A} (f : A -> bool) (l : list A) :
  (forall x, x ∈ l -> f x = false) -> List.find f l = None.
Proof.
  induction l as [|x l IH]; intros H; simpl; [done|].
  rewrite (H x) by left. apply IH. intros y Hy. apply H. by right.
Qed.

Lemma find_Some_elem {A} (f : A -> bool) (l : list A) x :
  List.find f l = Some x -> x ∈ l /\ f x = true.
Proof.
  intros H. apply find_some in H as [H1 H2]. split; [|done].
  by apply list_elem_of_In.
Qed.

(** X16.  [assign_fixed] on a node that is itself still unknown, in a graph
    of the shape that [add] builds: the reverse edges never count.  The call
    reports a change exactly when a forward edge of the node qualifies, and
    otherwise leaves the graph as it is, whatever the reverse edges are. *)
Theorem assign_fixed_forward_only node unknown its :
  graph_wf its -> node ∈ unknown ->
  ((assign_fixed node unknown its).2 = true <->
   exists e, e ∈ fedges (deref its node) /\ fixed_fedge unknown e = true) /\
  ((assign_fixed node unknown its).2 = false ->
   (assign_fixed node unknown its).1 = its).
Proof.
  intros Hwf Hin.
  assert (Hr : List.find (fixed_redge unknown) (redges (deref its node)) = None).
  { apply find_all_false. intros e He.
    destruct (wf_redges _ Hwf _ _ He) as [Hfrom _].
    unfold fixed_redge. rewrite Hfrom.
    rewrite (bool_decide_eq_false_2 (node ∉ unknown)) by tauto.
    by rewrite andb_false_r. }
  unfold assign_fixed. rewrite Hr.
  destruct (List.find _ (fedges _)) as [e|] eqn:Hf; simpl.
  - apply find_Some_elem in Hf. split; [|done]. split; [eauto|done].
  - split; [|done]. split; [done|].
    intros (e & He & Hfix).
    pose proof (find_none _ _ Hf e (proj1 (list_elem_of_In _ _) He)). congruence.
Qed.

Lemma assign_fixed_forward_only_witness :
  assign_fixed (Tuple ["d"]) [Tuple ["c"]; Tuple ["d"]] (items rigid_chain)
  = (items rigid_chain, false).
Proof.
  assert (Hwf : graph_wf (items rigid_chain))
    by (repeat apply add_wf; apply graph_wf_nil).
  assert (Hin : Tuple ["d"] ∈ [Tuple ["c"]; Tuple ["d"]]) by (right; left).
  destruct (assign_fixed_forward_only (Tuple ["d"]) [Tuple ["c"]; Tuple ["d"]]
              (items rigid_chain) Hwf Hin) as [_ H].
  rewrite <- (H eq_refl) at 2. reflexivity.
Defined.

Lemma fixed_pass_removed g : forall todo unknown its its' unknown' changes,
  fixed_pass g todo unknown its = Ok (its', unknown', changes) ->
  keys its' = keys its /\
  (forall n, n ∈ unknown' -> n ∈ unknown) /\
  (forall k, is_Some (known_dist (deref its k)) ->
             is_Some (known_dist (deref its' k))) /\
  (forall n, n ∈ unknown -> n ∉ unknown' ->
             is_Some (known_dist (deref its' (canon (cnodes g) n)))).
Proof.
  induction todo as [|n todo IH]; intros unknown its its' unknown' changes; simpl.
  - by intros [= <- <- <-].
  - destruct (getitem _ n) as [node| |] eqn:Hn; cbn [rbind]; [|done..].
    apply getitem_Ok in Hn as [-> Hk]. simpl in Hk. simpl.
    destruct (assign_fixed _ unknown its) as [its1 ch] eqn:Ha.
    assert (Hf : forall d nd, is_Some (known_dist (set_known_dist (Some d) nd)))
      by (intros d []; simpl; eauto).
    apply assign_fixed_cases in Ha as [[-> ->]|[-> [d ->]]].
    + apply IH.
    + intros [= <- <- <-]. split; [by rewrite keys_modify|]. split; [|split].
      * intros m Hm. by apply elem_of_discard in Hm as [? _].
      * intros k. by apply modify_known_mono.
      * intros m Hm Hout. rewrite elem_of_discard in Hout.
        destruct (decide (m = n)) as [->|Hne]; [|tauto].
        by apply modify_known_set.
Qed.

Lemma fixed_loop_removed g : forall fuel unknown its its' unknown',
  fixed_loop fuel g unknown its = Ok (its', unknown') ->
  keys its' = keys its /\
  (forall n, n ∈ unknown' -> n ∈ unknown) /\
  (forall k, is_Some (known_dist (deref its k)) ->
             is_Some (known_dist (deref its' k))) /\
  (forall n, n ∈ unknown -> n ∉ unknown' ->
             is_Some (known_dist (deref its' (canon (cnodes g) n)))).
Proof.
  induction fuel as [|fuel IH]; intros unknown its its' unknown'; simpl.
  - destruct unknown; [|done]. by intros [= <- <-].
  - destruct unknown as [|u unknown]; [by intros [= <- <-]|].
    destruct (fixed_pass _ _ _ _) as [[[its1 u1] ch]| |] eqn:Hp; cbn [rbind]; [|done..].
    apply fixed_pass_removed in Hp as (K1 & S1 & M1 & R1).
    destruct ch.
    + intros H. apply IH in H as (K2 & S2 & M2 & R2).
      split; [congruence|]. split; [auto|]. split; [auto|].
      intros n Hn Hout. destruct (decide (n ∈ u1)) as [Hin1|Hout1]; [auto|].
      apply M2. auto.
    + by intros [= <- <-].
Qed.

(** X17.  The fixed stage always comes to an end.  When it returns, the keys
    of the dict and the table of common nodes are as before, no node has been
    added to [unknown], every node taken out of [unknown] has a known
    distance, no known distance has been lost, and a node that is not the
    common node of a member of [unknown] is exactly as it was. *)
Theorem fixed_propagation_summary g unknown :
  fixed_propagation g unknown <> Diverge /\
  forall g' unknown',
    fixed_propagation g unknown = Ok (g', unknown') ->
    cnodes g' = cnodes g /\ keys (items g') = keys (items g) /\
    (forall n, n ∈ unknown' -> n ∈ unknown) /\
    (forall n, n ∈ unknown -> n ∉ unknown' ->
               is_Some (known_dist (deref (items g') (canon (cnodes g) n)))) /\
    (forall k, is_Some (known_dist (deref (items g) k)) ->
               is_Some (known_dist (deref (items g') k))) /\
    (forall k, (forall n, n ∈ unknown -> canon (cnodes g) n <> k) ->
               deref (items g') k = deref (items g) k).
Proof.
  split; [apply fixed_propagation_terminates|].
  intros g' unknown'. unfold fixed_propagation.
  destruct (fixed_loop _ _ _ _) as [[its2 u2]| |] eqn:H; cbn [rbind]; [|done..].
  intros [= <- <-]. simpl.
  destruct (fixed_loop_removed _ _ _ _ _ _ H) as (K & S & M & R).
  repeat (split; [done|]).
  intros k Hk. by destruct (fixed_loop_other g k _ _ _ _ _ H Hk).
Qed.

Lemma fixed_propagation_summary_witness :
  exists g' unknown',
    fixed_propagation (stage_graph 10 1 rigid_chain)
                      [Tuple ["c"]; Tuple ["d"]] = Ok (g', unknown') /\
    keys (items g') = keys (items (stage_graph 10 1 rigid_chain)) /\
    forall n, n ∈ unknown' -> n ∈ [Tuple ["c"]; Tuple ["d"]].
Proof.
  eexists _, _. split; [vm_compute; reflexivity|].
  match goal with
  | |- keys (items ?g') = _ /\ (forall n, n ∈ ?u' -> _) =>
      assert (H : fixed_propagation (stage_graph 10 1 rigid_chain)
                    [Tuple ["c"]; Tuple ["d"]] = Ok (g', u'))
        by (vm_compute; reflexivity);
      destruct (proj2 (fixed_propagation_summary _ _) _ _ H)
        as (_ & Hk & Hs & _)
  end.
  split; [exact Hk | exact Hs].
Defined.

(** ** Nodes of a schematic *)

Lemma sch_lookup_update {V} k k' (f : V -> V) d :
  Sch.lookup k (Sch.update k' f d) =
  if decide (k = k') then f <$> Sch.lookup k d else Sch.lookup k d.
Proof.
  induction d as [|[k0 v] d IH]; simpl.
  - by destruct (decide (k = k')).
  - destruct (decide (k' = k0)) as [->|Hne]; simpl;
      destruct (decide (k = k0)) as [->|Hk]; simpl; try done.
    by rewrite decide_False by done.
Qed.

Lemma sch_dkeys_update {V} k (f : V -> V) d :
  Sch.dkeys (Sch.update k f d) = Sch.dkeys d.
Proof.
  induction d as [|[k0 v] d IH]; simpl; [done|].
  destruct (decide (k = k0)); simpl; [done | by rewrite IH].
Qed.

Lemma sch_lookup_app {V} k (d1 d2 : list (string * V)) :
  Sch.lookup k (d1 ++ d2) =
  match Sch.lookup k d1 with Some v => Some v | None => Sch.lookup k d2 end.
Proof.
  induction d1 as [|[k0 v] d1 IH]; simpl; [done|].
  by destruct (decide (k = k0)).
Qed.

Lemma sch_lookup_keys {V} k (d : list (string * V)) :
  is_Some (Sch.lookup k d) <-> k ∈ Sch.dkeys d.
Proof.
  induction d as [|[k0 v] d IH]; simpl.
  - split; [by intros [? ?] | intros H; by apply elem_of_nil in H].
  - rewrite elem_of_cons. destruct (decide (k = k0)) as [->|Hne].
    + split; [by left | eauto].
    + rewrite IH. tauto.
Qed.

Lemma sch_lookup_None {V} k (d : list (string * V)) :
  k ∉ Sch.dkeys d -> Sch.lookup k d = None.
Proof.
  intros H. destruct (Sch.lookup k d) eqn:E; [|done].
  destruct H. apply sch_lookup_keys. eauto.
Qed.

Lemma concat_update k x (d : list (string * list string)) :
  k ∈ Sch.dkeys d ->
  concat (map snd (Sch.update k (fun l => (l ++ [x])%list) d))
  ≡ₚ x :: concat (map snd d).
Proof.
  induction d as [|[k0 l] d IH]; simpl; intros Hk.
  - by apply elem_of_nil in Hk.
  - destruct (decide (k = k0)) as [->|Hne]; simpl.
    + rewrite <- app_assoc. simpl.
      by rewrite <- Permutation_middle.
    + apply elem_of_cons in Hk as [?|Hk]; [done|].
      rewrite (IH Hk). by rewrite <- Permutation_middle.
Qed.

(** [append] changes neither the name nor the root name of a node. *)
Lemma lookup_update_append n node elt d :
  Sch.lookup n (Sch.update node (Sch.append elt) d) =
  (fun nd => if decide (n = node) then Sch.append elt nd else nd)
    <$> Sch.lookup n d.
Proof.
  rewrite sch_lookup_update. destruct (decide (n = node)); [done|].
  by destruct (Sch.lookup n d).
Qed.

(** The node fields after any number of [append] calls. *)
Lemma appends_fields elts : forall nd,
  let nd' := foldl (fun n e => Sch.append e n) nd elts in
  Sch.name nd' = Sch.name nd /\ Sch.rootname nd' = Sch.rootname nd /\
  Sch.primary nd' = Sch.primary nd /\
  Sch.list_ nd' = (Sch.list_ nd ++ elts)%list /\
  Sch.count nd' =
  (Sch.count nd + length (filter (fun e => Sch.type e <> "O") elts))%nat /\
  Sch._port nd' =
  Sch._port nd || bool_decide (Exists (fun e => Sch.type e = "P") elts).
Proof.
  induction elts as [|e elts IH]; intros nd; cbn [foldl].
  - rewrite app_nil_r, filter_nil, Nat.add_0_r.
    rewrite (bool_decide_eq_false_2 (Exists _ []))
      by (intros H; by apply Exists_nil in H).
    by rewrite orb_false_r.
  - destruct (IH (Sch.append e nd)) as (H1 & H2 & H3 & H4 & H5 & H6).
    rewrite H1, H2, H3, H4, H5, H6.
    repeat split; try done.
    + simpl. by rewrite <- app_assoc.
    + unfold Sch.count. simpl.
      destruct (String.eqb_spec (Sch.type e) "O") as [Ho|Ho]; simpl.
      * rewrite filter_cons_False by (intros H; by apply H). done.
      * rewrite filter_cons_True by done. simpl. lia.
    + simpl. destruct (String.eqb_spec (Sch.type e) "P") as [Hp|Hp].
      * rewrite (bool_decide_eq_true_2 (Exists _ (e :: elts)))
          by (by apply Exists_cons_hd).
        by rewrite orb_true_r.
      * f_equal. apply bool_decide_ext. rewrite Exists_cons. tauto.
Qed.

(** X18.  A node after any number of [append] calls: its list holds the
    components in the order they came, [count] is the number of them that
    are not open circuits, the node is a port exactly when a component of
    type [P] came or the count is 1, and its name and root name are as
    [Node.__init__] set them; a primary node is its own root. *)
Theorem node_after_appends nm nd elts :
  Sch.Node_init nm = Some nd ->
  let nd' := foldl (fun n e => Sch.append e n) nd elts in
  Sch.list_ nd' = elts /\
  Sch.count nd' = length (filter (fun e => Sch.type e <> "O") elts) /\
  (Sch.port nd' = true <->
   (exists e, e ∈ elts /\ Sch.type e = "P") \/ Sch.count nd' = 1%nat) /\
  Sch.name nd' = nm /\ Sch.rootname nd' = Sch.rootname nd /\
  (Sch.primary nd' = true -> Sch.rootname nd' = nm).
Proof.
  intros Hinit nd'.
  destruct (appends_fields elts nd) as (H1 & H2 & H3 & H4 & H5 & H6).
  fold nd' in H1, H2, H3, H4, H5, H6.
  destruct nm as [|c rest]; [done|]. injection Hinit as <-. simpl in *.
  split; [done|]. split; [done|]. split; [|split; [done|split; [done|]]].
  - unfold Sch.port. rewrite H6. simpl.
    rewrite orb_true_iff, bool_decide_eq_true, Exists_exists, Nat.eqb_eq.
    done.
  - rewrite H2, H3. simpl.
    destruct (Ascii.eqb c Sch.underscore) eqn:Hc; simpl; [done|].
    intros Hp. f_equal. clear -Hp. induction rest as [|d rest IH]; simpl; [done|].
    simpl in Hp. destruct (Ascii.eqb d Sch.underscore); simpl in *; [done|].
    f_equal. by apply IH.
Qed.

Lemma node_after_appends_witness :
  exists nd,
    Sch.Node_init "1_2" = Some nd /\
    let nd' := foldl (fun n e => Sch.append e n) nd
                     [Sch.mkElt "R1" "R" ["1_2"; "3"]; Sch.mkElt "O1" "O" ["1_2"; "4"]] in
    Sch.count nd' = 1%nat /\ Sch.port nd' = true /\ Sch.rootname nd' = "1".
Proof.
  eexists. split; [reflexivity|].
  match goal with
  | |- let nd' := foldl _ ?nd ?elts in _ =>
      destruct (node_after_appends "1_2" nd elts eq_refl)
        as (_ & Hc & Hp & _ & Hr & _)
  end.
  intros nd'. split; [exact Hc|]. split; [|exact Hr].
  apply Hp. right. exact Hc.
Defined.

(** ** The node tables of a schematic *)

Lemma Node_init_name n nd : Sch.Node_init n = Some nd -> Sch.name nd = n.
Proof. destruct n; [done|]. by intros [= <-]. Qed.

(** The nodes after [append] on one of them: same keys, same names. *)
Lemma nodes_update_append_view node elt d n :
  (forall nd, Sch.lookup n d = Some nd ->
     exists nd', Sch.lookup n (Sch.update node (Sch.append elt) d) = Some nd' /\
                 Sch.name nd' = Sch.name nd /\
                 Sch.rootname nd' = Sch.rootname nd /\
                 Sch.primary nd' = Sch.primary nd) /\
  (forall nd', Sch.lookup n (Sch.update node (Sch.append elt) d) = Some nd' ->
     exists nd, Sch.lookup n d = Some nd /\
                Sch.name nd' = Sch.name nd /\
                Sch.rootname nd' = Sch.rootname nd /\
                Sch.primary nd' = Sch.primary nd).
Proof.
  rewrite lookup_update_append. split.
  - intros nd ->. simpl. eexists. split; [done|]. by case_decide.
  - intros nd'. destruct (Sch.lookup n d) as [nd|]; simpl; [|done].
    intros [= <-]. exists nd. split; [done|]. by case_decide.
Qed.

Lemma sch_inv_init : sch_inv Sch.Schematic_init.
Proof. split; simpl; try done; constructor. Qed.

(** [append] on a node of the table keeps the invariant. *)
Lemma sch_inv_append node elt s :
  sch_inv s ->
  sch_inv (Sch.mkSchematic (Sch.elements s)
             (Sch.update node (Sch.append elt) (Sch.nodes s)) (Sch.snodes s)).
Proof.
  intros [N1 N2 IN IL IG IP]. split; simpl.
  - by rewrite sch_dkeys_update.
  - done.
  - intros n nd' Hn.
    apply (proj2 (nodes_update_append_view node elt _ n)) in Hn
      as (nd & Hnd & -> & -> & ->).
    by apply IN.
  - intros n nd' Hn.
    apply (proj2 (nodes_update_append_view node elt _ n)) in Hn
      as (nd & Hnd & _ & -> & _).
    by apply IL.
  - intros v l Hv. destruct (IG v l Hv) as [Hne Hm]. split; [done|].
    intros m Hin. destruct (Hm m Hin) as (nd & Hnd & Hr).
    apply (proj1 (nodes_update_append_view node elt _ m)) in Hnd
      as (nd' & Hnd' & _ & Hr' & _).
    exists nd'. split; [done | congruence].
  - by rewrite sch_dkeys_update.
Qed.

(** A new node, listed under its root name, keeps the invariant. *)
Lemma sch_inv_new node nd0 s snodes1 :
  sch_inv s ->
  node ∉ Sch.dkeys (Sch.nodes s) ->
  Sch.Node_init node = Some nd0 ->
  (snodes1 = Sch.snodes s /\ Sch.rootname nd0 ∈ Sch.dkeys (Sch.snodes s) \/
   snodes1 = (Sch.snodes s ++ [(Sch.rootname nd0, [])])%list /\
   Sch.rootname nd0 ∉ Sch.dkeys (Sch.snodes s)) ->
  sch_inv (Sch.mkSchematic (Sch.elements s)
             (Sch.nodes s ++ [(node, nd0)])%list
             (Sch.update (Sch.rootname nd0) (fun l => (l ++ [node])%list) snodes1)).
Proof.
  intros [N1 N2 IN IL IG IP] Hout Hinit Hs1.
  set (v := Sch.rootname nd0) in *.
  assert (F1 : NoDup (Sch.dkeys snodes1)).
  { destruct Hs1 as [[-> _]|[-> Hv]]; [done|].
    unfold Sch.dkeys. rewrite map_app. simpl.
    apply NoDup_app. split; [done|]. split; [|apply NoDup_singleton].
    intros x Hx Hx'. apply list_elem_of_singleton in Hx' as ->. done. }
  assert (F2 : forall v' l', Sch.lookup v' snodes1 = Some l' ->
                 Sch.lookup v' (Sch.snodes s) = Some l' \/ (v' = v /\ l' = [])).
  { destruct Hs1 as [[-> _]|[-> Hv]]; [by left|].
    intros v' l'. rewrite sch_lookup_app.
    destruct (Sch.lookup v' (Sch.snodes s)) as [l1|]; [intros [= <-]; by left|].
    simpl. destruct (decide (v' = v)) as [->|]; [|done].
    intros [= <-]. by right. }
  assert (F3 : forall v' l', Sch.lookup v' (Sch.snodes s) = Some l' ->
                             Sch.lookup v' snodes1 = Some l').
  { destruct Hs1 as [[-> _]|[-> Hv]]; [done|].
    intros v' l' H. by rewrite sch_lookup_app, H. }
  assert (F4 : concat (map snd snodes1) = concat (map snd (Sch.snodes s))).
  { destruct Hs1 as [[-> _]|[-> Hv]]; [done|].
    rewrite map_app, concat_app. simpl. by rewrite app_nil_r. }
  assert (F5 : v ∈ Sch.dkeys snodes1).
  { destruct Hs1 as [[-> Hv]|[-> Hv]]; [done|].
    unfold Sch.dkeys. rewrite map_app. apply elem_of_app. right. by left. }
  assert (Hnone : Sch.lookup node (Sch.nodes s) = None) by by apply sch_lookup_None.
  split; simpl.
  - unfold Sch.dkeys. rewrite map_app. simpl.
    apply NoDup_app. split; [done|]. split; [|apply NoDup_singleton].
    intros x Hx Hx'. apply list_elem_of_singleton in Hx' as ->. done.
  - by rewrite sch_dkeys_update.
  - intros n nd. rewrite sch_lookup_app.
    destruct (Sch.lookup n (Sch.nodes s)) as [nd1|] eqn:E.
    + intros [= <-]. by apply IN.
    + simpl. destruct (decide (n = node)) as [->|]; [|done].
      intros [= <-]. split; [by apply Node_init_name|]. by exists nd0.
  - intros n nd. rewrite sch_lookup_app.
    destruct (Sch.lookup n (Sch.nodes s)) as [nd1|] eqn:E.
    + intros [= <-]. destruct (IL n nd1 E) as (l & Hl & Hin).
      rewrite sch_lookup_update. apply F3 in Hl. rewrite Hl.
      destruct (decide (Sch.rootname nd1 = v)); simpl; eexists; split; try done.
      apply elem_of_app. by left.
    + simpl. destruct (decide (n = node)) as [->|]; [|done].
      intros [= <-]. apply sch_lookup_keys in F5 as [l Hl].
      exists (l ++ [node])%list. rewrite sch_lookup_update, decide_True by done.
      fold v. rewrite Hl. split; [done|]. apply elem_of_app. right. by left.
  - intros v' l'. rewrite sch_lookup_update.
    assert (Hold : forall l1, Sch.lookup v' snodes1 = Some l1 ->
              forall m, m ∈ l1 ->
                exists nd, Sch.lookup m (Sch.nodes s ++ [(node, nd0)])%list = Some nd /\
                           Sch.rootname nd = v').
    { intros l1 Hl1 m Hm. destruct (F2 _ _ Hl1) as [Hl|[_ ->]];
        [|by apply elem_of_nil in Hm].
      destruct (IG v' l1 Hl) as [_ Hmem]. destruct (Hmem m Hm) as (nd & Hnd & Hr).
      exists nd. by rewrite sch_lookup_app, Hnd. }
    destruct (decide (v' = v)) as [->|Hne].
    + destruct (Sch.lookup v snodes1) as [l1|] eqn:Hl1; simpl; [|done].
      intros [= <-]. split; [by destruct l1|].
      intros m Hm. apply elem_of_app in Hm as [Hm|Hm]; [by eapply Hold|].
      apply list_elem_of_singleton in Hm as ->.
      exists nd0. rewrite sch_lookup_app, Hnone. simpl.
      by rewrite decide_True.
    + intros Hl'. split; [|by eapply Hold].
      destruct (F2 _ _ Hl') as [Hl|[? _]]; [|done]. by destruct (IG v' l' Hl).
  - unfold Sch.dkeys at 1. rewrite map_app. simpl.
    rewrite concat_update by done. rewrite F4.
    rewrite <- Permutation_cons_append. by constructor.
Qed.

Lemma node_add_inv node elt s s' :
  sch_inv s -> Sch._node_add node elt s = Some s' -> sch_inv s'.
Proof.
  intros Hinv H. pose proof Hinv as [N1 N2 IN IL IG IP].
  unfold Sch._node_add in H.
  destruct (decide (node ∈ Sch.dkeys (Sch.nodes s))) as [Hin|Hout]; simpl in H.
  - (* the node is there: it is listed already *)
    apply sch_lookup_keys in Hin as [nd Hnd].
    rewrite lookup_update_append, Hnd in H. simpl in H.
    rewrite !(decide_True (P := node = node)) in H by done. simpl in H.
    destruct (IL node nd Hnd) as (l & Hl & Hnl).
    rewrite !(decide_True (P := Sch.rootname nd ∈ Sch.dkeys (Sch.snodes s))) in H
      by (apply sch_lookup_keys; eauto).
    rewrite Hl in H. simpl in H.
    rewrite (decide_True (P := node ∈ l)) in H by done.
    injection H as <-. by apply sch_inv_append.
  - destruct (Sch.Node_init node) as [nd0|] eqn:Hinit; simpl in H; [|done].
    rewrite lookup_update_append, sch_lookup_app in H.
    rewrite (sch_lookup_None _ _ Hout) in H. simpl in H.
    rewrite !(decide_True (P := node = node)) in H by done. simpl in H.
    rewrite !(decide_True (P := node = node)) in H by done. simpl in H.
    set (v := Sch.rootname nd0) in *.
    set (snodes1 := if decide (v ∈ Sch.dkeys (Sch.snodes s)) then Sch.snodes s
                    else (Sch.snodes s ++ [(v, [])])%list) in H.
    assert (Hs1 : snodes1 = Sch.snodes s /\ v ∈ Sch.dkeys (Sch.snodes s) \/
                  snodes1 = (Sch.snodes s ++ [(v, [])])%list /\
                  v ∉ Sch.dkeys (Sch.snodes s)).
    { unfold snodes1. destruct (decide _); [by left | by right]. }
    clearbody snodes1.
    destruct (Sch.lookup v snodes1) as [l|] eqn:Hl; simpl in H; [|done].
    assert (Hnl : node ∉ l).
    { intros Hnl. destruct Hs1 as [[-> _]|[-> Hv]].
      - destruct (IG v l Hl) as [_ Hm]. destruct (Hm node Hnl) as (nd & Hnd & _).
        apply Hout, sch_lookup_keys. eauto.
      - rewrite sch_lookup_app, (sch_lookup_None _ _ Hv) in Hl. simpl in Hl.
        rewrite decide_True in Hl by done. injection Hl as <-.
        by apply elem_of_nil in Hnl. }
    rewrite (decide_False (P := node ∈ l)) in H by done. injection H as <-.
    pose proof (sch_inv_new node nd0 s snodes1 Hinv Hout Hinit Hs1) as Hnew.
    pose proof (sch_inv_append node elt _ Hnew) as Happ. exact Happ.
Qed.

Lemma sch_inv_elements e s :
  sch_inv s -> sch_inv (Sch.mkSchematic e (Sch.nodes s) (Sch.snodes s)).
Proof. by intros []. Qed.

Lemma node_adds_inv elt vs : forall s s',
  sch_inv s ->
  foldl (fun r node => s' ← r; Sch._node_add node elt s') (Some s) vs = Some s' ->
  sch_inv s'.
Proof.
  induction vs as [|v vs IH]; intros s s' Hinv; simpl.
  - by intros [= <-].
  - destruct (Sch._node_add v elt s) as [s1|] eqn:H1.
    + apply IH. by eapply node_add_inv.
    + rewrite foldl_stuck by done. done.
Qed.

Lemma add_cpt_inv cpt s s' :
  sch_inv s -> Sch.add_cpt cpt s = Some s' -> sch_inv s'.
Proof.
  intros Hinv. unfold Sch.add_cpt. apply node_adds_inv.
  by apply sch_inv_elements.
Qed.

Lemma add_cpts_inv cpts : forall s s',
  sch_inv s ->
  foldl (fun r c => s' ← r; Sch.add_cpt c s') (Some s) cpts = Some s' ->
  sch_inv s'.
Proof.
  induction cpts as [|c cpts IH]; intros s s' Hinv; simpl.
  - by intros [= <-].
  - destruct (Sch.add_cpt c s) as [s1|] eqn:H1.
    + apply IH. by eapply add_cpt_inv.
    + rewrite foldl_stuck by done. done.
Qed.

(** With the invariant, [_node_add] fails on the empty name only. *)
Lemma node_add_fails node elt s :
  sch_inv s -> Sch._node_add node elt s = None <-> node = "".
Proof.
  intros Hinv. pose proof Hinv as [N1 N2 IN IL IG IP].
  assert (Hempty : "" ∉ Sch.dkeys (Sch.nodes s)).
  { intros Hin. apply sch_lookup_keys in Hin as [nd Hnd].
    by destruct (IN _ _ Hnd) as (_ & nd0 & ? & _). }
  split.
  - intros Hnone. destruct node as [|c rest]; [done|]. exfalso.
    revert Hnone. unfold Sch._node_add.
    destruct (decide (String c rest ∈ Sch.dkeys (Sch.nodes s))) as [Hin|Hout];
      cbn [mbind option_bind Sch.Node_init].
    + apply sch_lookup_keys in Hin as [nd Hnd].
      rewrite lookup_update_append, Hnd. simpl.
      rewrite !(decide_True (P := String c rest = String c rest)) by done.
      simpl. destruct (IL _ nd Hnd) as (l & Hl & Hnl).
      rewrite !(decide_True (P := Sch.rootname nd ∈ Sch.dkeys (Sch.snodes s)))
        by (apply sch_lookup_keys; eauto).
      by rewrite Hl.
    + rewrite lookup_update_append, sch_lookup_app.
      rewrite (sch_lookup_None _ _ Hout). simpl.
      rewrite !(decide_True (P := String c rest = String c rest)) by done.
      simpl.
      rewrite !(decide_True (P := String c rest = String c rest)) by done.
      simpl.
      match goal with
      | |- context [decide (?v ∈ Sch.dkeys (Sch.snodes s))] =>
          destruct (decide (v ∈ Sch.dkeys (Sch.snodes s))) as [Hv|Hv]
      end.
      * apply sch_lookup_keys in Hv as [l Hl]. by rewrite Hl.
      * rewrite sch_lookup_app, (sch_lookup_None _ _ Hv). simpl.
        by rewrite decide_True.
  - intros ->. unfold Sch._node_add. by rewrite decide_False.
Qed.

(** X19.  The two node tables of a schematic, after any sequence of
    components has been added: a node is stored under its name with the root
    name that [Node.__init__] gives that name; it is listed in [snodes] under
    its root name; every list of [snodes] is non-empty and holds nodes of
    exactly that root name; and the lists of [snodes] together hold every
    node once.  On such tables [_node_add] fails for the empty name only. *)
Theorem node_tables_invariant cpts s :
  foldl (fun r c => s' ← r; Sch.add_cpt c s') (Some Sch.Schematic_init) cpts
  = Some s ->
  sch_inv s /\
  forall node elt, Sch._node_add node elt s = None <-> node = "".
Proof.
  intros H. apply add_cpts_inv in H; [|apply sch_inv_init].
  split; [done|]. intros node elt. by apply node_add_fails.
Qed.

Lemma node_tables_invariant_witness :
  exists s,
    foldl (fun r c => s' ← r; Sch.add_cpt c s') (Some Sch.Schematic_init)
          [Sch.mkElt "R1" "R" ["1"; "2"]; Sch.mkElt "R2" "R" ["1_1"; "2"]]
    = Some s /\
    Sch.snodes s = [("1", ["1"; "1_1"]); ("2", ["2"])] /\
    Sch.dkeys (Sch.nodes s) ≡ₚ concat (map snd (Sch.snodes s)).
Proof.
  eexists. split; [vm_compute; reflexivity|]. split; [reflexivity|].
  refine (inv_perm _ (proj1 (node_tables_invariant
    [Sch.mkElt "R1" "R" ["1"; "2"]; Sch.mkElt "R2" "R" ["1_1"; "2"]] _ _))).
  vm_compute; reflexivity.
Defined.

Lemma length_wire_pairs l : l <> [] -> S (length (Sch.wire_pairs l)) = length l.
Proof.
  induction l as [|a l IH]; [done|]. intros _.
  destruct l as [|b l]; [done|]. simpl in *. f_equal. by apply IH.
Qed.

Lemma sch_elem_lookup {V} k (v : V) d :
  NoDup (Sch.dkeys d) -> (k, v) ∈ d -> Sch.lookup k d = Some v.
Proof.
  induction d as [|[k0 v0] d IH]; simpl; intros Hnd Hin.
  - by apply elem_of_nil in Hin.
  - apply NoDup_cons in Hnd as [Hk0 Hnd].
    apply elem_of_cons in Hin as [[= -> ->]|Hin]; [by rewrite decide_True|].
    rewrite decide_False; [by apply IH|].
    intros ->. apply Hk0. apply list_elem_of_fmap. by exists (k0, v).
Qed.

Section WireCount.
Variable W : Type.
Variable parse : string -> W.

Lemma wires_count_groups (d : list (string * list string)) :
  Forall (fun p => p.2 <> []) d ->
  (length (flat_map (fun p => Sch._make_wires1 W parse p.2) d) + length d)%nat
  = length (concat (map snd d)).
Proof.
  induction 1 as [|[v l] d Hl _ IH]; simpl; [done|].
  rewrite !length_app. unfold Sch._make_wires1 at 1. rewrite length_map.
  simpl in Hl. pose proof (length_wire_pairs l Hl). lia.
Qed.

Lemma wires_count_inv s :
  sch_inv s ->
  (length (Sch._make_wires W parse s) + length (Sch.snodes s))%nat
  = length (Sch.nodes s).
Proof.
  intros [N1 N2 IN IL IG IP]. unfold Sch._make_wires.
  rewrite wires_count_groups.
  - rewrite <- IP. unfold Sch.dkeys. by rewrite length_map.
  - apply Forall_forall. intros [v l] Hin. simpl.
    apply sch_elem_lookup in Hin; [|done]. by destruct (IG v l Hin).
Qed.
End WireCount.

(** X20.  The implicit wires of a schematic: [_make_wires] asks for one wire
    less than there are nodes in each list of [snodes], so the wires and the
    root names together are as many as the nodes. *)
Theorem make_wires_count (W : Type) (parse : string -> W) cpts s :
  foldl (fun r c => s' ← r; Sch.add_cpt c s') (Some Sch.Schematic_init) cpts
  = Some s ->
  (length (Sch._make_wires W parse s) + length (Sch.snodes s))%nat
  = length (Sch.nodes s).
Proof.
  intros H. apply wires_count_inv. apply add_cpts_inv in H; [done|].
  apply sch_inv_init.
Qed.

Lemma make_wires_count_witness :
  exists s,
    foldl (fun r c => s' ← r; Sch.add_cpt c s') (Some Sch.Schematic_init)
          [Sch.mkElt "R1" "R" ["1"; "2"]; Sch.mkElt "R2" "R" ["1_1"; "2"]]
    = Some s /\
    Sch._make_wires string (fun line => line) s = ["W_ 1 1_1"] /\
    (length (Sch._make_wires string (fun line => line) s)
     + length (Sch.snodes s))%nat = length (Sch.nodes s).
Proof.
  eexists. split; [vm_compute; reflexivity|]. split; [reflexivity|].
  refine (make_wires_count string (fun line => line)
    [Sch.mkElt "R1" "R" ["1"; "2"]; Sch.mkElt "R2" "R" ["1_1"; "2"]] _ _).
  vm_compute; reflexivity.
Defined.

(** ** [Graph.add] on Python floats *)

















(** *** The graph with number lengths is the graph with float lengths *)

Lemma embed_lookup_key k its :
  Floats.lookup_key k (embed_items its) = embed_node <$> lookup_key k its.
Proof.
  induction its as [|[k0 nd] its IH]; simpl; [done|].
  by destruct (decide (k = k0)).
Qed.

Lemma embed_contains its k : Floats.contains (embed_items its) k = contains its k.
Proof.
  unfold Floats.contains, contains. apply bool_decide_ext.
  rewrite embed_lookup_key. by rewrite fmap_is_Some.
Qed.

Lemma embed_add_node n its :
  embed_items (add_node n its) = Floats.add_node n (embed_items its).
Proof.
  unfold add_node, Floats.add_node. rewrite embed_contains.
  destruct (contains its n); [done|].
  unfold embed_items. by rewrite fmap_app.
Qed.

Lemma embed_modify k f f' its :
  (forall nd, embed_node (f nd) = f' (embed_node nd)) ->
  embed_items (modify k f its) = Floats.modify k f' (embed_items its).
Proof.
  intros Hf. induction its as [|[k0 nd] its IH]; simpl; [done|].
  destruct (decide (k = k0)); simpl; [by rewrite Hf | by rewrite <- IH].
Qed.

Lemma embed_add_edges k1 k2 q st its :
  embed_items (add_edges k1 k2 q st its)
  = Floats.add_edges k1 k2 (Num q) st (embed_items its).
Proof.
  unfold add_edges, Floats.add_edges.
  rewrite (embed_modify k2 _ (Floats.add_redge (Floats.mkGedge k2 k1 (Num q) st)));
    [|intros []; unfold embed_node; simpl; by rewrite fmap_app].
  rewrite (embed_modify k1 _ (Floats.add_fedge (Floats.mkGedge k1 k2 (Num q) st)));
    [|intros []; unfold embed_node; simpl; by rewrite fmap_app].
  done.
Qed.

(** On a length that is a number, [add] on floats is the [add] of the other
    sections. *)
Lemma embed_add g n1 n2 q st :
  Floats.add (embed g) n1 n2 (Num q) st = embed (add g n1 n2 q st).
Proof.
  unfold Floats.add, add. simpl.
  destruct (Qeq_bool q 0); [done|].
  destruct (Qlt_le_dec q 0); simpl; unfold embed, Floats.with_items; simpl;
    f_equal; fold (embed_items (items g));
    by rewrite <- !embed_add_node, <- embed_add_edges.
Qed.

(** ** Runs that differ in order only *)

Lemma canon_Name_inv c s t : canon c (Name s) = Name t -> s = t /\ c !! s = None.
Proof. simpl. destruct (c !! s); [done|]. by intros [= ->]. Qed.

Lemma canon_Name_None c s : c !! s = None -> canon c (Name s) = Name s.
Proof. simpl. by intros ->. Qed.

Lemma same_key_sym c1 c2 k1 k2 : same_key c1 c2 k1 k2 -> same_key c2 c1 k2 k1.
Proof. intros (s & -> & ->). by exists s. Qed.



Lemma same_key_inj c1 c2 k1 k1' k2 :
  same_groups c1 c2 -> same_key c1 c2 k1 k2 -> same_key c1 c2 k1' k2 -> k1 = k1'.
Proof.
  intros Hg (s & -> & ->) (s' & -> & Hs). by apply Hg.
Qed.


Lemma same_key_plain_l c1 c2 s k2 :
  c2 !! s = None -> same_key c1 c2 (Name s) k2 -> k2 = Name s.
Proof.
  intros H2 (t & Ht & ->). symmetry in Ht. apply canon_Name_inv in Ht as [-> _].
  by apply canon_Name_None.
Qed.

Lemma same_key_plain_r c1 c2 s k1 :
  c1 !! s = None -> same_key c1 c2 k1 (Name s) -> k1 = Name s.
Proof.
  intros H1 H. apply same_key_sym in H. by eapply same_key_plain_l.
Qed.

(** *** The edges that [add_start_nodes] adds *)





(** *** The extent, whatever the iteration order *)

Lemma analyse_order_id limit stage g :
  analyse_order (fun l => l) limit stage g = analyse limit stage g.
Proof. reflexivity. Qed.



(** *** Graphs with the same edges have the same paths *)







(** *** What a sequence of [add] calls stores *)


















(** *** The longest distances do not depend on any order *)





(** The resolved distances also depend on the order in which the set of
    unresolved nodes is iterated: on [hanging_pair] the point [U] is put at 9
    when the set is iterated in the order of the dict, and at 0 when it is
    iterated in the opposite order. *)
Lemma positions_depend_on_iteration_order :
  exists g1 g2 pos1 pos2 d1 d2,
    analyse_order (fun l => l) 10 None hanging_pair = Ok (g1, Some (pos1, d1)) /\
    analyse_order (@rev gkey) 10 None hanging_pair = Ok (g2, Some (pos2, d2)) /\
    pos1 !! "U" = Some (Some 9%Q) /\
    pos2 !! "U" = Some (Some 0%Q) /\
    ~ (9 == 0)%Q.
Proof.
  eexists _, _, _, _, _, _.
  split; [vm_compute; reflexivity|].
  split; [vm_compute; reflexivity|].
  split; [vm_compute; reflexivity|].
  split; [vm_compute; reflexivity|].
  vm_compute. discriminate.
Qed.

(** *** The same merges in any order group the names alike *)

(** Two names have one key exactly when they share a common node. *)
Lemma canon_same c s s' :
  canon c (Name s) = canon c (Name s') <-> same c s s'.
Proof.
  unfold same. simpl.
  destruct (c !! s) as [t|] eqn:Hs; destruct (c !! s') as [t'|] eqn:Hs'; split.
  - intros [= ->]. right. by exists t'.
  - intros [->|(u & [= <-] & [= <-])]; [congruence | done].
  - done.
  - intros [->|(u & _ & ?)]; [congruence | done].
  - done.
  - intros [->|(u & ? & _)]; [congruence | done].
  - intros [= ->]. by left.
  - intros [->|(u & ? & _)]; done.
Qed.

(** The grouping of the names after a sequence of merges is the closure of
    the merges: it does not depend on their order, whatever the order of the
    members in the tuples. *)
Lemma links_same_groups l1 l2 c c1 c2 :
  consistent c -> l1 ≡ₚ l2 ->
  Cnodes.links c l1 = Ok c1 -> Cnodes.links c l2 = Ok c2 ->
  same_groups c1 c2.
Proof.
  intros Hc Hp H1 H2 s s'. rewrite !canon_same.
  rewrite (links_same l1 c c1 s s' Hc H1), (links_same l2 c c2 s s' Hc H2).
  split; apply eqv_closed; try apply eqv_base; intros u v H; apply eqv_pair.
  - by rewrite <- Hp.
  - by rewrite Hp.
Qed.
